(** * The writer side of a shared-memory byte stream

    A shallow embedding of [lib/utils/writer.js] (class [Writable] and the
    functions [Write] and [FakeWrite]) together with the properties of its
    ring framer, write engine and lifecycle controller.

    The source file holds two versions of the module; the embedding follows
    the second, which has the lifecycle controller.

    The writer is single threaded; the reader is another thread that shares
    two regions with it.  The embedding therefore threads one [writer] value
    through every method (a state monad that also carries thrown exceptions)
    and drives the reader from a script of [tick]s that the writer meets at
    the calls where it waits for the reader. *)

From Stdlib Require Import ZArith List String Ascii Bool Lia.
Import ListNotations.
Local Open Scope Z_scope.

(** ** Constants of [./config]

    [writer.js] imports the slot indices, the lifecycle signs and the two
    frame sizes from [./config].  The six slot indices are only ever used as
    names of distinct words of the state region, so they are the constructors
    of [slot]; the signs and sizes are the fields of [config]. *)

Inductive slot : Type :=
| READ_INDEX | WRITE_INDEX | READ_CYCLE | WRITE_CYCLE | READ_PROCESS | WRITE_PROCESS.

Record config : Type := Config {
  PREFIX_SIZE : Z;
  POSTFIX_SIZE : Z;
  READY_SIGN : Z;
  EMPTY_SIGN : Z;
  FAILED_SIGN : Z;
  FINISHED_SIGN : Z;
  FINISHING_SIGN : Z
}.

Definition EXTRA_SPACE (cfg : config) : Z := PREFIX_SIZE cfg + POSTFIX_SIZE cfg.

Definition READ_SPINS : Z := 10.
Definition FINISH_SPINS : Z := 10.
Definition SPIN_TIMEOUT : Z := 1000.
Definition START_TIMEOUT : Z := 5000.

(** The errors the module creates, named after its message constants; the two
    anonymous messages of [Write] are ['overwritten'] and
    ['Read further than expected'].  [RangeError] and [TypeError] are the
    ones the runtime raises (a [Buffer] access out of range, a call of
    something that is not a function, a byte length of [undefined]). *)
Inductive error : Type :=
| overwritten
| read_further_than_expected
| TOO_LONG_READING
| READER_EXIT_BEFORE_SYNC
| READER_FAILED_TIMEOUT
| READER_EXIT_AT_SYNC
| FAILED_TO_FINISH_TIMEOUT
| FAILED_TO_FINISH_READER
| READER_EXIT_WHILE_WATCH
| RangeError
| TypeError
| other_error (message : string).

Inductive event : Type :=
| ev_ready | ev_drain | ev_finish | ev_error (e : error) | ev_close.

(** ** Strings and bytes

    A payload is a JavaScript string whose code units are below 256, one
    [ascii] each.  [Buffer] stores it as UTF-8: one byte for a code unit
    below 128, two bytes otherwise.  [String.prototype.slice] counts code
    units, [Buffer.byteLength] counts bytes. *)

Definition code (c : ascii) : Z := Z.of_N (N_of_ascii c).

Definition utf8_char (c : ascii) : list Z :=
  if code c <? 128 then [code c]
  else [Z.lor 192 (Z.shiftr (code c) 6); Z.lor 128 (Z.land (code c) 63)].

Fixpoint utf8 (s : string) : list Z :=
  match s with
  | EmptyString => []
  | String c s' => utf8_char c ++ utf8 s'
  end.

Definition len {A : Type} (l : list A) : Z := Z.of_nat (List.length l).

(** The whole characters of [s] that fit into [room] bytes: what
    [buf.write] stores when the buffer ends before the string does. *)
Fixpoint utf8_fit (room : Z) (s : string) : list Z :=
  match s with
  | EmptyString => []
  | String c s' =>
      let b := utf8_char c in
      if len b <=? room then b ++ utf8_fit (room - len b) s' else []
  end.

Fixpoint take (n : nat) (s : string) : string :=
  match n, s with
  | S n', String c s' => String c (take n' s')
  | _, _ => EmptyString
  end.

Fixpoint drop (n : nat) (s : string) : string :=
  match n, s with
  | S n', String _ s' => drop n' s'
  | _, _ => s
  end.

(** [s.slice(a, b)], with the negative indices counted from the end. *)
Definition slice_index (i : Z) (s : string) : nat :=
  let n := Z.of_nat (String.length s) in
  Z.to_nat (if i <? 0 then Z.max (n + i) 0 else Z.min i n).

Definition slice (s : string) (a b : Z) : string :=
  take (slice_index b s - slice_index a s) (drop (slice_index a s) s).

Definition slice_from (s : string) (a : Z) : string :=
  drop (slice_index a s) s.

(** A value handed to [write]: a string, or [undefined] (what
    [Array.prototype.shift] returns on an empty queue). *)
Definition jsval : Type := option string.

(** ** The shared byte region: a [Buffer] as its list of bytes *)

Definition blit (off : Z) (bytes : list Z) (B : list Z) : list Z :=
  firstn (Z.to_nat off) B ++ bytes
    ++ skipn (Z.to_nat off + List.length bytes) B.

(** [buf.write(data, off)]: [off] must lie in [0, buf.length]; the bytes
    that fit are stored and their number is returned. *)
Definition Buffer_write (data : string) (off : Z) (B : list Z)
  : option (Z * list Z) :=
  if (0 <=? off) && (off <=? len B) then
    let bytes := utf8_fit (len B - off) data in
    Some (len bytes, blit off bytes B)
  else None.

Definition int32LE (v : Z) : list Z :=
  [Z.land v 255; Z.land (Z.shiftr v 8) 255;
   Z.land (Z.shiftr v 16) 255; Z.land (Z.shiftr v 24) 255].

(** [buf.writeInt32LE(v, off)]: a signed 32-bit [v], four bytes in range. *)
Definition Buffer_writeInt32LE (v off : Z) (B : list Z)
  : option (unit * list Z) :=
  if (-2147483648 <=? v) && (v <? 2147483648) && (0 <=? off)
     && (off + 4 <=? len B)
  then Some (tt, blit off (int32LE v) B) else None.

(** [buf.writeUInt8(v, off)]. *)
Definition Buffer_writeUInt8 (v off : Z) (B : list Z)
  : option (unit * list Z) :=
  if (0 <=? v) && (v <=? 255) && (0 <=? off) && (off <? len B)
  then Some (tt, blit off [v] B) else None.

(** ** The shared state region: an [Int32Array] read through [Atomics] *)

Record shared : Type := mkShared {
  read_index : Z;
  write_index : Z;
  read_cycle : Z;
  write_cycle : Z;
  read_process : Z;
  write_process : Z
}.

Definition to_int32 (v : Z) : Z :=
  (v + 2147483648) mod 4294967296 - 2147483648.

Definition Atomics_load (st : shared) (s : slot) : Z :=
  match s with
  | READ_INDEX => read_index st
  | WRITE_INDEX => write_index st
  | READ_CYCLE => read_cycle st
  | WRITE_CYCLE => write_cycle st
  | READ_PROCESS => read_process st
  | WRITE_PROCESS => write_process st
  end.

Definition Atomics_store (st : shared) (s : slot) (v : Z) : shared :=
  let v := to_int32 v in
  match s with
  | READ_INDEX =>
      mkShared v (write_index st) (read_cycle st) (write_cycle st)
        (read_process st) (write_process st)
  | WRITE_INDEX =>
      mkShared (read_index st) v (read_cycle st) (write_cycle st)
        (read_process st) (write_process st)
  | READ_CYCLE =>
      mkShared (read_index st) (write_index st) v (write_cycle st)
        (read_process st) (write_process st)
  | WRITE_CYCLE =>
      mkShared (read_index st) (write_index st) (read_cycle st) v
        (read_process st) (write_process st)
  | READ_PROCESS =>
      mkShared (read_index st) (write_index st) (read_cycle st)
        (write_cycle st) v (write_process st)
  | WRITE_PROCESS =>
      mkShared (read_index st) (write_index st) (read_cycle st)
        (write_cycle st) (read_process st) v
  end.

(** ** The reader

    One [tick] is what the reader does while the writer is at one of its
    waiting calls (or between two of the writer's tasks): the words it
    stores into its own three slots and whether it notifies the waiter. *)
Record tick : Type := mkTick {
  t_index : option Z;
  t_cycle : option Z;
  t_process : option Z;
  t_notify : bool
}.

Definition store_opt (s : slot) (v : option Z) (st : shared) : shared :=
  match v with Some v => Atomics_store st s v | None => st end.

Definition reader_step (t : tick) (st : shared) : shared :=
  store_opt READ_PROCESS (t_process t)
    (store_opt READ_CYCLE (t_cycle t) (store_opt READ_INDEX (t_index t) st)).

(** ** The writer object *)

(** What [this.write] is bound to. *)
Inductive entry : Type :=
| bound_Write (sync : bool)
| bound_FakeWrite.

(** The callbacks the writer hangs on the promises of [Atomics.waitAsync]. *)
Inductive continuation : Type :=
| then_drain
| then_watch
| then_synchronize.

(** One call of [_store], as its commented-out debug line would print it:
    the offset, the bytes that were written and the not-final mark. *)
Record frame : Type := mkFrame {
  f_offset : Z;
  f_payload : list Z;
  f_not_final : Z
}.

(** The three answers of [Atomics.wait]. *)
Inductive wait_status : Type := ok | timed_out | not_equal.

(** The fields of the class, under their names, and after them what the
    embedding keeps beside the object: the callbacks waiting on promises,
    the number of one-shot ['drain'] listeners that [_watch] has armed,
    whether a listener for ['error'] is registered with the emitter the
    class extends, the events emitted and the slots notified so far, the
    log of [_store], and the script the reader will follow. *)
Record writer := mkWriter {
  _sharedBuffer : list Z;
  _sharedState : shared;
  _extraBuffer : list jsval;
  _process : Z;
  _cycle : Z;
  _write : Z;
  _ready : bool;
  _ended : bool;
  _closed : bool;
  _ending : bool;
  _errored : option error;
  _destroyed : bool;
  _flashing : bool;
  _finished : bool;
  _needDrain : bool;
  _watching : bool;
  write : entry;
  promises : list continuation;
  drain_once : nat;
  error_listener : bool;
  emitted : list event;
  notified : list slot;
  frames : list frame;
  reader : list tick
}.

(** Assignments to one field. *)
Definition set_sharedBuffer (v : list Z) (w : writer) : writer :=
  mkWriter
    v (_sharedState w) (_extraBuffer w) (_process w) (_cycle w) (_write w)
    (_ready w) (_ended w) (_closed w) (_ending w) (_errored w)
    (_destroyed w) (_flashing w) (_finished w) (_needDrain w) (_watching w)
    (write w) (promises w) (drain_once w) (error_listener w) (emitted w)
    (notified w) (frames w) (reader w).
Definition set_sharedState (v : shared) (w : writer) : writer :=
  mkWriter
    (_sharedBuffer w) v (_extraBuffer w) (_process w) (_cycle w) (_write w)
    (_ready w) (_ended w) (_closed w) (_ending w) (_errored w)
    (_destroyed w) (_flashing w) (_finished w) (_needDrain w) (_watching w)
    (write w) (promises w) (drain_once w) (error_listener w) (emitted w)
    (notified w) (frames w) (reader w).
Definition set_extraBuffer (v : list jsval) (w : writer) : writer :=
  mkWriter
    (_sharedBuffer w) (_sharedState w) v (_process w) (_cycle w) (_write w)
    (_ready w) (_ended w) (_closed w) (_ending w) (_errored w)
    (_destroyed w) (_flashing w) (_finished w) (_needDrain w) (_watching w)
    (write w) (promises w) (drain_once w) (error_listener w) (emitted w)
    (notified w) (frames w) (reader w).
Definition set_process (v : Z) (w : writer) : writer :=
  mkWriter
    (_sharedBuffer w) (_sharedState w) (_extraBuffer w) v (_cycle w)
    (_write w) (_ready w) (_ended w) (_closed w) (_ending w) (_errored w)
    (_destroyed w) (_flashing w) (_finished w) (_needDrain w) (_watching w)
    (write w) (promises w) (drain_once w) (error_listener w) (emitted w)
    (notified w) (frames w) (reader w).
Definition set_cycle (v : Z) (w : writer) : writer :=
  mkWriter
    (_sharedBuffer w) (_sharedState w) (_extraBuffer w) (_process w) v
    (_write w) (_ready w) (_ended w) (_closed w) (_ending w) (_errored w)
    (_destroyed w) (_flashing w) (_finished w) (_needDrain w) (_watching w)
    (write w) (promises w) (drain_once w) (error_listener w) (emitted w)
    (notified w) (frames w) (reader w).
Definition set_write (v : Z) (w : writer) : writer :=
  mkWriter
    (_sharedBuffer w) (_sharedState w) (_extraBuffer w) (_process w)
    (_cycle w) v (_ready w) (_ended w) (_closed w) (_ending w) (_errored w)
    (_destroyed w) (_flashing w) (_finished w) (_needDrain w) (_watching w)
    (write w) (promises w) (drain_once w) (error_listener w) (emitted w)
    (notified w) (frames w) (reader w).
Definition set_ready (v : bool) (w : writer) : writer :=
  mkWriter
    (_sharedBuffer w) (_sharedState w) (_extraBuffer w) (_process w)
    (_cycle w) (_write w) v (_ended w) (_closed w) (_ending w) (_errored w)
    (_destroyed w) (_flashing w) (_finished w) (_needDrain w) (_watching w)
    (write w) (promises w) (drain_once w) (error_listener w) (emitted w)
    (notified w) (frames w) (reader w).
Definition set_ended (v : bool) (w : writer) : writer :=
  mkWriter
    (_sharedBuffer w) (_sharedState w) (_extraBuffer w) (_process w)
    (_cycle w) (_write w) (_ready w) v (_closed w) (_ending w) (_errored w)
    (_destroyed w) (_flashing w) (_finished w) (_needDrain w) (_watching w)
    (write w) (promises w) (drain_once w) (error_listener w) (emitted w)
    (notified w) (frames w) (reader w).
Definition set_closed (v : bool) (w : writer) : writer :=
  mkWriter
    (_sharedBuffer w) (_sharedState w) (_extraBuffer w) (_process w)
    (_cycle w) (_write w) (_ready w) (_ended w) v (_ending w) (_errored w)
    (_destroyed w) (_flashing w) (_finished w) (_needDrain w) (_watching w)
    (write w) (promises w) (drain_once w) (error_listener w) (emitted w)
    (notified w) (frames w) (reader w).
Definition set_ending (v : bool) (w : writer) : writer :=
  mkWriter
    (_sharedBuffer w) (_sharedState w) (_extraBuffer w) (_process w)
    (_cycle w) (_write w) (_ready w) (_ended w) (_closed w) v (_errored w)
    (_destroyed w) (_flashing w) (_finished w) (_needDrain w) (_watching w)
    (write w) (promises w) (drain_once w) (error_listener w) (emitted w)
    (notified w) (frames w) (reader w).
Definition set_errored (v : option error) (w : writer) : writer :=
  mkWriter
    (_sharedBuffer w) (_sharedState w) (_extraBuffer w) (_process w)
    (_cycle w) (_write w) (_ready w) (_ended w) (_closed w) (_ending w) v
    (_destroyed w) (_flashing w) (_finished w) (_needDrain w) (_watching w)
    (write w) (promises w) (drain_once w) (error_listener w) (emitted w)
    (notified w) (frames w) (reader w).
Definition set_destroyed (v : bool) (w : writer) : writer :=
  mkWriter
    (_sharedBuffer w) (_sharedState w) (_extraBuffer w) (_process w)
    (_cycle w) (_write w) (_ready w) (_ended w) (_closed w) (_ending w)
    (_errored w) v (_flashing w) (_finished w) (_needDrain w) (_watching w)
    (write w) (promises w) (drain_once w) (error_listener w) (emitted w)
    (notified w) (frames w) (reader w).
Definition set_finished (v : bool) (w : writer) : writer :=
  mkWriter
    (_sharedBuffer w) (_sharedState w) (_extraBuffer w) (_process w)
    (_cycle w) (_write w) (_ready w) (_ended w) (_closed w) (_ending w)
    (_errored w) (_destroyed w) (_flashing w) v (_needDrain w) (_watching w)
    (write w) (promises w) (drain_once w) (error_listener w) (emitted w)
    (notified w) (frames w) (reader w).
Definition set_needDrain (v : bool) (w : writer) : writer :=
  mkWriter
    (_sharedBuffer w) (_sharedState w) (_extraBuffer w) (_process w)
    (_cycle w) (_write w) (_ready w) (_ended w) (_closed w) (_ending w)
    (_errored w) (_destroyed w) (_flashing w) (_finished w) v (_watching w)
    (write w) (promises w) (drain_once w) (error_listener w) (emitted w)
    (notified w) (frames w) (reader w).
Definition set_watching (v : bool) (w : writer) : writer :=
  mkWriter
    (_sharedBuffer w) (_sharedState w) (_extraBuffer w) (_process w)
    (_cycle w) (_write w) (_ready w) (_ended w) (_closed w) (_ending w)
    (_errored w) (_destroyed w) (_flashing w) (_finished w) (_needDrain w) v
    (write w) (promises w) (drain_once w) (error_listener w) (emitted w)
    (notified w) (frames w) (reader w).
Definition rebind_write (v : entry) (w : writer) : writer :=
  mkWriter
    (_sharedBuffer w) (_sharedState w) (_extraBuffer w) (_process w)
    (_cycle w) (_write w) (_ready w) (_ended w) (_closed w) (_ending w)
    (_errored w) (_destroyed w) (_flashing w) (_finished w) (_needDrain w)
    (_watching w) v (promises w) (drain_once w) (error_listener w)
    (emitted w) (notified w) (frames w) (reader w).
Definition set_promises (v : list continuation) (w : writer) : writer :=
  mkWriter
    (_sharedBuffer w) (_sharedState w) (_extraBuffer w) (_process w)
    (_cycle w) (_write w) (_ready w) (_ended w) (_closed w) (_ending w)
    (_errored w) (_destroyed w) (_flashing w) (_finished w) (_needDrain w)
    (_watching w) (write w) v (drain_once w) (error_listener w) (emitted w)
    (notified w) (frames w) (reader w).
Definition set_drain_once (v : nat) (w : writer) : writer :=
  mkWriter
    (_sharedBuffer w) (_sharedState w) (_extraBuffer w) (_process w)
    (_cycle w) (_write w) (_ready w) (_ended w) (_closed w) (_ending w)
    (_errored w) (_destroyed w) (_flashing w) (_finished w) (_needDrain w)
    (_watching w) (write w) (promises w) v (error_listener w) (emitted w)
    (notified w) (frames w) (reader w).
Definition set_error_listener (v : bool) (w : writer) : writer :=
  mkWriter
    (_sharedBuffer w) (_sharedState w) (_extraBuffer w) (_process w)
    (_cycle w) (_write w) (_ready w) (_ended w) (_closed w) (_ending w)
    (_errored w) (_destroyed w) (_flashing w) (_finished w) (_needDrain w)
    (_watching w) (write w) (promises w) (drain_once w) v (emitted w)
    (notified w) (frames w) (reader w).
Definition set_emitted (v : list event) (w : writer) : writer :=
  mkWriter
    (_sharedBuffer w) (_sharedState w) (_extraBuffer w) (_process w)
    (_cycle w) (_write w) (_ready w) (_ended w) (_closed w) (_ending w)
    (_errored w) (_destroyed w) (_flashing w) (_finished w) (_needDrain w)
    (_watching w) (write w) (promises w) (drain_once w) (error_listener w) v
    (notified w) (frames w) (reader w).
Definition set_notified (v : list slot) (w : writer) : writer :=
  mkWriter
    (_sharedBuffer w) (_sharedState w) (_extraBuffer w) (_process w)
    (_cycle w) (_write w) (_ready w) (_ended w) (_closed w) (_ending w)
    (_errored w) (_destroyed w) (_flashing w) (_finished w) (_needDrain w)
    (_watching w) (write w) (promises w) (drain_once w) (error_listener w)
    (emitted w) v (frames w) (reader w).
Definition set_frames (v : list frame) (w : writer) : writer :=
  mkWriter
    (_sharedBuffer w) (_sharedState w) (_extraBuffer w) (_process w)
    (_cycle w) (_write w) (_ready w) (_ended w) (_closed w) (_ending w)
    (_errored w) (_destroyed w) (_flashing w) (_finished w) (_needDrain w)
    (_watching w) (write w) (promises w) (drain_once w) (error_listener w)
    (emitted w) (notified w) v (reader w).
Definition set_reader (v : list tick) (w : writer) : writer :=
  mkWriter
    (_sharedBuffer w) (_sharedState w) (_extraBuffer w) (_process w)
    (_cycle w) (_write w) (_ready w) (_ended w) (_closed w) (_ending w)
    (_errored w) (_destroyed w) (_flashing w) (_finished w) (_needDrain w)
    (_watching w) (write w) (promises w) (drain_once w) (error_listener w)
    (emitted w) (notified w) (frames w) v.

(** ** Methods as state transformers that may throw

    A method takes the writer and returns its result with the writer as the
    method left it.  A thrown exception keeps every mutation made before it,
    as in JavaScript.  [OutOfFuel] is the answer of a recursion that was cut
    short by its bound; no method of the source produces it. *)

Inductive result (A : Type) : Type :=
| Returned (a : A)
| Thrown (e : error)
| OutOfFuel.
Arguments Returned {A} a.
Arguments Thrown {A} e.
Arguments OutOfFuel {A}.

Definition M (A : Type) : Type := writer -> result A * writer.

Definition ret {A : Type} (a : A) : M A := fun w => (Returned a, w).
Definition throw {A : Type} (e : error) : M A := fun w => (Thrown e, w).
Definition out_of_fuel {A : Type} : M A := fun w => (OutOfFuel, w).

Definition bind {A B : Type} (m : M A) (k : A -> M B) : M B :=
  fun w =>
    match m w with
    | (Returned a, w') => k a w'
    | (Thrown e, w') => (Thrown e, w')
    | (OutOfFuel, w') => (OutOfFuel, w')
    end.

Definition gets {A : Type} (f : writer -> A) : M A :=
  fun w => (Returned (f w), w).
Definition modify (f : writer -> writer) : M unit :=
  fun w => (Returned tt, f w).

Declare Scope writer_scope.
Delimit Scope writer_scope with writer.
Notation "x <- m ;; k" := (bind m (fun x => k))
  (at level 61, m at next level, right associativity) : writer_scope.
Notation "m ;; k" := (bind m (fun _ => k))
  (at level 61, right associativity) : writer_scope.
Local Open Scope writer_scope.

(** *** Primitives: atomics, events, the reader's turn *)

Definition load (s : slot) : M Z :=
  gets (fun w => Atomics_load (_sharedState w) s).

Definition store (s : slot) (v : Z) : M unit :=
  modify (fun w => set_sharedState (Atomics_store (_sharedState w) s v) w).

Definition notify (s : slot) : M unit :=
  modify (fun w => set_notified (notified w ++ [s]) w).

(** [this.emit(e)], the method of [node:events] that the class inherits;
    every call is logged.  An ['error'] event that has no listener is
    thrown by [emit]: the error itself leaves the call.  The listeners of
    the writer's user are not part of the class: they are taken to return
    and not to call back into the writer.  The one listener the class
    registers itself is run by [emit_drain] below. *)
Definition emit (e : event) : M unit :=
  modify (fun w => set_emitted (emitted w ++ [e]) w) ;;
  match e with
  | ev_error err =>
      heard <- gets error_listener ;;
      if heard then ret tt else throw err
  | _ => ret tt
  end.

(** The reader takes its next turn; the answer is whether it notified.  A
    reader whose script is over does nothing any more. *)
Definition reader_acts : M bool :=
  fun w =>
    match reader w with
    | [] => (Returned false, w)
    | t :: rest =>
        (Returned (t_notify t),
         set_reader rest
           (set_sharedState (reader_step t (_sharedState w)) w))
    end.

(** [Atomics.wait(state, s, expected, timeout)] with a positive timeout:
    it answers at once when the word differs, otherwise it sleeps through
    the reader's turn and wakes on its notification or on the timeout. *)
Definition Atomics_wait (s : slot) (expected timeout : Z) : M wait_status :=
  v <- load s ;;
  if v =? expected then
    woken <- reader_acts ;;
    ret (if woken then ok else timed_out)
  else ret not_equal.

(** [Atomics.waitAsync(state, s, expected[, timeout])]: [{async: false,
    value}] or [{async: true, value: promise}].  The reader may have moved
    since the writer loaded [expected]: it takes a turn first. *)
Inductive async_result : Type :=
| settled (value : wait_status)
| promise.

Definition Atomics_waitAsync (s : slot) (expected : Z) (timeout : option Z)
  : M async_result :=
  reader_acts ;;
  v <- load s ;;
  if v =? expected then
    match timeout with
    | Some 0 => ret (settled timed_out)
    | _ => ret promise
    end
  else ret (settled not_equal).

(** [value.then(k)]. *)
Definition then_ (k : continuation) : M unit :=
  modify (fun w => set_promises (promises w ++ [k]) w).

Definition Buffer_call {A : Type} (f : list Z -> option (A * list Z)) : M A :=
  fun w =>
    match f (_sharedBuffer w) with
    | Some (a, B) => (Returned a, set_sharedBuffer B w)
    | None => (Thrown RangeError, w)
    end.

(** [Buffer.byteLength(toWrite)]. *)
Definition Buffer_byteLength (v : jsval) : M Z :=
  match v with
  | Some s => ret (len (utf8 s))
  | None => throw TypeError
  end.

Definition string_of (v : jsval) : string :=
  match v with Some s => s | None => EmptyString end.

(** [this._extraBuffer.shift()]. *)
Definition shift : M jsval :=
  fun w =>
    match _extraBuffer w with
    | [] => (Returned None, w)
    | item :: rest => (Returned item, set_extraBuffer rest w)
    end.

Section Writable.

Variable cfg : config.

(** [new Writable({ sharedState, sharedBuffer })], facing a reader that
    follows [script].  A new emitter has no listener. *)
Definition new (sharedState : shared) (sharedBuffer : list Z)
    (script : list tick) : writer :=
  mkWriter sharedBuffer sharedState [] (EMPTY_SIGN cfg) 0 0
    false false false false None false false false false false
    (bound_Write false) [] 0%nat false [] [] [] script.

(** [get writable()]. *)
Definition writable (w : writer) : bool :=
  negb (_destroyed w) && negb (_ending w).

(** [_store(data, isNotFin = 0)]. *)
Definition _store (data : string) (isNotFin : Z) : M unit :=
  pos <- gets _write ;;
  written <- Buffer_call (Buffer_write data (pos + PREFIX_SIZE cfg)) ;;
  Buffer_call (Buffer_writeInt32LE written pos) ;;
  Buffer_call (Buffer_writeUInt8 isNotFin (pos + written + EXTRA_SPACE cfg)) ;;
  modify (fun w =>
    set_write (_write w + (PREFIX_SIZE cfg + written + POSTFIX_SIZE cfg + 1)) w) ;;
  modify (fun w =>
    set_frames
      (frames w ++ [mkFrame pos (firstn (Z.to_nat written) (utf8 data)) isNotFin])
      w) ;;
  pos' <- gets _write ;;
  store WRITE_INDEX pos' ;;
  notify WRITE_INDEX.

(** [FakeWrite(data)]. *)
Definition FakeWrite (data : jsval) : M bool :=
  modify (fun w => set_extraBuffer (_extraBuffer w ++ [data]) w) ;;
  ret true.

(** The [do ... while (status === 'timed-out')] loop of the synchronous
    branch of [Write]; [budget] bounds the iterations that are left. *)
Fixpoint spin_read (budget : nat) (spins read : Z) : M unit :=
  match budget with
  | O => out_of_fuel
  | S budget =>
      status <- Atomics_wait READ_INDEX read SPIN_TIMEOUT ;;
      let spins := spins + 1 in
      if spins =? READ_SPINS then throw TOO_LONG_READING
      else
        match status with
        | timed_out => spin_read budget spins read
        | _ => ret tt
        end
  end.

(** The wrap of [Write]: the four statements before its recursive call. *)
Definition wrap : M unit :=
  modify (set_write 0) ;;
  pos <- gets _write ;;
  store WRITE_INDEX pos ;;
  cycle <- gets _cycle ;;
  modify (set_cycle (cycle + 1)) ;;
  store WRITE_CYCLE cycle ;;
  notify WRITE_INDEX.

(** [Write(sync, toWrite)], [this] being the writer. *)
Fixpoint Write (fuel : nat) (sync : bool) (toWrite : jsval) : M bool :=
  match fuel with
  | O => out_of_fuel
  | S fuel =>
      can <- gets writable ;;
      if negb can then ret false else
      read <- load READ_INDEX ;;
      cycle <- load READ_CYCLE ;;
      pos <- gets _write ;;
      own <- gets _cycle ;;
      size <- gets (fun w => len (_sharedBuffer w)) ;;
      let isBehind := (read >? pos) || (cycle <? own) in
      let leftover := (if isBehind then read else size) - pos in
      if leftover <? 0 then throw overwritten else
      if cycle >? own then throw read_further_than_expected else
      let leftover := leftover - (EXTRA_SPACE cfg + 1) in
      if (leftover <=? 0) && isBehind then
        if sync then
          spin_read (Z.to_nat READ_SPINS) 0 read ;;
          Write fuel false toWrite
        else
          waiting <- Atomics_waitAsync READ_INDEX read None ;;
          match waiting with
          | settled _ => Write fuel sync toWrite
          | promise =>
              then_ then_drain ;;
              modify (rebind_write bound_FakeWrite) ;;
              modify (set_needDrain true) ;;
              FakeWrite toWrite
          end
      else if (leftover <=? 0) && negb isBehind then
        wrap ;;
        Write fuel sync toWrite
      else
        size <- Buffer_byteLength toWrite ;;
        if leftover <? size + EXTRA_SPACE cfg then
          _store (slice (string_of toWrite) 0 leftover) 1 ;;
          Write fuel sync (Some (slice_from (string_of toWrite) leftover))
        else
          _store (string_of toWrite) 0 ;;
          ret false
  end.

(** [destroy(err)]; [None] is a call without an error.  When [emit]
    throws the error that nobody listens for, it leaves [destroy] there:
    [_destroyed] and [_closed] are not set and ['close'] is not
    emitted. *)
Definition destroy (err : option error) : M unit :=
  can <- gets writable ;;
  if negb can then ret tt else
  modify (set_watching false) ;;
  readStatus <- load READ_PROCESS ;;
  writeStatus <- load WRITE_PROCESS ;;
  let writeActive :=
    (writeStatus =? READY_SIGN cfg) || (writeStatus =? EMPTY_SIGN cfg) in
  let readActive :=
    (readStatus =? READY_SIGN cfg) || (readStatus =? EMPTY_SIGN cfg) in
  (if writeActive && readActive then
     let sign :=
       match err with Some _ => FAILED_SIGN cfg | None => FINISHED_SIGN cfg end in
     store WRITE_PROCESS sign ;;
     notify WRITE_PROCESS
   else ret tt) ;;
  match err with
  | Some e => modify (set_errored (Some e)) ;; emit (ev_error e)
  | None => ret tt
  end ;;
  modify (set_destroyed true) ;;
  modify (set_closed true) ;;
  emit ev_close.

(** The [while] loop of [end]; [budget] bounds the iterations left. *)
Fixpoint spin_finish (budget : nat) (spins status : Z) : M Z :=
  match budget with
  | O => out_of_fuel
  | S budget =>
      if negb (status =? FAILED_SIGN cfg) || negb (status =? FINISHED_SIGN cfg)
      then
        Atomics_wait READ_PROCESS status SPIN_TIMEOUT ;;
        status <- load READ_PROCESS ;;
        let spins := spins + 1 in
        if spins =? FINISH_SPINS then ret status
        else spin_finish budget spins status
      else ret status
  end.

(** [end()]. *)
Definition end_ : M unit :=
  can <- gets writable ;;
  if negb can then ret tt else
  modify (set_process (FINISHING_SIGN cfg)) ;;
  modify (set_watching false) ;;
  modify (set_ending true) ;;
  status <- load READ_PROCESS ;;
  (if (status =? READY_SIGN cfg) || (status =? EMPTY_SIGN cfg)
      || (status =? FINISHING_SIGN cfg)
   then store WRITE_PROCESS (FINISHING_SIGN cfg) ;; notify WRITE_PROCESS
   else ret tt) ;;
  let origin := status in
  status <- spin_finish (Z.to_nat FINISH_SPINS) 0 status ;;
  if (status =? FAILED_SIGN cfg) || (status =? origin) then
    modify (set_ending false) ;;
    if status =? origin then destroy (Some FAILED_TO_FINISH_TIMEOUT)
    else destroy (Some FAILED_TO_FINISH_READER)
  else
    store WRITE_PROCESS (FINISHED_SIGN cfg) ;;
    notify WRITE_PROCESS ;;
    modify (set_process (FINISHED_SIGN cfg)) ;;
    modify (set_finished true) ;;
    modify (set_ended true) ;;
    emit ev_finish.

(** [this.emit('drain')]: the event, then the one-shot listeners that
    [_watch] armed with [this.once('drain', () => void this.end())], in
    turn.  A listener of [once] is removed just before it runs; when the
    [end] it calls throws, the error leaves [emit] and the listeners
    behind it stay armed. *)
Fixpoint call_end (n : nat) : M unit :=
  match n with
  | O => ret tt
  | S n =>
      modify (fun w => set_drain_once (Nat.pred (drain_once w)) w) ;;
      end_ ;;
      call_end n
  end.

Definition emit_drain : M unit :=
  emit ev_drain ;;
  armed <- gets drain_once ;;
  call_end armed.

(** The [do ... while (this._extraBuffer.length)] loop of [_drain]; it
    answers [false] where the source returns from inside the loop. *)
Fixpoint drain_loop (fuel : nat) : M bool :=
  match fuel with
  | O => out_of_fuel
  | S fuel =>
      item <- shift ;;
      status <- Write fuel false item ;;
      if status then ret false else
      left <- gets (fun w => len (_extraBuffer w)) ;;
      if left =? 0 then ret true else drain_loop fuel
  end.

(** [_drain()]. *)
Definition _drain (fuel : nat) : M bool :=
  emptied <- drain_loop fuel ;;
  if emptied then
    modify (rebind_write (bound_Write false)) ;;
    modify (set_needDrain false) ;;
    emit_drain ;;
    ret true
  else ret false.

(** [_watch()].  On [FINISHING_SIGN] with an empty queue it returns
    [end()]; with a queue it arms the listener and goes on to the test of
    the terminal signs and to the wait. *)
Fixpoint _watch (fuel : nat) : M unit :=
  match fuel with
  | O => out_of_fuel
  | S fuel =>
      watching <- gets _watching ;;
      if negb watching then ret tt else
      status <- load READ_PROCESS ;;
      queued <- gets (fun w => len (_extraBuffer w)) ;;
      if (status =? FINISHING_SIGN cfg) && (queued =? 0) then end_ else
      (if status =? FINISHING_SIGN cfg
       then modify (fun w => set_drain_once (S (drain_once w)) w)
       else ret tt) ;;
      if (status =? FAILED_SIGN cfg) || (status =? FINISHED_SIGN cfg)
      then destroy (Some READER_EXIT_WHILE_WATCH) else
      waiting <- Atomics_waitAsync READ_PROCESS status None ;;
      match waiting with
      | settled _ => _watch fuel
      | promise => then_ then_watch
      end
  end.

(** [synchronize()].  Its [not-equal] branch calls [this._synchronize],
    which the class does not define. *)
Definition synchronize : M unit :=
  modify (set_process (READY_SIGN cfg)) ;;
  sign <- gets _process ;;
  store WRITE_PROCESS sign ;;
  status <- load READ_PROCESS ;;
  if status =? READY_SIGN cfg then
    modify (set_ready true) ;;
    emit ev_ready
  else if negb (status =? EMPTY_SIGN cfg) then
    destroy (Some READER_EXIT_BEFORE_SYNC)
  else
    waiting <-
      Atomics_waitAsync READ_PROCESS (EMPTY_SIGN cfg) (Some START_TIMEOUT) ;;
    match waiting with
    | settled not_equal => throw TypeError
    | settled _ => destroy (Some READER_FAILED_TIMEOUT)
    | promise => then_ then_synchronize
    end.

(** The callback [v => { ... }] that [synchronize] hangs on its promise. *)
Definition synchronized (fuel : nat) (v : wait_status) : M unit :=
  match v with
  | ok =>
      status <- load READ_PROCESS ;;
      if negb (status =? READY_SIGN cfg) then
        destroy (Some READER_EXIT_AT_SYNC)
      else
        modify (set_watching true) ;;
        modify (set_ready true) ;;
        emit ev_ready ;;
        _watch fuel
  | _ => destroy (Some READER_FAILED_TIMEOUT)
  end.

(** *** The writer's tasks

    What can happen to a writer: a call of one of its public methods, a
    promise of [Atomics.waitAsync] that settles and runs its callback,
    the reader storing into its slots between two tasks, or the user
    registering a listener for ['error'] with the inherited [on]. *)

(** [this.write(data)]: whatever [write] is bound to at the moment. *)
Definition invoke_write (fuel : nat) (data : jsval) : M bool :=
  bound <- gets write ;;
  match bound with
  | bound_Write sync => Write fuel sync data
  | bound_FakeWrite => FakeWrite data
  end.

(** [this.writeSync(data)], bound once and for all by the constructor. *)
Definition writeSync (fuel : nat) (data : jsval) : M bool :=
  Write fuel true data.

Definition continuation_eqb (a b : continuation) : bool :=
  match a, b with
  | then_drain, then_drain | then_watch, then_watch
  | then_synchronize, then_synchronize => true
  | _, _ => false
  end.

Fixpoint remove_first (k : continuation) (l : list continuation)
  : option (list continuation) :=
  match l with
  | [] => None
  | k' :: l' =>
      if continuation_eqb k k' then Some l'
      else option_map (cons k') (remove_first k l')
  end.

Definition run_callback (fuel : nat) (k : continuation) (v : wait_status)
  : M unit :=
  match k with
  | then_drain => _drain fuel ;; ret tt
  | then_watch => _watch fuel
  | then_synchronize => synchronized fuel v
  end.

Inductive action : Type :=
| do_write (data : jsval)
| do_writeSync (data : jsval)
| do_end
| do_destroy (err : option error)
| do_synchronize
| settle (k : continuation) (v : wait_status)
| reader_moves (t : tick)
| do_on_error.

(** One task; a call of [write] or [writeSync] answers [Some] of its
    boolean, any other task [None]. *)
Definition step (fuel : nat) (a : action) : M (option bool) :=
  match a with
  | do_write data => b <- invoke_write fuel data ;; ret (Some b)
  | do_writeSync data => b <- writeSync fuel data ;; ret (Some b)
  | do_end => end_ ;; ret None
  | do_destroy err => destroy err ;; ret None
  | do_synchronize => synchronize ;; ret None
  | settle k v =>
      pending <- gets promises ;;
      match remove_first k pending with
      | Some rest =>
          modify (set_promises rest) ;;
          run_callback fuel k v ;;
          ret None
      | None => ret None
      end
  | reader_moves t =>
      modify (fun w => set_sharedState (reader_step t (_sharedState w)) w) ;;
      ret None
  | do_on_error => modify (set_error_listener true) ;; ret None
  end.

End Writable.

(** * Vocabulary of the properties *)

(** ** Reading a writer *)

Definition word (s : slot) (w : writer) : Z := Atomics_load (_sharedState w) s.

Definition ring_size (w : writer) : Z := len (_sharedBuffer w).

(** [B[a..b]], the bytes from offset [a] up to [b], [b] excluded. *)
Definition bytes (a b : nat) (w : writer) : list Z :=
  firstn (b - a) (skipn a (_sharedBuffer w)).

Definition is_drain (e : event) : bool :=
  match e with ev_drain => true | _ => false end.

(** How many ['drain'] events the writer has emitted so far. *)
Definition drains (w : writer) : nat :=
  List.length (filter is_drain (emitted w)).

(** ** Configurations and rings of the scenarios

    The signs are five distinct numbers; the prefix holds the 32-bit length
    and the postfix is empty. *)
Definition signs (prefix postfix : Z) : config :=
  Config prefix postfix 1 0 4 3 2.

Definition plain : config := signs 4 0.

Definition zeroes (n : nat) : list Z := repeat 0 n.

Definition idle : tick := mkTick None None None false.

(** The reader has consumed everything up to [index] and says so. *)
Definition reads_to (index : Z) : tick := mkTick (Some index) None None true.

(** The reader publishes a lifecycle sign and says so. *)
Definition signals (sign : Z) : tick := mkTick None None (Some sign) true.

(** ** The fault checks of [Write], in the words of the specification *)

Definition behind (w : writer) : bool :=
  (word READ_INDEX w >? _write w) || (word READ_CYCLE w <? _cycle w).

Definition overwritten_fault (w : writer) : bool :=
  (if behind w then word READ_INDEX w else ring_size w) <? _write w.

Definition reader_ahead_fault (w : writer) : bool :=
  word READ_CYCLE w >? _cycle w.

(** An error that is fatal the way the lifecycle controller makes them:
    the writer ends destroyed, having emitted ['error'] and then ['close']. *)
Definition fatal (e : error) (before after : writer) : Prop :=
  _destroyed after = true /\
  emitted after = emitted before ++ [ev_error e; ev_close].

(** ** Runs of tasks *)


(** The writer after a list of tasks, whatever they answered. *)
Fixpoint after (cfg : config) (fuel : nat) (tasks : list action)
    (w : writer) : writer :=
  match tasks with
  | [] => w
  | a :: rest => after cfg fuel rest (snd (step cfg fuel a w))
  end.

(** ** Scenarios *)

(** A new writer on a ring of [n] zero bytes, every state word zero. *)
Definition fresh (n : nat) (script : list tick) : writer :=
  new plain (mkShared 0 0 0 0 0 0) (zeroes n) script.

(** A writer that has synchronized with a reader that was ready. *)
Definition attached (script : list tick) : writer :=
  snd (synchronize plain
         (new plain (mkShared 0 0 0 0 (READY_SIGN plain) 0) (zeroes 16) script)).

(** The reader's cycle word is ahead of the writer's cycle. *)
Definition overtaken : writer :=
  new plain (mkShared 0 0 1 0 (READY_SIGN plain) (READY_SIGN plain))
    (zeroes 64) [].

(** The reader finishes during the first wait and then stays as it is. *)
Definition finishes_at_once : list tick :=
  signals (FINISHED_SIGN plain) :: repeat idle 12.

(** A ring of 16 bytes filled up to offset 12 in the writer's second lap
    while the reader stands at the end of the first: ["a"] meets
    backpressure and ["b"] is buffered behind it. *)
Definition two_buffered : list action :=
  [do_writeSync (Some "0123456789"%string); do_write (Some "xy"%string);
   do_write (Some "a"%string); do_write (Some "b"%string)].

(** The reader wraps, which wakes the drain before there is room; then it
    reads the whole ring, which wakes the drain again. *)
Definition two_wakes : list action :=
  [reader_moves (mkTick (Some 0) (Some 1) None true); settle then_drain ok;
   reader_moves (reads_to 16); settle then_drain ok].

Definition payloads (fs : list frame) : list (list Z) := map f_payload fs.

(** A stalled ring of 16 bytes: the write of sixteen bytes that meets
    backpressure after its first frame. *)
Definition stalled : writer :=
  snd (invoke_write plain 4 (Some "hello world 1234"%string) (fresh 16 [])).

(** After [stalled]: one more write is buffered, the reader reads the lap
    and wakes the drain, wraps and wakes it, reads the next lap and wakes
    it a third time; then a last write. *)
Definition until_drained : list action :=
  [do_write (Some "x"%string);
   reader_moves (reads_to 16); settle then_drain ok;
   reader_moves (mkTick (Some 0) (Some 1) None true); settle then_drain ok;
   reader_moves (reads_to 16); settle then_drain ok].

(** Thirty digits, and a run in a ring of 32 bytes with a reader that
    consumes: ["ab"] is stored, the thirty digits are split and meet
    backpressure after their first frame, ["q"] is buffered behind the
    rest; the reader reads the first frame and wakes the drain, then
    reads the lap and wakes it again. *)
Definition thirty : string := "012345678901234567890123456789".

Definition split_then_late : list action :=
  [do_write (Some "ab"%string); do_write (Some thirty);
   do_write (Some "q"%string);
   reader_moves (reads_to 7); settle then_drain ok;
   reader_moves (reads_to 32); settle then_drain ok].

(** Some prefix of [l] sums to [target]; some run of consecutive elements
    of [l] does. *)
Fixpoint prefix_sums_to (target : nat) (l : list nat) : bool :=
  (target =? 0)%nat ||
  match l with
  | [] => false
  | x :: l' => (x <=? target)%nat && prefix_sums_to (target - x) l'
  end.

Fixpoint run_sums_to (target : nat) (l : list nat) : bool :=
  prefix_sums_to target l ||
  match l with
  | [] => false
  | _ :: l' => run_sums_to target l'
  end.

(** [n] times the letter e with an acute accent, code unit 233: two bytes
    each in UTF-8. *)
Fixpoint accented (n : nat) : string :=
  match n with
  | O => EmptyString
  | S n => String (ascii_of_nat 233) (accented n)
  end.

(** ** Frame conditions

    [preserves R m]: whatever [m] answers, thrown or out of fuel included,
    the writer it leaves is related by [R] to the writer it found. *)
Definition preserves {A : Type} (R : writer -> writer -> Prop) (m : M A)
  : Prop :=
  forall w r w', m w = (r, w') -> R w w'.

(** Nothing about ['drain'] happened: no such event, the same binding. *)
Definition keeps_binding (w w' : writer) : Prop :=
  drains w' = drains w /\ write w' = write w.

(** No ['drain'] event, and [write] is what it was or the buffering stub. *)
Definition may_rebind_stub (w w' : writer) : Prop :=
  drains w' = drains w /\ (write w' = write w \/ write w' = bound_FakeWrite).

(** Either nothing about ['drain'] happened or the stub stays, or exactly
    one ['drain'] event was emitted and [write] is the engine again. *)
Definition drained_at_most_once (w w' : writer) : Prop :=
  may_rebind_stub w w' \/
  (drains w' = S (drains w) /\ write w' = bound_Write false).

Definition is_write_call (a : action) : bool :=
  match a with do_write _ => true | _ => false end.

(** The backpressure law along a list of tasks that starts at [w]: each
    call of [write] answers [true], for as long as no ['drain'] event is
    emitted; the task that emits one emits exactly one, and after it
    [write] is the engine again. *)
Fixpoint held_until_drain (cfg : config) (fuel : nat) (tasks : list action)
    (w : writer) : Prop :=
  match tasks with
  | [] => True
  | a :: rest =>
      (is_write_call a = true ->
       fst (step cfg fuel a w) = Returned (Some true)) /\
      ((drains (snd (step cfg fuel a w)) = drains w /\
        held_until_drain cfg fuel rest (snd (step cfg fuel a w))) \/
       (drains (snd (step cfg fuel a w)) = S (drains w) /\
        write (snd (step cfg fuel a w)) = bound_Write false))
  end.

(** [ensures P m]: when [m] returns, its answer and the writer it leaves
    satisfy [P]. *)
Definition ensures {A : Type} (P : A -> writer -> Prop) (m : M A) : Prop :=
  forall w a w', m w = (Returned a, w') -> P a w'.

(** ** The split law *)

Fixpoint ascii_only (s : string) : bool :=
  match s with
  | EmptyString => true
  | String c s' => (code c <? 128) && ascii_only s'
  end.

Definition tick_in_range (size : Z) (t : tick) : bool :=
  match t_index t with
  | Some v => to_int32 v <=? size
  | None => true
  end.

(** The reader keeps its index inside the ring, now and in every turn of
    its script. *)
Definition reader_in_range (w : writer) : Prop :=
  word READ_INDEX w <= ring_size w /\
  Forall (fun t => tick_in_range (ring_size w) t = true) (reader w).

Definition not_final (f : frame) : Prop := f_not_final f = 1.

(** One or more frames marked not final, then exactly one final frame, and
    the payloads together are [p]. *)
Definition split_frames (fs : list frame) (p : list Z) : Prop :=
  exists heads last,
    fs = heads ++ [last] /\
    heads <> [] /\
    Forall not_final heads /\
    f_not_final last = 0 /\
    List.concat (payloads fs) = p.

(** What a run of [Write] may change besides the ring and its cursor:
    nothing of the frame log, the queue, the [writable] flag or the size of
    the ring, and the cursor and the reader stay in range. *)
Definition same_ring (w w' : writer) : Prop :=
  frames w' = frames w /\
  _extraBuffer w' = _extraBuffer w /\
  writable w' = writable w /\
  ring_size w' = ring_size w /\
  (0 <= _write w -> 0 <= _write w') /\
  (reader_in_range w -> reader_in_range w').

(** A writer in working order: writable, its cursor not negative, the
    reader inside the ring. *)
Definition steady (w : writer) : Prop :=
  writable w = true /\ 0 <= _write w /\ reader_in_range w.

(** What one call of the engine with the ASCII payload [q] leaves in the
    frame log.  Answer [false]: frames marked not final, then one final
    frame, together carrying [q]; and when no frame is marked not final,
    [q] and two extra spaces fit the ring.  Answer [true] (backpressure):
    only frames marked not final, carrying a prefix of [q], and the rest of
    [q] appended to the overflow queue. *)
Definition Write_outcome (cfg : config) (q : string) (w : writer)
    (r : result bool) (w' : writer) : Prop :=
  match r with
  | Returned false =>
      exists heads last,
        frames w' = frames w ++ heads ++ [last] /\
        Forall not_final heads /\
        f_not_final last = 0 /\
        List.concat (payloads (heads ++ [last])) = utf8 q /\
        (heads = [] ->
         len (utf8 q) + EXTRA_SPACE cfg <= ring_size w - EXTRA_SPACE cfg - 1)
  | Returned true =>
      exists heads rest,
        frames w' = frames w ++ heads /\
        Forall not_final heads /\
        _extraBuffer w' = _extraBuffer w ++ [Some rest] /\
        List.concat (payloads heads) ++ utf8 rest = utf8 q
  | _ => True
  end.

(** ** Termination of [Write]

    [leftover] is the room [Write] computes; [phase] counts the calls that
    can follow one another without the reader taking a turn or the payload
    getting shorter: a split of the empty string, a wrap. *)
Definition leftover (cfg : config) (w : writer) : Z :=
  (if behind w then word READ_INDEX w else ring_size w) - _write w
  - (EXTRA_SPACE cfg + 1).

Definition phase (cfg : config) (w : writer) : nat :=
  ((if behind w then 0 else 2)
   + (if (0 <? leftover cfg w)%Z then 1 else 0))%nat.

(** Fuel that is enough for [Write] on the payload [q]. *)
Definition Write_fuel (cfg : config) (q : string) (w : writer) : nat :=
  (4 * (List.length (reader w) + String.length q) + phase cfg w)%nat.

(** [m] answers without running out of fuel. *)
Definition total {A : Type} (m : M A) : Prop :=
  forall w, fst (m w) <> OutOfFuel.

(** * The rest of the class, and the vocabulary of its properties *)

(** ** The read-only attributes *)

(** [get writableEnded()]. *)
Definition writableEnded (w : writer) : bool := _ending w.

(** [get writableFinished()]. *)
Definition writableFinished (w : writer) : bool := _finished w.

(** [get writableErrored()]: [!!this._errored]. *)
Definition writableErrored (w : writer) : bool :=
  match _errored w with Some _ => true | None => false end.

(** [get ready()]. *)
Definition ready (w : writer) : bool := _ready w.

(** [get closed()]. *)
Definition closed (w : writer) : bool := _closed w.

(** [get writableNeedDrain()]. *)
Definition writableNeedDrain (w : writer) : bool := _needDrain w.

(** [get writableObjectMode()]. *)
Definition writableObjectMode (w : writer) : bool := false.

(** ** What a method leaves alone *)

(** The events [destroy(err)] emits when it runs to its end. *)
Definition destroy_events (err : option error) : list event :=
  match err with
  | Some e => [ev_error e; ev_close]
  | None => [ev_close]
  end.

(** [emit('error', err)] would return: there is no error to emit, or a
    listener for ['error'] is registered. *)
Definition heard (err : option error) (w : writer) : bool :=
  match err with
  | Some _ => error_listener w
  | None => true
  end.

(** How [destroy(err)] leaves a writable writer: it returns, or the
    error that nobody listens for leaves the call. *)
Definition destroy_answer (err : option error) (w : writer) : result unit :=
  match err with
  | Some e => if error_listener w then Returned tt else Thrown e
  | None => Returned tt
  end.

(** The events [destroy(err)] emits on a writable writer: ['close'] is
    not reached when the error is thrown. *)
Definition destroy_log (err : option error) (w : writer) : list event :=
  match err with
  | Some e => ev_error e :: (if error_listener w then [ev_close] else [])
  | None => [ev_close]
  end.

(** How a call of [destroy] with the error [e] on the writable writer
    [w] comes out.  The error is recorded.  With a listener for
    ['error'] the call returns and the error was fatal; with none the
    error leaves the call after ['error'] alone was emitted, and the
    writer is not destroyed and still writable. *)
Definition destroy_outcome (e : error) (r : result unit) (w w' : writer)
    : Prop :=
  _errored w' = Some e /\
  if error_listener w
  then r = Returned tt /\ fatal e w w' /\ writable w' = false
  else r = Thrown e /\ _destroyed w' = false /\ writable w' = true /\
       emitted w' = emitted w ++ [ev_error e].

(** Only the reader has moved: the writer's own fields and its three
    words of the state region are what they were. *)
Definition reader_only (w w' : writer) : Prop :=
  w' = set_reader (reader w') (set_sharedState (_sharedState w') w) /\
  word WRITE_INDEX w' = word WRITE_INDEX w /\
  word WRITE_CYCLE w' = word WRITE_CYCLE w /\
  word WRITE_PROCESS w' = word WRITE_PROCESS w.

(** The ring and everything that describes it are untouched: the bytes,
    the cursor, the cycle, the two words the writer publishes about them,
    the frame log, the overflow queue and the binding of [write]. *)
Definition ring_untouched (w w' : writer) : Prop :=
  _sharedBuffer w' = _sharedBuffer w /\
  _write w' = _write w /\
  _cycle w' = _cycle w /\
  word WRITE_INDEX w' = word WRITE_INDEX w /\
  word WRITE_CYCLE w' = word WRITE_CYCLE w /\
  frames w' = frames w /\
  _extraBuffer w' = _extraBuffer w /\
  write w' = write w.

(** The lifecycle is untouched: no event, no flag of the lifecycle
    controller, no sign. *)
Definition lifecycle_untouched (w w' : writer) : Prop :=
  emitted w' = emitted w /\
  _destroyed w' = _destroyed w /\
  _ending w' = _ending w /\
  _ended w' = _ended w /\
  _closed w' = _closed w /\
  _finished w' = _finished w /\
  _errored w' = _errored w /\
  _ready w' = _ready w /\
  _watching w' = _watching w /\
  _process w' = _process w /\
  word WRITE_PROCESS w' = word WRITE_PROCESS w.

(** The reader does not store into [READ_PROCESS] in this turn. *)
Definition silent (t : tick) : Prop := t_process t = None.

(** ** The cursor *)

(** The cursor lies inside the ring and [WRITE_INDEX] holds it. *)
Definition cursor_in_ring (w : writer) : Prop :=
  0 <= _write w <= ring_size w /\
  word WRITE_INDEX w = to_int32 (_write w).

(** ** The overflow queue *)

Definition ascii_item (item : jsval) : Prop :=
  exists s, item = Some s /\ ascii_only s = true.

(** The bytes of the queued payloads, in the order of the queue. *)
Fixpoint queued_bytes (queue : list jsval) : list Z :=
  match queue with
  | [] => []
  | item :: rest => utf8 (string_of item) ++ queued_bytes rest
  end.

(** The writer after a non-writable drain: the queue dropped, [write]
    bound to the engine, ['drain'] emitted and the armed listeners gone. *)
Definition drained_dry (w : writer) : writer :=
  set_drain_once 0%nat
    (set_emitted (emitted w ++ [ev_drain])
       (set_needDrain false
          (rebind_write (bound_Write false) (set_extraBuffer [] w)))).

(** A ring of [n] bytes that are all 255, in the state of [fresh]. *)
Definition fresh_ones (n : nat) : writer :=
  new plain (mkShared 0 0 0 0 0 0) (repeat 255 n) [].

(** Twelve bytes stored at the start of a ring of sixteen: the payload
    and its length fit, the mark does not. *)
Definition overfull : writer :=
  snd (_store plain "0123456789ab"%string 0 (fresh_ones 16)).


(** ** The callbacks in flight *)

(** No promise callback is added or removed. *)
Definition pending_untouched (w w' : writer) : Prop :=
  promises w' = promises w.

(** What has happened stays: the event log is only extended and the
    [ready] attribute is kept. *)
Definition past_kept (w w' : writer) : Prop :=
  _ready w' = _ready w /\
  exists more, emitted w' = emitted w ++ more.

(** ** Reading the ring *)

(** The bytes of [B] from offset [a] up to [b], [b] excluded. *)
Definition range (a b : Z) (B : list Z) : list Z :=
  firstn (Z.to_nat (b - a)) (skipn (Z.to_nat a) B).

(** [w'] is [w] in every field but those [_store] assigns: the bytes of
    the ring, the cursor, the state region, the frame log and the log of
    notifications. *)
Definition store_only (w w' : writer) : Prop :=
  set_notified (notified w)
    (set_frames (frames w)
       (set_sharedState (_sharedState w)
          (set_write (_write w)
             (set_sharedBuffer (_sharedBuffer w) w')))) = w.

(** ** Invariants of the engine *)

(** The ring keeps its size, and the cursor stays in the ring with
    [WRITE_INDEX] in step if it was. *)
Definition cursor_kept (w w' : writer) : Prop :=
  ring_size w' = ring_size w /\
  (cursor_in_ring w -> cursor_in_ring w').

(** The ring keeps its size, and a writer in working order stays so. *)
Definition steady_kept (w w' : writer) : Prop :=
  ring_size w' = ring_size w /\
  (steady w -> steady w').

(** The overflow queue is what it was. *)
Definition queue_untouched (w w' : writer) : Prop :=
  _extraBuffer w' = _extraBuffer w.

(** ** The end of the lifecycle *)

Definition is_close (e : event) : bool :=
  match e with ev_close => true | _ => false end.

Definition is_finish (e : event) : bool :=
  match e with ev_finish => true | _ => false end.

Definition is_error (e : event) : bool :=
  match e with ev_error _ => true | _ => false end.

(** How many ['close'], ['finish'] and ['error'] events the writer has
    emitted so far. *)
Definition closes (w : writer) : nat :=
  List.length (filter is_close (emitted w)).

Definition finishes (w : writer) : nat :=
  List.length (filter is_finish (emitted w)).

Definition errors (w : writer) : nat :=
  List.length (filter is_error (emitted w)).

(** ['finish'] and ['close'] come once: neither of them while the
    writer is writable, and at most one of the two ever. *)
Definition events_once (w : writer) : Prop :=
  (writable w = true -> closes w = 0%nat /\ finishes w = 0%nat) /\
  (closes w + finishes w <= 1)%nat.

(** Every ['error'] was heard: a listener for ['error'] is registered,
    no ['error'] was emitted while the writer is writable, and ['error']
    was emitted only together with ['close']. *)
Definition errors_heard (w : writer) : Prop :=
  error_listener w = true /\
  (errors w <= closes w)%nat /\
  (writable w = true -> errors w = 0%nat).

Definition once_kept (w w' : writer) : Prop :=
  events_once w ->
  events_once w' /\ (errors_heard w -> errors_heard w').

(** Nothing of the ring has changed, the flags of the end of the
    lifecycle are what they were, and no event that ends the lifecycle
    was emitted. *)
Definition frozen (w w' : writer) : Prop :=
  _destroyed w' = _destroyed w /\
  _ending w' = _ending w /\
  _ended w' = _ended w /\
  _closed w' = _closed w /\
  _finished w' = _finished w /\
  _errored w' = _errored w /\
  frames w' = frames w /\
  _sharedBuffer w' = _sharedBuffer w /\
  _write w' = _write w /\
  _cycle w' = _cycle w /\
  word WRITE_INDEX w' = word WRITE_INDEX w /\
  word WRITE_CYCLE w' = word WRITE_CYCLE w /\
  closes w' = closes w /\
  finishes w' = finishes w /\
  errors w' = errors w.

(** From a writer that is not writable on, the ring is frozen. *)
Definition final (w w' : writer) : Prop :=
  writable w = false -> frozen w w'.

(** ** The backlog *)

(** The callbacks in flight, the overflow queue, the binding of [write]
    and the [_needDrain] flag are what they were. *)
Definition backlog_untouched (w w' : writer) : Prop :=
  promises w' = promises w /\
  _extraBuffer w' = _extraBuffer w /\
  write w' = write w /\
  _needDrain w' = _needDrain w.

(** What the answer of [Write] says about the backlog.  [true]: one
    callback of the drain registered, the stub bound, [_needDrain] set,
    one payload more in the queue.  [false]: nothing of the backlog has
    changed. *)
Definition answers (b : bool) (w w' : writer) : Prop :=
  if b then
    promises w' = promises w ++ [then_drain] /\
    write w' = bound_FakeWrite /\
    writableNeedDrain w' = true /\
    exists rest, _extraBuffer w' = _extraBuffer w ++ [rest]
  else backlog_untouched w w'.

(** The reader neither moves its index nor notifies in this turn. *)
Definition quiet (t : tick) : Prop :=
  t_index t = None /\ t_notify t = false.

(** ** The writer and the reader in step *)

(** A writer in working order whose cursor has not passed the room the
    reader has left, beside a reader that is not ahead of it. *)
Definition in_step (w : writer) : Prop :=
  steady w /\
  0 <= word READ_INDEX w /\
  overwritten_fault w = false /\
  reader_ahead_fault w = false.

(** ** The reader's words *)

(** A task of the writer itself, not a move of the reader. *)
Definition writer_task (a : action) : bool :=
  match a with reader_moves _ => false | _ => true end.

(** While the reader rests, its three words are what they were. *)
Definition reader_words_kept (w w' : writer) : Prop :=
  reader w = [] ->
  reader w' = [] /\
  word READ_INDEX w' = word READ_INDEX w /\
  word READ_CYCLE w' = word READ_CYCLE w /\
  word READ_PROCESS w' = word READ_PROCESS w.

(** * Properties of the write engine and the lifecycle controller *)

(** ** Scenario S1 *)

(** C1.  On a ring of 64 bytes with an empty postfix, an empty ring (read
    index and cycle 0, write cursor 0, same cycle) and whatever the reader
    does, [writeSync("AB")] returns [false]; afterwards the first four bytes
    hold 2 in little-endian order, bytes 4 and 5 hold "AB", byte 6 holds the
    not-final mark 0, the rest of the ring is as it was, [WRITE_INDEX] is 7
    and [WRITE_CYCLE] is still 0. *)
Theorem S1_writeSync_AB :
  forall (B : list Z) (reader_sign writer_sign : Z) (script : list tick)
         (fuel : nat),
    List.length B = 64%nat ->
    let w := new plain (mkShared 0 0 0 0 reader_sign writer_sign) B script in
    exists w',
      writeSync plain (S fuel) (Some "AB"%string) w = (Returned false, w') /\
      bytes 0 4 w' = [2; 0; 0; 0] /\
      bytes 4 6 w' = [65; 66] /\
      bytes 6 7 w' = [0] /\
      bytes 7 64 w' = skipn 7 B /\
      word WRITE_INDEX w' = 7 /\
      word WRITE_CYCLE w' = 0.
Proof.
  intros B rs ws script fuel HB w.
  do 64 (destruct B as [|? B]; [discriminate|]).
  destruct B; [|discriminate].
  exists (snd (writeSync plain (S fuel) (Some "AB"%string) w)).
  split; [vm_compute; reflexivity|].
  vm_compute; repeat split.
Qed.

Lemma S1_writeSync_AB_witness :
  exists w',
    writeSync plain 1 (Some "AB"%string)
      (new plain (mkShared 0 0 0 0 0 0) (repeat 255 64) []) = (Returned false, w') /\
    bytes 0 4 w' = [2; 0; 0; 0] /\
    bytes 4 6 w' = [65; 66] /\
    bytes 6 7 w' = [0] /\
    bytes 7 64 w' = skipn 7 (repeat 255 64) /\
    word WRITE_INDEX w' = 7 /\
    word WRITE_CYCLE w' = 0.
Proof.
  exact (S1_writeSync_AB (repeat 255 64) 0 0 [] 0 eq_refl).
Defined.

(** ** The wrap *)

(** C3.  What the wrap of [Write] does: when the ring has no room left and
    the reader is not behind, one step of [Write] is the wrap followed by
    the recursive call.  The wrap puts the cursor and [WRITE_INDEX] to 0 and
    adds exactly 1 to the writer's cycle, but the word it stores into
    [WRITE_CYCLE] is the cycle before the increment, one less than the
    current cycle. *)
Theorem Write_wrap_publishes_previous_cycle :
  forall (cfg : config) (fuel : nat) (sync : bool) (toWrite : jsval)
         (w : writer),
    writable w = true ->
    behind w = false ->
    word READ_CYCLE w = _cycle w ->
    0 <= ring_size w - _write w <= EXTRA_SPACE cfg + 1 ->
    exists w1,
      wrap w = (Returned tt, w1) /\
      Write cfg (S fuel) sync toWrite w = Write cfg fuel sync toWrite w1 /\
      _write w1 = 0 /\
      word WRITE_INDEX w1 = 0 /\
      _cycle w1 = _cycle w + 1 /\
      word WRITE_CYCLE w1 = to_int32 (_cycle w1 - 1).
Proof.
  intros cfg fuel sync toWrite w Hw Hb Hc [Hlo Hhi].
  exists (snd (wrap w)); split; [reflexivity|].
  split.
  - unfold behind, word, ring_size in *.
    cbn [Write]. unfold bind at 1, gets at 1. rewrite Hw. cbn [negb].
    unfold bind, load, gets. rewrite Hb, Hc.
    replace (_ <? 0) with false by (symmetry; apply Z.ltb_ge; lia).
    replace (_cycle w >? _cycle w) with false
      by (symmetry; rewrite Z.gtb_ltb; apply Z.ltb_ge; lia).
    replace (_ <=? 0) with true by (symmetry; apply Z.leb_le; lia).
    reflexivity.
  - cbn. repeat split.
    replace (_cycle w + 1 - 1) with (_cycle w) by lia. reflexivity.
Qed.

Lemma Write_wrap_publishes_previous_cycle_witness :
  exists w1,
    wrap (set_write 16 (fresh 16 [])) = (Returned tt, w1) /\
    Write plain 3 true (Some "AB"%string) (set_write 16 (fresh 16 [])) =
      Write plain 2 true (Some "AB"%string) w1 /\
    _write w1 = 0 /\
    word WRITE_INDEX w1 = 0 /\
    _cycle w1 = _cycle (set_write 16 (fresh 16 [])) + 1 /\
    word WRITE_CYCLE w1 = to_int32 (_cycle w1 - 1).
Proof.
  apply (Write_wrap_publishes_previous_cycle plain 2 true (Some "AB"%string)
           (set_write 16 (fresh 16 [])));
    [reflexivity | reflexivity | reflexivity | vm_compute; split; discriminate].
Defined.

(** A run with one wrap: sixteen bytes into a fresh ring of sixteen, the
    reader following.  The writer is in its cycle 1 afterwards and
    [WRITE_CYCLE] still holds 0. *)
Example first_wrap_leaves_WRITE_CYCLE :
  fst (writeSync plain 8 (Some "hello world 1234"%string)
         (fresh 16 [reads_to 16])) = Returned false /\
  _cycle (snd (writeSync plain 8 (Some "hello world 1234"%string)
                 (fresh 16 [reads_to 16]))) = 1 /\
  word WRITE_CYCLE (snd (writeSync plain 8 (Some "hello world 1234"%string)
                           (fresh 16 [reads_to 16]))) = 0.
Proof. vm_compute. repeat split. Qed.

(** ** Faults found by [Write] *)

(** The two checks sit behind the [writable] test and in front of every
    other effect of [Write]: a call that finds a fault throws and leaves the
    writer untouched. *)
Lemma Write_fault (cfg : config) (fuel : nat) (sync : bool) (toWrite : jsval)
    (w : writer) :
  writable w = true ->
  overwritten_fault w || reader_ahead_fault w = true ->
  Write cfg (S fuel) sync toWrite w =
    (Thrown (if overwritten_fault w then overwritten
             else read_further_than_expected), w).
Proof.
  intros Hw Hf.
  unfold overwritten_fault, reader_ahead_fault, behind, word, ring_size in *.
  cbn [Write]. unfold bind at 1, gets at 1. rewrite Hw. cbn [negb].
  unfold bind, load, gets.
  replace ((if (Atomics_load (_sharedState w) READ_INDEX >? _write w)
                || (Atomics_load (_sharedState w) READ_CYCLE <? _cycle w)
            then Atomics_load (_sharedState w) READ_INDEX
            else len (_sharedBuffer w)) - _write w <? 0)
    with ((if (Atomics_load (_sharedState w) READ_INDEX >? _write w)
              || (Atomics_load (_sharedState w) READ_CYCLE <? _cycle w)
           then Atomics_load (_sharedState w) READ_INDEX
           else len (_sharedBuffer w)) <? _write w).
  - destruct (_ <? _write w); [reflexivity|].
    cbn [orb] in Hf. rewrite Hf. reflexivity.
  - destruct (Z.ltb_spec
                (if (Atomics_load (_sharedState w) READ_INDEX >? _write w)
                    || (Atomics_load (_sharedState w) READ_CYCLE <? _cycle w)
                 then Atomics_load (_sharedState w) READ_INDEX
                 else len (_sharedBuffer w)) (_write w));
      symmetry; [apply Z.ltb_lt | apply Z.ltb_ge]; lia.
Qed.

(** C6, as the code has it.  On a writable writer, a call of the write
    engine that finds [(behind ? READ_INDEX : |B|) < write_cursor] throws
    ['overwritten'], and one that finds [READ_CYCLE > cycle] (and not the
    former) throws ['Read further than expected'].  The exception goes to
    the caller; the writer is left exactly as it was, so it is not
    destroyed and has emitted nothing. *)
Theorem Write_fault_throws_to_caller :
  forall (cfg : config) (fuel : nat) (sync : bool) (toWrite : jsval)
         (w : writer),
    writable w = true ->
    overwritten_fault w || reader_ahead_fault w = true ->
    exists e,
      e = (if overwritten_fault w then overwritten
           else read_further_than_expected) /\
      Write cfg (S fuel) sync toWrite w = (Thrown e, w) /\
      _destroyed w = false.
Proof.
  intros cfg fuel sync toWrite w Hw Hf.
  eexists; split; [reflexivity|]. split.
  - now apply Write_fault.
  - unfold writable in Hw. now destruct (_destroyed w).
Qed.

Lemma Write_fault_throws_to_caller_witness :
  exists e,
    e = (if overwritten_fault overtaken then overwritten
         else read_further_than_expected) /\
    Write plain 1 false (Some "AB"%string) overtaken = (Thrown e, overtaken) /\
    _destroyed overtaken = false.
Proof.
  apply (Write_fault_throws_to_caller plain 0 false (Some "AB"%string)
           overtaken); reflexivity.
Defined.

(** C6 as stated fails: with [READ_CYCLE = 1] above the writer's cycle 0 the
    fault condition holds on a writable writer, and [write] throws without
    destroying the writer or emitting anything. *)
Lemma corrupted_write_is_not_fatal :
  writable overtaken = true /\
  overwritten_fault overtaken || reader_ahead_fault overtaken = true /\
  invoke_write plain 8 (Some "AB"%string) overtaken =
    (Thrown read_further_than_expected, overtaken) /\
  ~ fatal read_further_than_expected overtaken
      (snd (invoke_write plain 8 (Some "AB"%string) overtaken)).
Proof.
  repeat split; try reflexivity.
  intros [Hd _]. vm_compute in Hd. discriminate.
Qed.

(** ** Orderly end *)

(** The guard of the loop of [end] holds for every status as soon as the two
    terminal signs differ. *)
Lemma finish_guard_always_holds (cfg : config) (status : Z) :
  FAILED_SIGN cfg <> FINISHED_SIGN cfg ->
  negb (status =? FAILED_SIGN cfg) || negb (status =? FINISHED_SIGN cfg) = true.
Proof.
  intros Hne.
  destruct (Z.eqb_spec status (FAILED_SIGN cfg)) as [->|]; [|reflexivity].
  destruct (Z.eqb_spec (FAILED_SIGN cfg) (FINISHED_SIGN cfg)); [tauto|reflexivity].
Qed.

(** C7 on the code: the reader answers [FINISHED] during the first wait of
    [end] and stays there.  The writer ends with ['finish'] and
    [WRITE_PROCESS = FINISHED], but only after it has slept through ten of
    the reader's turns: of the thirteen turns of the script three are left.
    The loop does not exit when it observes [FINISHED]. *)
Theorem end_spins_through_its_budget :
  exists w',
    end_ plain (attached finishes_at_once) = (Returned tt, w') /\
    emitted w' = [ev_ready; ev_finish] /\
    word WRITE_PROCESS w' = FINISHED_SIGN plain /\
    _finished w' = true /\
    reader w' = repeat idle 3.
Proof.
  exists (snd (end_ plain (attached finishes_at_once))).
  vm_compute. repeat split.
Qed.

(** ** Startup *)

(** C8 on the code: when [READ_PROCESS] is [READY] at the first load,
    [synchronize] publishes [READY], sets the [ready] flag and emits
    ['ready'], and that is all: [_watching] keeps its value, no call of
    [Atomics.waitAsync] is made (the reader's script is untouched) and no
    callback is registered, so no watch runs. *)
Theorem synchronize_ready_starts_no_watch :
  forall (cfg : config) (w : writer),
    word READ_PROCESS w = READY_SIGN cfg ->
    exists w',
      synchronize cfg w = (Returned tt, w') /\
      _ready w' = true /\
      emitted w' = emitted w ++ [ev_ready] /\
      word WRITE_PROCESS w' = to_int32 (READY_SIGN cfg) /\
      _watching w' = _watching w /\
      promises w' = promises w /\
      reader w' = reader w.
Proof.
  intros cfg w H.
  exists (snd (synchronize cfg w)).
  unfold synchronize, word in *.
  unfold bind, modify, gets, store, load, emit.
  cbn in H |- *. rewrite H, Z.eqb_refl. cbn. repeat split.
Qed.

Lemma synchronize_ready_starts_no_watch_witness :
  exists w',
    synchronize plain
      (new plain (mkShared 0 0 0 0 (READY_SIGN plain) 0) (zeroes 16) []) =
      (Returned tt, w') /\
    _ready w' = true /\
    emitted w' = [] ++ [ev_ready] /\
    word WRITE_PROCESS w' = to_int32 (READY_SIGN plain) /\
    _watching w' = false /\
    promises w' = [] /\
    reader w' = [].
Proof.
  apply (synchronize_ready_starts_no_watch plain
           (new plain (mkShared 0 0 0 0 (READY_SIGN plain) 0) (zeroes 16) [])).
  reflexivity.
Defined.

(** ** Destroy *)

(** C9.  [destroy(err)] on a writer whose [ending] flag is set returns at
    once and changes nothing: no sign is stored into [WRITE_PROCESS], the
    error is not recorded, and neither ['error'] nor ['close'] is emitted.
    The guard is [writable], which [ending] alone makes false. *)
Theorem destroy_while_ending_is_noop :
  forall (cfg : config) (err : option error) (w : writer),
    _ending w = true ->
    destroy cfg err w = (Returned tt, w).
Proof.
  intros cfg err w H.
  unfold destroy, bind, gets, writable.
  rewrite H, andb_false_r. reflexivity.
Qed.

Lemma destroy_while_ending_is_noop_witness :
  _destroyed (snd (end_ plain (attached finishes_at_once))) = false /\
  destroy plain (Some (other_error "late"))
    (snd (end_ plain (attached finishes_at_once))) =
    (Returned tt, snd (end_ plain (attached finishes_at_once))).
Proof.
  split; [reflexivity|].
  apply destroy_while_ending_is_noop. reflexivity.
Defined.





(** ** Draining the overflow queue *)

(** C4 on the code: ["a"] meets backpressure and ["b"] is buffered behind
    it.  The reader's wrap wakes the drain while there is still no room:
    ["a"] is taken from the front and pushed back at the end, behind ["b"].
    At the next wake the two are stored as the frames ["b"], then ["a"]. *)
Theorem drain_reorders_buffered_writes :
  let before := after plain 8 two_buffered (fresh 16 [reads_to 16]) in
  let woken := after plain 8 (firstn 2 two_wakes) before in
  let flushed := after plain 8 two_wakes before in
  _extraBuffer before = [Some "a"%string; Some "b"%string] /\
  _extraBuffer woken = [Some "b"%string; Some "a"%string] /\
  frames woken = frames before /\
  payloads (skipn (List.length (frames before)) (frames flushed)) =
    [utf8 "b"; utf8 "a"] /\
  emitted flushed = [ev_drain].
Proof.
  vm_compute. repeat split.
Qed.

(** ** Backpressure *)

Section Preserves.

Variable R : writer -> writer -> Prop.
Hypothesis R_refl : forall w, R w w.
Hypothesis R_trans : forall a b c, R a b -> R b c -> R a c.

Lemma preserves_ret {A : Type} (a : A) : preserves R (ret a).
Proof. intros w r w' H; inversion H; subst; apply R_refl. Qed.

Lemma preserves_throw {A : Type} (e : error) : preserves R (@throw A e).
Proof. intros w r w' H; inversion H; subst; apply R_refl. Qed.

Lemma preserves_out_of_fuel {A : Type} : preserves R (@out_of_fuel A).
Proof. intros w r w' H; inversion H; subst; apply R_refl. Qed.

Lemma preserves_gets {A : Type} (f : writer -> A) : preserves R (gets f).
Proof. intros w r w' H; inversion H; subst; apply R_refl. Qed.

Lemma preserves_modify (f : writer -> writer) :
  (forall w, R w (f w)) -> preserves R (modify f).
Proof. intros Hf w r w' H; inversion H; subst; apply Hf. Qed.

Lemma preserves_bind {A B : Type} (m : M A) (k : A -> M B) :
  preserves R m -> (forall a, preserves R (k a)) -> preserves R (bind m k).
Proof.
  intros Hm Hk w r w' H. unfold bind in H.
  destruct (m w) as [[a|e|] w1] eqn:E.
  - eapply R_trans; [eapply Hm, E | eapply Hk, H].
  - inversion H; subst. eapply Hm, E.
  - inversion H; subst. eapply Hm, E.
Qed.

Lemma preserves_reader_acts :
  (forall w st rest, R w (set_reader rest (set_sharedState st w))) ->
  preserves R reader_acts.
Proof.
  intros Hf w r w' H. unfold reader_acts in H.
  destruct (reader w); inversion H; subst; [apply R_refl | apply Hf].
Qed.

Lemma preserves_Buffer_call {A : Type} (f : list Z -> option (A * list Z)) :
  (forall w B, R w (set_sharedBuffer B w)) -> preserves R (Buffer_call f).
Proof.
  intros Hf w r w' H. unfold Buffer_call in H.
  destruct (f (_sharedBuffer w)) as [[a B]|]; inversion H; subst;
    [apply Hf | apply R_refl].
Qed.

Lemma preserves_shift :
  (forall w q, R w (set_extraBuffer q w)) -> preserves R shift.
Proof.
  intros Hf w r w' H. unfold shift in H.
  destruct (_extraBuffer w); inversion H; subst; [apply R_refl | apply Hf].
Qed.

(** [emit] logs the event and then returns or throws. *)
Lemma preserves_emit (e : event) :
  (forall w, R w (set_emitted (emitted w ++ [e]) w)) -> preserves R (emit e).
Proof.
  intros Hf. unfold emit.
  apply preserves_bind; [apply preserves_modify; exact Hf|].
  intros _. destruct e; try apply preserves_ret.
  apply preserves_bind; [apply preserves_gets|]. intros heard.
  destruct heard; [apply preserves_ret | apply preserves_throw].
Qed.

End Preserves.

Lemma keeps_binding_refl w : keeps_binding w w.
Proof. split; reflexivity. Qed.

Lemma keeps_binding_trans a b c :
  keeps_binding a b -> keeps_binding b c -> keeps_binding a c.
Proof. intros [H1 H2] [H3 H4]; split; congruence. Qed.

Lemma may_rebind_stub_refl w : may_rebind_stub w w.
Proof. split; [reflexivity | left; reflexivity]. Qed.

Lemma may_rebind_stub_trans a b c :
  may_rebind_stub a b -> may_rebind_stub b c -> may_rebind_stub a c.
Proof.
  intros [H1 H2] [H3 H4]; split; [congruence|].
  destruct H4 as [H4|H4]; [rewrite H4; exact H2 | right; exact H4].
Qed.

Lemma keeps_may_rebind {A : Type} (m : M A) :
  preserves keeps_binding m -> preserves may_rebind_stub m.
Proof.
  intros H w r w' E. destruct (H w r w' E) as [H1 H2].
  split; [exact H1 | left; exact H2].
Qed.

Lemma drains_emit (e : event) (w : writer) :
  drains (set_emitted (emitted w ++ [e]) w) =
  (drains w + (if is_drain e then 1 else 0))%nat.
Proof.
  unfold drains. cbn. rewrite filter_app, length_app. cbn.
  destruct (is_drain e); reflexivity.
Qed.

Lemma keeps_emit (e : event) :
  is_drain e = false -> preserves keeps_binding (emit e).
Proof.
  intros He.
  apply (preserves_emit _ keeps_binding_refl keeps_binding_trans).
  intros w. split.
  - rewrite drains_emit, He. apply Nat.add_0_r.
  - reflexivity.
Qed.

(** The methods other than [Write] and [_drain] are built from steps that
    keep the binding of [write] and emit no ['drain']. *)
Create HintDb binding.

Ltac keeps :=
  repeat first
    [ solve [auto 2 with binding nocore]
    | apply keeps_emit; reflexivity
    | apply (preserves_bind _ keeps_binding_trans); [|intros ?]
    | apply (preserves_ret _ keeps_binding_refl)
    | apply (preserves_throw _ keeps_binding_refl)
    | apply (preserves_out_of_fuel _ keeps_binding_refl)
    | apply (preserves_gets _ keeps_binding_refl)
    | apply (preserves_modify _); intros ?; split; reflexivity
    | apply (preserves_reader_acts _ keeps_binding_refl);
        intros ? ? ?; split; reflexivity
    | apply (preserves_Buffer_call _ keeps_binding_refl);
        intros ? ?; split; reflexivity
    | apply (preserves_shift _ keeps_binding_refl);
        intros ? ?; split; reflexivity
    | match goal with
      | |- preserves _ (if ?c then _ else _) => destruct c
      | |- preserves _ (match ?x with _ => _ end) => destruct x
      | |- preserves _ (let _ := _ in _) => cbv zeta
      end ].

Lemma keeps_Atomics_wait (s : slot) (expected timeout : Z) :
  preserves keeps_binding (Atomics_wait s expected timeout).
Proof. unfold Atomics_wait, load. keeps. Qed.
#[local] Hint Resolve keeps_Atomics_wait : binding.

Lemma keeps_Atomics_waitAsync (s : slot) (expected : Z) (timeout : option Z) :
  preserves keeps_binding (Atomics_waitAsync s expected timeout).
Proof. unfold Atomics_waitAsync, load. keeps. Qed.
#[local] Hint Resolve keeps_Atomics_waitAsync : binding.

Lemma keeps_store (cfg : config) (data : string) (isNotFin : Z) :
  preserves keeps_binding (_store cfg data isNotFin).
Proof. unfold _store, store, notify. keeps. Qed.
#[local] Hint Resolve keeps_store : binding.

Lemma keeps_wrap : preserves keeps_binding wrap.
Proof. unfold wrap, store, notify. keeps. Qed.
#[local] Hint Resolve keeps_wrap : binding.

Lemma keeps_spin_read (budget : nat) :
  forall spins read, preserves keeps_binding (spin_read budget spins read).
Proof.
  induction budget as [|budget IH]; intros spins read; cbn [spin_read].
  - keeps.
  - keeps.
Qed.
#[local] Hint Resolve keeps_spin_read : binding.

Lemma keeps_destroy (cfg : config) (err : option error) :
  preserves keeps_binding (destroy cfg err).
Proof. unfold destroy, load, store, notify. keeps. Qed.
#[local] Hint Resolve keeps_destroy : binding.

Lemma keeps_spin_finish (cfg : config) (budget : nat) :
  forall spins status,
    preserves keeps_binding (spin_finish cfg budget spins status).
Proof.
  induction budget as [|budget IH]; intros spins status; cbn [spin_finish].
  - keeps.
  - unfold load. keeps.
Qed.
#[local] Hint Resolve keeps_spin_finish : binding.

Lemma keeps_end (cfg : config) : preserves keeps_binding (end_ cfg).
Proof.
  unfold end_, load, store, notify.
  keeps.
Qed.
#[local] Hint Resolve keeps_end : binding.

Lemma keeps_call_end (cfg : config) (n : nat) :
  preserves keeps_binding (call_end cfg n).
Proof.
  induction n as [|n IH]; cbn [call_end]; keeps.
Qed.
#[local] Hint Resolve keeps_call_end : binding.

Lemma keeps_watch (cfg : config) (fuel : nat) :
  preserves keeps_binding (_watch cfg fuel).
Proof.
  induction fuel as [|fuel IH]; cbn [_watch]; [keeps|].
  unfold load, then_.
  keeps.
Qed.
#[local] Hint Resolve keeps_watch : binding.

Lemma keeps_synchronize (cfg : config) :
  preserves keeps_binding (synchronize cfg).
Proof. unfold synchronize, load, store, then_. keeps. Qed.
#[local] Hint Resolve keeps_synchronize : binding.

Lemma keeps_synchronized (cfg : config) (fuel : nat) (v : wait_status) :
  preserves keeps_binding (synchronized cfg fuel v).
Proof. unfold synchronized, load. keeps. Qed.
#[local] Hint Resolve keeps_synchronized : binding.

(** [Write] emits no ['drain']; the only binding it makes is the stub. *)
Ltac rebinds :=
  repeat first
    [ solve [auto 2 with binding nocore]
    | apply keeps_may_rebind; solve [auto 2 with binding nocore]
    | apply (preserves_bind _ may_rebind_stub_trans); [|intros ?]
    | apply (preserves_ret _ may_rebind_stub_refl)
    | apply (preserves_throw _ may_rebind_stub_refl)
    | apply (preserves_out_of_fuel _ may_rebind_stub_refl)
    | apply (preserves_gets _ may_rebind_stub_refl)
    | apply (preserves_modify _); intros ?;
        split; [reflexivity | first [left; reflexivity | right; reflexivity]]
    | apply (preserves_shift _ may_rebind_stub_refl);
        intros ? ?; split; [reflexivity | left; reflexivity]
    | match goal with
      | |- preserves _ (if ?c then _ else _) => destruct c
      | |- preserves _ (match ?x with _ => _ end) => destruct x
      | |- preserves _ (let _ := _ in _) => cbv zeta
      end ].

Lemma Write_may_rebind_stub (cfg : config) (fuel : nat) :
  forall sync toWrite,
    preserves may_rebind_stub (Write cfg fuel sync toWrite).
Proof.
  induction fuel as [|fuel IH]; intros sync toWrite; cbn [Write].
  - rebinds.
  - unfold load, then_, FakeWrite, Buffer_byteLength. rebinds.
Qed.
#[local] Hint Resolve Write_may_rebind_stub : binding.

Lemma drain_loop_may_rebind_stub (cfg : config) (fuel : nat) :
  preserves may_rebind_stub (drain_loop cfg fuel).
Proof.
  induction fuel as [|fuel IH]; cbn [drain_loop]; rebinds.
Qed.

(** [this.emit('drain')] is one ['drain'] event; the listeners it runs
    call [end], which emits none and binds nothing. *)
Lemma emit_drain_once (cfg : config) (w : writer) (r : result unit)
    (w' : writer) :
  emit_drain cfg w = (r, w') ->
  drains w' = S (drains w) /\ write w' = write w.
Proof.
  intros H. unfold emit_drain, emit in H.
  unfold bind, modify, gets, ret in H. cbv beta iota in H.
  pose proof (drains_emit ev_drain w) as Hdr. cbn [is_drain] in Hdr.
  rewrite Nat.add_1_r in Hdr.
  match type of H with
  | context [call_end cfg ?n ?w3] =>
      destruct (call_end cfg n w3) as [[[]|e|] w4] eqn:E4;
      apply keeps_call_end in E4; destruct E4 as [E4 E5];
      change (drains w4 = drains (set_emitted (emitted w ++ [ev_drain]) w))
        in E4;
      change (write w4 = write w) in E5;
      inversion H; subst; split; congruence
  end.
Qed.

(** [_drain] either stops at a write that meets backpressure again, or
    rebinds [write] to the engine and emits ['drain'] exactly once. *)
Lemma drain_drained_at_most_once (cfg : config) (fuel : nat) :
  preserves drained_at_most_once (_drain cfg fuel).
Proof.
  intros w r w' H. unfold _drain, bind at 1 in H.
  destruct (drain_loop cfg fuel w) as [[emptied|e|] w1] eqn:E;
    apply drain_loop_may_rebind_stub in E.
  - destruct emptied.
    + right. destruct E as [Ed _].
      unfold bind at 1, modify at 1 in H.
      unfold bind at 1, modify at 1 in H.
      unfold bind at 1 in H.
      match type of H with
      | context [emit_drain cfg ?w3] =>
          destruct (emit_drain cfg w3) as [r3 w4] eqn:E4;
          apply emit_drain_once in E4; destruct E4 as [E4 E5];
          change (drains w4 = S (drains w1)) in E4;
          change (write w4 = bound_Write false) in E5
      end.
      destruct r3; inversion H; subst; split; congruence.
    + left. inversion H; subst. exact E.
  - left. inversion H; subst. exact E.
  - left. inversion H; subst. exact E.
Qed.

Lemma may_rebind_drained {A : Type} (m : M A) :
  preserves may_rebind_stub m -> preserves drained_at_most_once m.
Proof. intros H w r w' E. left. exact (H w r w' E). Qed.

(** Every task emits at most one ['drain'], and only together with the
    return of [write] to the engine. *)
Lemma step_drained_at_most_once (cfg : config) (fuel : nat) (a : action) :
  preserves drained_at_most_once (step cfg fuel a).
Proof.
  destruct a; cbn [step];
    try solve [apply may_rebind_drained;
               unfold invoke_write, writeSync, FakeWrite; rebinds].
  intros w r w' H. unfold bind at 1, gets at 1 in H.
  destruct (remove_first k (promises w)) as [rest|];
    [|left; inversion H; subst; apply may_rebind_stub_refl].
  unfold bind at 1, modify at 1 in H.
  assert (Hk : preserves drained_at_most_once (run_callback cfg fuel k v)).
  { destruct k; cbn [run_callback].
    - intros w0 r0 w0' H0. unfold bind in H0.
      destruct (_drain cfg fuel w0) as [[b|e|] w1] eqn:E;
        apply drain_drained_at_most_once in E;
        inversion H0; subst; exact E.
    - apply may_rebind_drained. solve [rebinds].
    - apply may_rebind_drained. solve [rebinds]. }
  unfold bind in H.
  destruct (run_callback cfg fuel k v (set_promises rest w)) as [[[]|e|] w1] eqn:E;
    apply Hk in E; inversion H; subst; exact E.
Qed.

Lemma ensures_bind {A B : Type} (P : B -> writer -> Prop) (m : M A)
    (k : A -> M B) :
  (forall a, ensures P (k a)) -> ensures P (bind m k).
Proof.
  intros Hk w b w' H. unfold bind in H.
  destruct (m w) as [[a|e|] w1]; try discriminate.
  eapply Hk, H.
Qed.

Lemma backpressure_branch_binds_stub (toWrite : jsval) :
  ensures (fun b w' => b = true -> write w' = bound_FakeWrite)
    (then_ then_drain ;;
     modify (rebind_write bound_FakeWrite) ;;
     modify (set_needDrain true) ;;
     FakeWrite toWrite).
Proof.
  intros w b w' H _.
  unfold then_, FakeWrite, bind, modify, ret in H.
  inversion H; subst. reflexivity.
Qed.

(** A call of [Write] answers [true] only through the buffering stub, to
    which it has then bound [write]. *)
Lemma Write_true_binds_stub (cfg : config) (fuel : nat) :
  forall sync toWrite,
    ensures (fun b w' => b = true -> write w' = bound_FakeWrite)
      (Write cfg fuel sync toWrite).
Proof.
  induction fuel as [|fuel IH]; intros sync toWrite; cbn [Write].
  - intros w a w' H; discriminate.
  - repeat first
      [ apply IH
      | apply backpressure_branch_binds_stub
      | apply ensures_bind; intros ?
      | match goal with
        | |- ensures _ (if ?c then _ else _) => destruct c
        | |- ensures _ (match ?x with _ => _ end) => destruct x
        | |- ensures _ (let _ := _ in _) => cbv zeta
        end ];
      intros w b w' H; inversion H; subst; discriminate.
Qed.

(** C5.  If a call of [write] returns [true], then along every list of
    tasks that follows (calls of [write], [writeSync], [end], [destroy]
    and [synchronize], promises that settle, moves of the reader) each
    call of [write] returns [true] for as long as no ['drain'] event has
    been emitted; the task that emits ['drain'] emits exactly one, and
    only from then on is [write] the engine again, which may return
    [false]. *)
Theorem backpressure_law :
  forall (cfg : config) (fuel : nat) (data : jsval) (w w1 : writer),
    invoke_write cfg fuel data w = (Returned true, w1) ->
    forall (fuel' : nat) (tasks : list action),
      held_until_drain cfg fuel' tasks w1.
Proof.
  intros cfg fuel data w w1 H fuel' tasks.
  assert (Hstub : write w1 = bound_FakeWrite).
  { unfold invoke_write, bind, gets in H.
    destruct (write w) as [sync|] eqn:Hb.
    - exact (Write_true_binds_stub cfg fuel sync data w true w1 H eq_refl).
    - unfold FakeWrite, bind, modify, ret in H. inversion H; subst. exact Hb. }
  clear H. revert w1 Hstub.
  induction tasks as [|a rest IH]; intros w1 Hstub; cbn [held_until_drain];
    [exact I|].
  split.
  - destruct a; try discriminate. intros _.
    cbn [step]. unfold invoke_write, bind, gets. rewrite Hstub. reflexivity.
  - destruct (step cfg fuel' a w1) as [r w2] eqn:E. cbn [snd].
    destruct (step_drained_at_most_once cfg fuel' a w1 r w2 E)
      as [[Hd Hb]|[Hd Hb]].
    + left. split; [exact Hd|]. apply IH.
      destruct Hb as [Hb|Hb]; congruence.
    + right. split; assumption.
Qed.

Lemma backpressure_law_witness :
  held_until_drain plain 8 (until_drained ++ [do_write (Some "y"%string)])
    stalled.
Proof.
  apply (backpressure_law plain 4 (Some "hello world 1234"%string)
           (fresh 16 [])).
  vm_compute; reflexivity.
Defined.

(** The run of the witness: the first two wakes of the drain meet
    backpressure again and emit nothing; the third empties the queue and
    emits the one ['drain']; the write after it goes through the engine and
    returns [false]. *)
Example write_after_drain_returns_false :
  map (fun k => emitted (after plain 8 (firstn k until_drained) stalled))
    [3; 5; 7]%nat = [[]; []; [ev_drain]] /\
  invoke_write plain 8 (Some "y"%string) (after plain 8 until_drained stalled) =
    (Returned false,
     snd (invoke_write plain 8 (Some "y"%string)
            (after plain 8 until_drained stalled))).
Proof. vm_compute. split; reflexivity. Qed.

(** ** The split law *)

Lemma len_app {A : Type} (l1 l2 : list A) : len (l1 ++ l2) = len l1 + len l2.
Proof. unfold len. rewrite length_app. lia. Qed.

Lemma len_nonneg {A : Type} (l : list A) : 0 <= len l.
Proof. unfold len. lia. Qed.

Lemma blit_length (off : Z) (bs B : list Z) :
  0 <= off -> off + len bs <= len B -> len (blit off bs B) = len B.
Proof.
  unfold blit, len. intros H0 H1.
  rewrite !length_app, length_firstn, length_skipn. lia.
Qed.

Lemma utf8_char_len (c : ascii) : 1 <= len (utf8_char c) <= 2.
Proof. unfold utf8_char. destruct (code c <? 128); cbn; lia. Qed.

Lemma utf8_fit_le (s : string) :
  forall room, 0 <= room -> len (utf8_fit room s) <= room.
Proof.
  induction s as [|c s IH]; intros room Hr; cbn [utf8_fit].
  - cbn. lia.
  - destruct (Z.leb_spec (len (utf8_char c)) room) as [Hle|Hgt]; [|cbn; lia].
    rewrite len_app. specialize (IH (room - len (utf8_char c))). lia.
Qed.

Lemma utf8_fit_all (s : string) :
  forall room, len (utf8 s) <= room -> utf8_fit room s = utf8 s.
Proof.
  induction s as [|c s IH]; intros room Hr; cbn [utf8_fit utf8] in *.
  - reflexivity.
  - rewrite len_app in Hr. pose proof (len_nonneg (utf8 s)).
    destruct (Z.leb_spec (len (utf8_char c)) room) as [Hle|Hgt]; [|lia].
    rewrite IH by lia. reflexivity.
Qed.

Lemma utf8_take_drop (n : nat) :
  forall s, utf8 (take n s) ++ utf8 (drop n s) = utf8 s.
Proof.
  induction n as [|n IH]; intros [|c s]; cbn; try reflexivity.
  rewrite <- app_assoc, IH. reflexivity.
Qed.

Lemma ascii_only_len (s : string) :
  ascii_only s = true -> len (utf8 s) = Z.of_nat (String.length s).
Proof.
  induction s as [|c s IH]; cbn [ascii_only utf8 String.length]; intros H.
  - reflexivity.
  - apply andb_true_iff in H as [Hc Hs]. unfold utf8_char. rewrite Hc.
    rewrite len_app, IH by assumption. change (len [code c]) with 1. lia.
Qed.

Lemma ascii_only_take (n : nat) :
  forall s, ascii_only s = true -> ascii_only (take n s) = true.
Proof.
  induction n as [|n IH]; intros [|c s]; cbn; try reflexivity.
  intros H. apply andb_true_iff in H as [Hc Hs].
  rewrite Hc, IH by assumption. reflexivity.
Qed.

Lemma ascii_only_drop (n : nat) :
  forall s, ascii_only s = true -> ascii_only (drop n s) = true.
Proof.
  induction n as [|n IH]; intros [|c s]; cbn; try tauto.
  intros H. apply andb_true_iff in H as [Hc Hs]. now apply IH.
Qed.

Lemma length_take (n : nat) :
  forall s, String.length (take n s) = Nat.min n (String.length s).
Proof.
  induction n as [|n IH]; intros [|c s]; cbn; try reflexivity.
  rewrite IH. reflexivity.
Qed.

(** The two slices that [Write] takes at a positive [leftover]. *)
Lemma slice_head (s : string) (n : Z) :
  0 < n -> slice s 0 n = take (Z.to_nat (Z.min n (Z.of_nat (String.length s)))) s.
Proof.
  intros Hn. unfold slice, slice_index.
  replace (n <? 0) with false by (symmetry; apply Z.ltb_ge; lia).
  replace (0 <? 0) with false by reflexivity.
  replace (Z.to_nat (Z.min 0 (Z.of_nat (String.length s)))) with 0%nat by lia.
  cbn [drop]. rewrite Nat.sub_0_r. reflexivity.
Qed.

Lemma slice_tail (s : string) (n : Z) :
  0 < n ->
  slice_from s n = drop (Z.to_nat (Z.min n (Z.of_nat (String.length s)))) s.
Proof.
  intros Hn. unfold slice_from, slice_index.
  replace (n <? 0) with false by (symmetry; apply Z.ltb_ge; lia).
  reflexivity.
Qed.

Lemma same_ring_refl w : same_ring w w.
Proof. unfold same_ring; tauto. Qed.

Lemma same_ring_trans a b c : same_ring a b -> same_ring b c -> same_ring a c.
Proof.
  unfold same_ring.
  intros (H1 & H2 & H3 & H4 & H5 & H6) (K1 & K2 & K3 & K4 & K5 & K6).
  do 4 (split; [congruence|]). split; auto.
Qed.

Lemma store_keeps_read_index (st : shared) (s : slot) (v : Z) :
  s <> READ_INDEX ->
  Atomics_load (Atomics_store st s v) READ_INDEX = Atomics_load st READ_INDEX.
Proof. destruct s; cbn; congruence. Qed.

Lemma reader_step_in_range (size : Z) (t : tick) (st : shared) :
  tick_in_range size t = true ->
  Atomics_load st READ_INDEX <= size ->
  Atomics_load (reader_step t st) READ_INDEX <= size.
Proof.
  unfold tick_in_range, reader_step. intros Ht Hst.
  destruct t as [[i|] [c|] [p|] n]; cbn in *;
    try apply Z.leb_le in Ht; assumption.
Qed.

Lemma same_ring_reader_acts : preserves same_ring reader_acts.
Proof.
  intros w r w' H. unfold reader_acts in H.
  destruct (reader w) as [|t rest] eqn:E; inversion H; subst;
    [apply same_ring_refl|].
  unfold same_ring, reader_in_range, word, ring_size, writable. cbn.
  repeat split; try tauto.
  - destruct H0 as [H0 H1]. rewrite E in H1. inversion H1; subst.
    now apply reader_step_in_range.
  - destruct H0 as [H0 H1]. rewrite E in H1. inversion H1; subst. assumption.
Qed.

Create HintDb ring.
#[local] Hint Resolve same_ring_reader_acts : ring.

Ltac same :=
  repeat first
    [ solve [auto 2 with ring nocore]
    | apply (preserves_bind _ same_ring_trans); [|intros ?]
    | apply (preserves_ret _ same_ring_refl)
    | apply (preserves_throw _ same_ring_refl)
    | apply (preserves_out_of_fuel _ same_ring_refl)
    | apply (preserves_gets _ same_ring_refl)
    | apply (preserves_modify _); intros ?;
        unfold same_ring, reader_in_range, word, ring_size, writable; cbn;
        repeat split; solve [tauto | lia]
    | match goal with
      | |- preserves _ (if ?c then _ else _) => destruct c
      | |- preserves _ (match ?x with _ => _ end) => destruct x
      | |- preserves _ (let _ := _ in _) => cbv zeta
      end ].

Lemma same_ring_Atomics_wait (s : slot) (expected timeout : Z) :
  preserves same_ring (Atomics_wait s expected timeout).
Proof. unfold Atomics_wait, load. same. Qed.
#[local] Hint Resolve same_ring_Atomics_wait : ring.

Lemma same_ring_Atomics_waitAsync (s : slot) (expected : Z)
    (timeout : option Z) :
  preserves same_ring (Atomics_waitAsync s expected timeout).
Proof. unfold Atomics_waitAsync, load. same. Qed.
#[local] Hint Resolve same_ring_Atomics_waitAsync : ring.

Lemma same_ring_spin_read (budget : nat) :
  forall spins read, preserves same_ring (spin_read budget spins read).
Proof.
  induction budget as [|budget IH]; intros spins read; cbn [spin_read]; same.
Qed.
#[local] Hint Resolve same_ring_spin_read : ring.

Lemma same_ring_wrap : preserves same_ring wrap.
Proof. unfold wrap, store, notify. same. Qed.
#[local] Hint Resolve same_ring_wrap : ring.

Lemma Buffer_write_spec (data : string) (off : Z) (B : list Z) (n : Z)
    (B1 : list Z) :
  Buffer_write data off B = Some (n, B1) ->
  len (utf8 data) <= len B - off ->
  n = len (utf8 data) /\ len B1 = len B.
Proof.
  unfold Buffer_write. intros H Hfit.
  destruct ((0 <=? off) && (off <=? len B)) eqn:E; [|discriminate].
  apply andb_true_iff in E as [E1 E2].
  apply Z.leb_le in E1. apply Z.leb_le in E2.
  rewrite utf8_fit_all in H by assumption.
  inversion H; subst. split; [reflexivity|].
  apply blit_length; lia.
Qed.

Lemma Buffer_writeInt32LE_spec (v off : Z) (B B1 : list Z) :
  Buffer_writeInt32LE v off B = Some (tt, B1) -> len B1 = len B.
Proof.
  unfold Buffer_writeInt32LE. intros H.
  destruct (_ && _) eqn:E in H; [|discriminate].
  repeat (apply andb_true_iff in E as [E ?]).
  inversion H; subst. apply blit_length; cbn; lia.
Qed.

Lemma Buffer_writeUInt8_spec (v off : Z) (B B1 : list Z) :
  Buffer_writeUInt8 v off B = Some (tt, B1) -> len B1 = len B.
Proof.
  unfold Buffer_writeUInt8. intros H.
  destruct (_ && _) eqn:E in H; [|discriminate].
  repeat (apply andb_true_iff in E as [E ?]).
  inversion H; subst. apply blit_length; cbn; lia.
Qed.

(** Projections of updated writers, and nothing else. *)
Ltac fields :=
  cbn [_sharedBuffer _sharedState _extraBuffer _process _cycle _write _ready
       _ended _closed _ending _errored _destroyed _flashing _finished
       _needDrain _watching write promises drain_once error_listener emitted
       notified frames reader set_error_listener
       set_sharedBuffer set_sharedState set_extraBuffer set_process
       set_cycle set_write set_ready set_ended set_closed set_ending
       set_errored set_destroyed set_finished set_needDrain set_watching
       rebind_write set_promises set_drain_once set_emitted set_notified
       set_frames set_reader Atomics_load Atomics_store read_index
       write_index read_cycle write_cycle read_process write_process
       fst snd] in *.

Lemma firstn_len {A : Type} (l : list A) : firstn (Z.to_nat (len l)) l = l.
Proof. unfold len. rewrite Nat2Z.id. apply firstn_all. Qed.

(** A call of [_store] that has room for [data] and returns has logged
    one frame: the cursor it started from, all the bytes of [data], the
    mark. *)
Lemma store_logs_frame (cfg : config) (data : string) (isNotFin : Z)
    (w w1 : writer) :
  0 <= PREFIX_SIZE cfg -> 0 <= POSTFIX_SIZE cfg -> 0 <= _write w ->
  len (utf8 data) <= ring_size w - (_write w + PREFIX_SIZE cfg) ->
  _store cfg data isNotFin w = (Returned tt, w1) ->
  frames w1 = frames w ++ [mkFrame (_write w) (utf8 data) isNotFin] /\
  _extraBuffer w1 = _extraBuffer w /\
  writable w1 = writable w /\
  ring_size w1 = ring_size w /\
  0 <= _write w1 /\
  (reader_in_range w -> reader_in_range w1).
Proof.
  intros Hpre Hpost Hpos Hfit H. unfold ring_size in Hfit.
  unfold _store in H.
  unfold bind at 1, gets at 1 in H.
  unfold bind at 1, Buffer_call at 1 in H.
  destruct (Buffer_write data (_write w + PREFIX_SIZE cfg) (_sharedBuffer w))
    as [[written B1]|] eqn:E1; [|discriminate].
  apply Buffer_write_spec in E1 as [-> L1]; [|lia].
  unfold bind at 1, Buffer_call at 1 in H.
  cbn [_sharedBuffer set_sharedBuffer] in H.
  destruct (Buffer_writeInt32LE (len (utf8 data)) (_write w) B1)
    as [[[] B2]|] eqn:E2; [|discriminate].
  apply Buffer_writeInt32LE_spec in E2.
  unfold bind at 1, Buffer_call at 1 in H.
  cbn [_sharedBuffer set_sharedBuffer] in H.
  destruct (Buffer_writeUInt8 isNotFin
              (_write w + len (utf8 data) + EXTRA_SPACE cfg) B2)
    as [[[] B3]|] eqn:E3; [|discriminate].
  apply Buffer_writeUInt8_spec in E3.
  unfold bind, modify, gets, store, notify in H.
  apply (f_equal snd) in H. cbn [snd] in H. subst w1.
  pose proof (len_nonneg (utf8 data)).
  unfold reader_in_range, word, ring_size, writable, modify. fields.
  rewrite firstn_len.
  replace (len B3) with (len (_sharedBuffer w)) by congruence.
  repeat split; try tauto; try lia.
Qed.

Lemma bind_gets {A B : Type} (f : writer -> A) (k : A -> M B) (w : writer) :
  bind (gets f) k w = k (f w) w.
Proof. reflexivity. Qed.

Lemma bind_ret {A B : Type} (a : A) (k : A -> M B) (w : writer) :
  bind (ret a) k w = k a w.
Proof. reflexivity. Qed.

Lemma steady_same_ring (w w1 : writer) :
  steady w -> same_ring w w1 -> steady w1.
Proof.
  unfold steady, same_ring.
  intros (H1 & H2 & H3) (_ & _ & K3 & _ & K5 & K6).
  repeat split; [congruence | tauto | apply K6, H3 | apply K6, H3].
Qed.

Lemma Write_outcome_same_ring (cfg : config) (q : string) (w w1 : writer)
    (r : result bool) (w' : writer) :
  same_ring w w1 -> Write_outcome cfg q w1 r w' -> Write_outcome cfg q w r w'.
Proof.
  intros (K1 & K2 & _ & K4 & _) H.
  destruct r as [[|]| |]; cbn [Write_outcome] in *;
    rewrite ?K1, ?K2, ?K4 in H; exact H.
Qed.

(** A frame marked not final in front of what the rest of the call logs. *)
Lemma Write_outcome_after_split (cfg : config) (q chunk rest : string)
    (w w1 : writer) (r : result bool) (w' : writer) :
  utf8 chunk ++ utf8 rest = utf8 q ->
  frames w1 = frames w ++ [mkFrame (_write w) (utf8 chunk) 1] ->
  _extraBuffer w1 = _extraBuffer w ->
  Write_outcome cfg rest w1 r w' -> Write_outcome cfg q w r w'.
Proof.
  intros Hq Hf Hx H.
  destruct r as [[|]| |]; cbn [Write_outcome] in *; [| |exact I|exact I].
  - destruct H as (heads & rest' & H1 & H2 & H3 & H4).
    exists (mkFrame (_write w) (utf8 chunk) 1 :: heads), rest'.
    rewrite H1, H3, Hf, Hx, <- app_assoc. cbn [app].
    repeat split; try assumption.
    + constructor; [reflexivity | assumption].
    + cbn [payloads map List.concat f_payload].
      unfold payloads in H4. rewrite <- app_assoc, H4. exact Hq.
  - destruct H as (heads & last & H1 & H2 & H3 & H4 & _).
    exists (mkFrame (_write w) (utf8 chunk) 1 :: heads), last.
    rewrite H1, Hf, <- app_assoc. cbn [app].
    repeat split; try assumption.
    + constructor; [reflexivity | assumption].
    + cbn [payloads map List.concat f_payload app].
      unfold payloads in H4. rewrite H4. exact Hq.
    + discriminate.
Qed.

Section SplitLaw.

Variable cfg : config.
Hypothesis prefix_nonneg : 0 <= PREFIX_SIZE cfg.
Hypothesis postfix_nonneg : 0 <= POSTFIX_SIZE cfg.

Lemma Write_frames (fuel : nat) :
  forall (sync : bool) (q : string) (w : writer) (r : result bool)
         (w' : writer),
    steady w -> ascii_only q = true ->
    Write cfg fuel sync (Some q) w = (r, w') ->
    Write_outcome cfg q w r w'.
Proof.
  induction fuel as [|fuel IH]; intros sync q w r w' Hst Hq H.
  - injection H as <- <-. exact I.
  - pose proof Hst as (Hw & Hpos & Hin & Hscript).
    cbn [Write] in H.
    rewrite bind_gets in H. cbv beta in H. rewrite Hw in H. cbn [negb] in H.
    unfold load in H.
    do 5 (rewrite bind_gets in H; cbv beta in H).
    fold (word READ_INDEX w) in H. fold (word READ_CYCLE w) in H.
    fold (ring_size w) in H.
    cbv zeta in H.
    set (isBehind :=
           (word READ_INDEX w >? _write w) || (word READ_CYCLE w <? _cycle w))
      in H.
    set (avail := if isBehind then word READ_INDEX w else ring_size w) in H.
    assert (Havail : avail <= ring_size w)
      by (unfold avail; destruct isBehind; lia).
    clearbody avail.
    set (leftover := avail - _write w - (EXTRA_SPACE cfg + 1)) in H.
    assert (Hleft : leftover = avail - _write w - (EXTRA_SPACE cfg + 1))
      by reflexivity.
    clearbody leftover. unfold EXTRA_SPACE in Hleft.
    destruct (avail - _write w <? 0); [injection H as <- <-; exact I|].
    destruct (word READ_CYCLE w >? _cycle w);
      [injection H as <- <-; exact I|].
    destruct (Z.leb_spec leftover 0) as [Hle|Hgt]; cbn [andb] in H.
    + destruct isBehind; cbn [negb] in H.
      * destruct sync.
        -- unfold bind in H.
           destruct (spin_read (Z.to_nat READ_SPINS) 0 (word READ_INDEX w) w)
             as [[[]|e|] w1] eqn:Es; apply same_ring_spin_read in Es;
             try (injection H as <- <-; exact I).
           eapply Write_outcome_same_ring; [exact Es|].
           eapply IH; [eapply steady_same_ring; eassumption | exact Hq | exact H].
        -- unfold bind at 1 in H.
           destruct (Atomics_waitAsync READ_INDEX (word READ_INDEX w) None w)
             as [[[v|]|e|] w1] eqn:Ea; apply same_ring_Atomics_waitAsync in Ea;
             try (injection H as <- <-; exact I).
           ++ eapply Write_outcome_same_ring; [exact Ea|].
              eapply IH;
                [eapply steady_same_ring; eassumption | exact Hq | exact H].
           ++ unfold then_, FakeWrite, bind, modify, ret in H.
              injection H as <- <-.
              eapply Write_outcome_same_ring; [exact Ea|].
              exists [], q. fields. rewrite app_nil_r.
              repeat split. constructor.
      * unfold bind in H.
        destruct (wrap w) as [[[]|e|] w1] eqn:Ew; apply same_ring_wrap in Ew;
          try (injection H as <- <-; exact I).
        eapply Write_outcome_same_ring; [exact Ew|].
        eapply IH; [eapply steady_same_ring; eassumption | exact Hq | exact H].
    + cbn [Buffer_byteLength string_of] in H. rewrite bind_ret in H.
      pose proof (len_nonneg (utf8 q)) as Hlen.
      destruct (Z.ltb_spec leftover (len (utf8 q) + EXTRA_SPACE cfg))
        as [Hsplit|Hfits]; unfold EXTRA_SPACE in *.
      * rewrite slice_head, slice_tail in H by assumption.
        set (n := Z.to_nat (Z.min leftover (Z.of_nat (String.length q)))) in H.
        assert (Hchunk : len (utf8 (take n q)) <= leftover).
        { rewrite ascii_only_len by (apply ascii_only_take; exact Hq).
          rewrite length_take. unfold n. lia. }
        unfold bind in H.
        destruct (_store cfg (take n q) 1 w) as [[[]|e|] w1] eqn:Est;
          try (injection H as <- <-; exact I).
        apply store_logs_frame in Est; try assumption; [|unfold ring_size in *; lia].
        destruct Est as (Hf & Hx & Hw1 & Hs1 & Hp1 & Hr1).
        eapply Write_outcome_after_split;
          [apply utf8_take_drop | exact Hf | exact Hx |].
        eapply IH; [|apply ascii_only_drop; exact Hq | exact H].
        repeat split; [congruence | assumption | apply Hr1; split; assumption
                      | apply Hr1; split; assumption].
      * unfold bind in H.
        destruct (_store cfg q 0 w) as [[[]|e|] w1] eqn:Est;
          try (injection H as <- <-; exact I).
        apply store_logs_frame in Est; try assumption; [|unfold ring_size in *; lia].
        destruct Est as (Hf & Hx & Hw1 & Hs1 & Hp1 & Hr1).
        unfold ret in H. injection H as <- <-.
        exists [], (mkFrame (_write w) (utf8 q) 0).
        cbn [app payloads map List.concat f_payload f_not_final].
        rewrite app_nil_r.
        repeat split; try assumption; [constructor|].
        intros _. unfold EXTRA_SPACE. lia.
Qed.

End SplitLaw.

(** ** Termination of [Write] *)

Lemma total_ret {A : Type} (a : A) : total (ret a).
Proof. intros w; discriminate. Qed.

Lemma total_throw {A : Type} (e : error) : total (@throw A e).
Proof. intros w; discriminate. Qed.

Lemma total_gets {A : Type} (f : writer -> A) : total (gets f).
Proof. intros w; discriminate. Qed.

Lemma total_modify (f : writer -> writer) : total (modify f).
Proof. intros w; discriminate. Qed.

Lemma total_bind {A B : Type} (m : M A) (k : A -> M B) :
  total m -> (forall a, total (k a)) -> total (bind m k).
Proof.
  intros Hm Hk w. unfold bind. specialize (Hm w).
  destruct (m w) as [[a|e|] w1]; cbn [fst] in *;
    [apply Hk | discriminate | congruence].
Qed.

Lemma total_reader_acts : total reader_acts.
Proof. intros w. unfold reader_acts. destruct (reader w); discriminate. Qed.

Lemma total_Buffer_call {A : Type} (f : list Z -> option (A * list Z)) :
  total (Buffer_call f).
Proof.
  intros w. unfold Buffer_call.
  destruct (f (_sharedBuffer w)) as [[a B]|]; discriminate.
Qed.

Create HintDb total.
#[local] Hint Resolve total_reader_acts : total.

Ltac totality :=
  repeat first
    [ solve [auto 2 with total nocore]
    | apply total_bind; [|intros ?]
    | apply total_ret
    | apply total_throw
    | apply total_gets
    | apply total_modify
    | apply total_Buffer_call
    | match goal with
      | |- total (if ?c then _ else _) => destruct c
      | |- total (match ?x with _ => _ end) => destruct x
      | |- total (let _ := _ in _) => cbv zeta
      end ].

Lemma total_Atomics_wait (s : slot) (expected timeout : Z) :
  total (Atomics_wait s expected timeout).
Proof. unfold Atomics_wait, load. totality. Qed.
#[local] Hint Resolve total_Atomics_wait : total.

Lemma total_Atomics_waitAsync (s : slot) (expected : Z) (timeout : option Z) :
  total (Atomics_waitAsync s expected timeout).
Proof. unfold Atomics_waitAsync, load. totality. Qed.
#[local] Hint Resolve total_Atomics_waitAsync : total.

Lemma total_store (cfg : config) (data : string) (isNotFin : Z) :
  total (_store cfg data isNotFin).
Proof. unfold _store, store, notify. totality. Qed.
#[local] Hint Resolve total_store : total.

Lemma total_wrap : total wrap.
Proof. unfold wrap, store, notify. totality. Qed.
#[local] Hint Resolve total_wrap : total.

(** The loop of the synchronous branch throws at its tenth turn at the
    latest: its budget of ten is never used up. *)
Lemma total_spin_read_from (budget : nat) :
  forall spins read,
    0 <= spins < READ_SPINS ->
    Z.of_nat budget + spins = READ_SPINS ->
    total (spin_read budget spins read).
Proof.
  induction budget as [|budget IH]; intros spins read Hs Hb;
    [unfold READ_SPINS in *; lia|].
  cbn [spin_read]. apply total_bind; [apply total_Atomics_wait|].
  intros status. cbv zeta.
  destruct (Z.eqb_spec (spins + 1) READ_SPINS); [apply total_throw|].
  destruct status; try apply total_ret.
  apply IH; unfold READ_SPINS in *; lia.
Qed.

Lemma total_spin_read (read : Z) :
  total (spin_read (Z.to_nat READ_SPINS) 0 read).
Proof. apply total_spin_read_from; unfold READ_SPINS; lia. Qed.
#[local] Hint Resolve total_spin_read : total.

(** A turn of the loop that returns has let the reader take a turn. *)
Lemma spin_read_consumes (budget : nat) :
  forall spins read w w1,
    spin_read budget spins read w = (Returned tt, w1) ->
    (List.length (reader w1) <= List.length (reader w))%nat /\
    (word READ_INDEX w = read ->
     (List.length (reader w1) < List.length (reader w))%nat).
Proof.
  induction budget as [|budget IH]; intros spins read w w1 H; [discriminate|].
  cbn [spin_read] in H. unfold bind at 1, Atomics_wait in H.
  unfold load in H. rewrite bind_gets in H. fold (word READ_INDEX w) in H.
  destruct (Z.eqb_spec (word READ_INDEX w) read) as [Heq|Hne].
  - unfold bind at 1, reader_acts in H.
    destruct (reader w) as [|t rest] eqn:Er; unfold ret in H; cbv zeta in H.
    + destruct (spins + 1 =? READ_SPINS); [discriminate|].
      destruct (IH _ _ _ _ H) as [H1 H2]. rewrite Er in *. split; auto.
    + destruct (spins + 1 =? READ_SPINS); [discriminate|].
      destruct (t_notify t).
      * injection H as <-. fields. cbn [List.length]. split; intros; lia.
      * destruct (IH _ _ _ _ H) as [H1 _]. fields. cbn [List.length] in *.
        split; intros; lia.
  - unfold ret in H. cbv zeta in H.
    destruct (spins + 1 =? READ_SPINS); [discriminate|].
    injection H as <-. split; [lia | intros; contradiction].
Qed.

(** A wait on the value the word holds settles at once only when the
    reader has taken a turn. *)
Lemma waitAsync_settled_consumes (s : slot) (w : writer) (v : wait_status)
    (w1 : writer) :
  Atomics_waitAsync s (word s w) None w = (Returned (settled v), w1) ->
  (List.length (reader w1) < List.length (reader w))%nat.
Proof.
  unfold Atomics_waitAsync, bind, reader_acts, load, gets, ret.
  destruct (reader w) as [|t rest] eqn:Er.
  - unfold word. rewrite Z.eqb_refl. discriminate.
  - intros H. fields.
    match type of H with
    | (if ?c then _ else _) _ = _ => destruct c
    end; [discriminate|].
    injection H as _ <-. fields. cbn [List.length]. lia.
Qed.

Lemma phase_le_3 (cfg : config) (w : writer) : (phase cfg w <= 3)%nat.
Proof. unfold phase. destruct (behind w), (0 <? leftover cfg w); lia. Qed.

Lemma Buffer_write_len (data : string) (off : Z) (B : list Z) (n : Z)
    (B1 : list Z) :
  Buffer_write data off B = Some (n, B1) ->
  n = len (utf8_fit (len B - off) data) /\ len B1 = len B.
Proof.
  unfold Buffer_write. intros H.
  destruct ((0 <=? off) && (off <=? len B)) eqn:E; [|discriminate].
  apply andb_true_iff in E as [E1 E2].
  apply Z.leb_le in E1. apply Z.leb_le in E2.
  injection H as <- <-. split; [reflexivity|].
  pose proof (utf8_fit_le data (len B - off)).
  apply blit_length; lia.
Qed.

(** What [_store] leaves alone, and where it leaves the cursor after an
    empty payload. *)
Lemma store_effect (cfg : config) (data : string) (isNotFin : Z)
    (w w1 : writer) :
  _store cfg data isNotFin w = (Returned tt, w1) ->
  reader w1 = reader w /\
  _cycle w1 = _cycle w /\
  word READ_INDEX w1 = word READ_INDEX w /\
  word READ_CYCLE w1 = word READ_CYCLE w /\
  ring_size w1 = ring_size w /\
  (data = EmptyString -> _write w1 = _write w + (EXTRA_SPACE cfg + 1)).
Proof.
  intros H. unfold _store in H.
  rewrite bind_gets in H.
  unfold bind at 1, Buffer_call at 1 in H.
  destruct (Buffer_write data (_write w + PREFIX_SIZE cfg) (_sharedBuffer w))
    as [[written B1]|] eqn:E1; [|discriminate].
  apply Buffer_write_len in E1 as [Hn L1].
  unfold bind at 1, Buffer_call at 1 in H.
  cbn [_sharedBuffer set_sharedBuffer] in H.
  destruct (Buffer_writeInt32LE written (_write w) B1)
    as [[[] B2]|] eqn:E2; [|discriminate].
  apply Buffer_writeInt32LE_spec in E2.
  unfold bind at 1, Buffer_call at 1 in H.
  cbn [_sharedBuffer set_sharedBuffer] in H.
  destruct (Buffer_writeUInt8 isNotFin
              (_write w + written + EXTRA_SPACE cfg) B2)
    as [[[] B3]|] eqn:E3; [|discriminate].
  apply Buffer_writeUInt8_spec in E3.
  unfold bind, modify, gets, store, notify in H.
  apply (f_equal snd) in H. cbn [snd] in H. subst w1.
  unfold word, ring_size, modify. fields.
  repeat split; try congruence.
  intros ->. cbn [utf8_fit] in Hn. subst written.
  unfold EXTRA_SPACE. change (len []) with 0. lia.
Qed.

Lemma length_drop (n : nat) :
  forall s, String.length (drop n s) = (String.length s - n)%nat.
Proof.
  induction n as [|n IH]; intros [|c s]; cbn; try reflexivity.
  apply IH.
Qed.

Section Termination.

Variable cfg : config.

(** [Write] returns or throws, given fuel above [Write_fuel]. *)
Lemma Write_total_above (fuel : nat) :
  forall (sync : bool) (q : string) (w : writer),
    (Write_fuel cfg q w < fuel)%nat ->
    fst (Write cfg fuel sync (Some q) w) <> OutOfFuel.
Proof.
  induction fuel as [|fuel IH]; intros sync q w Hfuel; [lia|].
  cbn [Write]. rewrite bind_gets.
  destruct (writable w); cbn [negb]; [|discriminate].
  unfold load. do 5 (rewrite bind_gets; cbv beta).
  fold (word READ_INDEX w). fold (word READ_CYCLE w). fold (ring_size w).
  cbv zeta. fold (behind w).
  change ((if behind w then word READ_INDEX w else ring_size w) - _write w -
          (EXTRA_SPACE cfg + 1)) with (leftover cfg w).
  destruct (_ <? 0); [discriminate|].
  destruct (Z.gtb_spec (word READ_CYCLE w) (_cycle w)) as [|Hcyc];
    [discriminate|].
  pose proof (phase_le_3 cfg) as Hphase.
  unfold Write_fuel in Hfuel.
  destruct (Z.leb_spec (leftover cfg w) 0) as [Hle|Hgt]; cbn [andb].
  - destruct (behind w) eqn:Hb; cbn [negb].
    + destruct sync.
      * unfold bind.
        pose proof (total_spin_read (word READ_INDEX w) w) as Ht.
        destruct (spin_read (Z.to_nat READ_SPINS) 0 (word READ_INDEX w) w)
          as [[[]|e|] w1] eqn:Es; [|discriminate|contradiction].
        apply spin_read_consumes in Es as [_ Hlt]. specialize (Hlt eq_refl).
        apply IH. unfold Write_fuel. specialize (Hphase w1). lia.
      * unfold bind at 1.
        pose proof (total_Atomics_waitAsync READ_INDEX (word READ_INDEX w)
                      None w) as Ht.
        destruct (Atomics_waitAsync READ_INDEX (word READ_INDEX w) None w)
          as [[[v|]|e|] w1] eqn:Ea; [| |discriminate|contradiction].
        -- apply waitAsync_settled_consumes in Ea.
           apply IH. unfold Write_fuel. specialize (Hphase w1). lia.
        -- discriminate.
    + unfold bind.
      change (wrap w) with (Returned tt, snd (wrap w)). cbv beta iota.
      apply IH. unfold Write_fuel, phase in *. rewrite Hb in Hfuel.
      assert (Hb1 : behind (snd (wrap w)) = true).
      { unfold behind, word. cbn.
        apply orb_true_iff. right. apply Z.ltb_lt.
        unfold word in Hcyc. cbn [Atomics_load] in Hcyc. lia. }
      rewrite Hb1. change (reader (snd (wrap w))) with (reader w).
      destruct (0 <? leftover cfg (snd (wrap w)));
        destruct (0 <? leftover cfg w); lia.
  - cbn [Buffer_byteLength string_of]. rewrite bind_ret.
    destruct (Z.ltb_spec (leftover cfg w) (len (utf8 q) + EXTRA_SPACE cfg))
      as [Hsplit|Hfits].
    + unfold bind.
      pose proof (total_store cfg (slice q 0 (leftover cfg w)) 1 w) as Ht.
      destruct (_store cfg (slice q 0 (leftover cfg w)) 1 w)
        as [[[]|e|] w1] eqn:Est; [|discriminate|contradiction].
      apply store_effect in Est
        as (Hr & Hc & Hri & Hrc & Hs & Hempty).
      apply IH. unfold Write_fuel. rewrite Hr.
      rewrite slice_tail, length_drop by assumption.
      destruct q as [|c q'].
      * assert (Hse : slice "" 0 (leftover cfg w) = EmptyString)
          by (rewrite slice_head by assumption; now destruct (Z.to_nat _)).
        specialize (Hempty Hse). cbn [String.length]. cbn [utf8] in Hsplit.
        change (len []) with 0 in Hsplit.
        replace (phase cfg w1) with (phase cfg w - 1)%nat; [|].
        -- assert (phase cfg w <> 0%nat); [|lia].
           unfold phase.
           replace (0 <? leftover cfg w) with true
             by (symmetry; apply Z.ltb_lt; lia).
           destruct (behind w); lia.
        -- unfold phase, leftover, behind in Hgt, Hsplit |- *.
           rewrite Hri, Hrc, Hc, Hs, Hempty.
           destruct (Z.ltb_spec (word READ_CYCLE w) (_cycle w));
             destruct (Z.gtb_spec (word READ_INDEX w) (_write w));
             destruct (Z.gtb_spec (word READ_INDEX w)
                         (_write w + (EXTRA_SPACE cfg + 1)));
             cbn [orb] in *;
             repeat match goal with
               | |- context [0 <? ?a] => destruct (Z.ltb_spec 0 a)
               end;
             lia.
      * specialize (Hphase w1). cbn [String.length] in *. lia.
    + unfold bind.
      pose proof (total_store cfg q 0 w) as Ht.
      destruct (_store cfg q 0 w) as [[[]|e|] w1];
        [discriminate|discriminate|contradiction].
Qed.

(** The fuel, as a bound that does not look at the cursors. *)
Lemma Write_total (sync : bool) (q : string) (w : writer) (fuel : nat) :
  (4 * (List.length (reader w) + String.length q) + 4 <= fuel)%nat ->
  fst (Write cfg fuel sync (Some q) w) <> OutOfFuel.
Proof.
  intros H. apply Write_total_above.
  unfold Write_fuel. pose proof (phase_le_3 cfg w). lia.
Qed.

End Termination.

(** X29.  The split law, call by call.  An ASCII payload [p] longer
    than [|B| - EXTRA_SPACE - 1] goes through the write engine on a
    writable writer whose cursor is not negative and whose reader keeps
    its index inside the ring.  The call returns or throws (fuel above
    four times the length of the payload and of the reader's script is
    enough).  If it returns [false], the frames it has logged are one or
    more frames marked not final followed by exactly one final frame, and
    their payloads together are [p].  If it returns [true]
    (backpressure), it has logged only frames marked not final, they
    carry a prefix of [p], and the rest of [p] has been appended to the
    overflow queue. *)
Theorem split_law_by_outcome :
  forall (cfg : config) (fuel : nat) (sync : bool) (p : string)
         (w : writer),
    0 <= PREFIX_SIZE cfg -> 0 <= POSTFIX_SIZE cfg ->
    steady w ->
    ascii_only p = true ->
    len (utf8 p) > ring_size w - EXTRA_SPACE cfg - 1 ->
    (4 * (List.length (reader w) + String.length p) + 4 <= fuel)%nat ->
    exists r w',
      Write cfg fuel sync (Some p) w = (r, w') /\
      r <> OutOfFuel /\
      (r = Returned false ->
       exists fs, frames w' = frames w ++ fs /\ split_frames fs (utf8 p)) /\
      (r = Returned true ->
       exists fs rest,
         frames w' = frames w ++ fs /\
         Forall not_final fs /\
         _extraBuffer w' = _extraBuffer w ++ [Some rest] /\
         List.concat (payloads fs) ++ utf8 rest = utf8 p).
Proof.
  intros cfg fuel sync p w Hpre Hpost Hst Hp Hlong Hfuel.
  pose proof (Write_total cfg sync p w fuel Hfuel) as Htotal.
  destruct (Write cfg fuel sync (Some p) w) as [r w'] eqn:H.
  exists r, w'. split; [reflexivity|]. split; [exact Htotal|].
  apply (Write_frames cfg Hpre Hpost) in H; try assumption.
  split; intros ->; cbn [Write_outcome] in H.
  - destruct H as (heads & last & Hf & Hnf & Hl & Hc & Hfit).
    exists (heads ++ [last]). split; [exact Hf|].
    exists heads, last. repeat split; try assumption.
    intros ->. specialize (Hfit eq_refl). unfold EXTRA_SPACE in *. lia.
  - destruct H as (heads & rest & Hf & Hnf & Hx & Hc).
    exists heads, rest. repeat split; assumption.
Qed.

Lemma split_law_by_outcome_witness :
  exists r w',
    Write plain 72 true (Some "hello world 1234"%string)
      (fresh 16 [reads_to 16]) = (r, w') /\
    r <> OutOfFuel /\
    (r = Returned false ->
     exists fs,
       frames w' = frames (fresh 16 [reads_to 16]) ++ fs /\
       split_frames fs (utf8 "hello world 1234")) /\
    (r = Returned true ->
     exists fs rest,
       frames w' = frames (fresh 16 [reads_to 16]) ++ fs /\
       Forall not_final fs /\
       _extraBuffer w' =
         _extraBuffer (fresh 16 [reads_to 16]) ++ [Some rest] /\
       List.concat (payloads fs) ++ utf8 rest = utf8 "hello world 1234").
Proof.
  apply (split_law_by_outcome plain 72 true "hello world 1234"
           (fresh 16 [reads_to 16])).
  - discriminate.
  - discriminate.
  - split; [reflexivity|]. split; [discriminate|].
    split; [discriminate | repeat constructor].
  - reflexivity.
  - reflexivity.
  - vm_compute. repeat constructor.
Defined.

(** The run of the witness returns [false] after two frames: eleven bytes
    marked not final, then the last five. *)
Example split_law_run :
  exists w',
    writeSync plain 72 (Some "hello world 1234"%string)
      (fresh 16 [reads_to 16]) = (Returned false, w') /\
    frames w' = [mkFrame 0 (utf8 "hello world") 1; mkFrame 0 (utf8 " 1234") 0].
Proof.
  exists (snd (writeSync plain 72 (Some "hello world 1234"%string)
                 (fresh 16 [reads_to 16]))).
  vm_compute. split; reflexivity.
Qed.

(** A write that meets backpressure stops after the frames that fit:
    sixteen bytes written with [write] into a fresh ring of sixteen bytes
    whose reader stands still log a single frame, marked not final, and
    the call returns [true]; the final frame has not followed yet. *)
Example split_is_suspended_under_backpressure :
  writable (fresh 16 []) = true /\
  len (utf8 "hello world 1234") > ring_size (fresh 16 []) - EXTRA_SPACE plain - 1 /\
  invoke_write plain 4 (Some "hello world 1234"%string) (fresh 16 []) =
    (Returned true, stalled) /\
  frames stalled = [mkFrame 0 (utf8 "hello world") 1] /\
  _extraBuffer stalled = [Some " 1234"%string].
Proof.
  split; [reflexivity|]. split; [reflexivity|].
  split; [vm_compute; reflexivity|]. split; vm_compute; reflexivity.
Qed.

(** [Write] measures the payload in bytes and cuts it in code units.
    Twelve accented letters are 24 bytes; the first slice takes eleven of
    them, 22 bytes, where eleven bytes fit.  [_store] writes the six
    letters that fit and then puts the mark behind the end of the ring,
    which throws. *)
Example split_of_accented_payload_overruns :
  fst (writeSync plain 52 (Some (accented 12)) (fresh 16 [])) =
    Thrown RangeError /\
  frames (snd (writeSync plain 52 (Some (accented 12)) (fresh 16 []))) = [].
Proof. vm_compute. split; reflexivity. Qed.

Lemma prefix_sums_to_app (b c : list nat) :
  prefix_sums_to (list_sum b) (b ++ c) = true.
Proof.
  induction b as [|x b IH].
  - destruct c; reflexivity.
  - change (list_sum (x :: b)) with (x + list_sum b)%nat.
    cbn [app prefix_sums_to].
    apply orb_true_iff. right. apply andb_true_iff. split.
    + apply Nat.leb_le. lia.
    + replace (x + list_sum b - x)%nat with (list_sum b) by lia. exact IH.
Qed.

Lemma run_sums_to_app (a b c : list nat) :
  run_sums_to (list_sum b) (a ++ b ++ c) = true.
Proof.
  induction a as [|x a IH].
  - cbn [app]. destruct (b ++ c) eqn:E; cbn [run_sums_to];
      rewrite <- ?E, prefix_sums_to_app; reflexivity.
  - cbn [app run_sums_to]. rewrite IH. apply orb_true_r.
Qed.

(** C2.  The split law fails on the code, on two inputs.  First, in a
    ring of 32 bytes behind ["ab"], with a reader that consumes:
    thirty digits, more than [|B| - EXTRA_SPACE - 1 = 27] bytes, are
    written on a writable writer.  Their first twenty bytes are stored in
    a frame marked not final and the rest is queued; ["q"] is written and
    queued behind it.  The first drain stores two more digits in a frame
    marked not final, meets backpressure again and queues the last eight
    digits with the stub's [push], behind ["q"].  The second drain stores
    ["q"] in a final frame, then the eight digits.  Everything is
    drained, and the log holds the frames of the thirty digits with the
    frame of ["q"] between them: no run of consecutive frames of the log
    is a split of the thirty digits, and the frames marked not final are
    closed by the final frame of ["q"].  Second, bytes against code
    units: twelve accented letters, 24 bytes, written into a fresh ring
    of sixteen bytes throw a [RangeError] out of [_store] and log no
    frame at all. *)
Theorem split_law_fails_on_requeue_and_on_code_units :
  let run := after plain 16 split_then_late (fresh 32 []) in
  writable (fresh 32 []) = true /\
  len (utf8 thirty) > ring_size (fresh 32 []) - EXTRA_SPACE plain - 1 /\
  frames run =
    [mkFrame 0 (utf8 "ab") 0;
     mkFrame 7 (utf8 "01234567890123456789") 1;
     mkFrame 0 (utf8 "01") 1;
     mkFrame 7 (utf8 "q") 0;
     mkFrame 13 (utf8 "23456789") 0] /\
  _extraBuffer run = [] /\
  promises run = [] /\
  (forall before fs behind,
     frames run = before ++ fs ++ behind ->
     ~ split_frames fs (utf8 thirty)) /\
  split_frames (firstn 3 (skipn 1 (frames run)))
    (utf8 "0123456789012345678901q") /\
  writable (fresh 16 []) = true /\
  len (utf8 (accented 12)) >
    ring_size (fresh 16 []) - EXTRA_SPACE plain - 1 /\
  fst (writeSync plain 52 (Some (accented 12)) (fresh 16 [])) =
    Thrown RangeError /\
  frames (snd (writeSync plain 52 (Some (accented 12)) (fresh 16 []))) = [].
Proof.
  intros run.
  assert (Hf : frames run =
    [mkFrame 0 (utf8 "ab") 0;
     mkFrame 7 (utf8 "01234567890123456789") 1;
     mkFrame 0 (utf8 "01") 1;
     mkFrame 7 (utf8 "q") 0;
     mkFrame 13 (utf8 "23456789") 0]) by (vm_compute; reflexivity).
  split; [reflexivity|]. split; [vm_compute; reflexivity|].
  split; [exact Hf|].
  split; [vm_compute; reflexivity|]. split; [vm_compute; reflexivity|].
  split.
  { intros before fs behind Hrun (heads & last & _ & _ & _ & _ & Hc).
    rewrite Hf in Hrun.
    apply (f_equal (fun l => map (@List.length Z) (payloads l))) in Hrun.
    unfold payloads in Hrun. rewrite !map_app in Hrun.
    apply (f_equal (@List.length Z)) in Hc.
    rewrite length_concat in Hc. unfold payloads in Hc.
    pose proof (run_sums_to_app
                  (map (@List.length Z) (map f_payload before))
                  (map (@List.length Z) (map f_payload fs))
                  (map (@List.length Z) (map f_payload behind))) as Hsum.
    rewrite <- Hrun, Hc in Hsum. vm_compute in Hsum. discriminate. }
  split.
  { rewrite Hf.
    exists [mkFrame 7 (utf8 "01234567890123456789") 1;
            mkFrame 0 (utf8 "01") 1], (mkFrame 7 (utf8 "q") 0).
    split; [reflexivity|]. split; [discriminate|].
    split; [repeat constructor|]. split; [reflexivity|].
    vm_compute. reflexivity. }
  split; [reflexivity|]. split; [vm_compute; reflexivity|].
  split; vm_compute; reflexivity.
Qed.

(** * Further properties of the lifecycle controller *)

(** Runs the straight-line part of a method in hypothesis [E]. *)
Ltac run_in E :=
  unfold load, store, notify, emit, then_ in E;
  unfold bind, modify, gets, ret, throw in E;
  cbv beta iota in E.

(** ** Destroy *)

(** Everything [destroy(err)] does to a writable writer, whether it
    returns or the error leaves it at [emit('error')]: what comes after
    that call, the flags [_destroyed] and [_closed] and the ['close']
    event, is reached only when the error is heard. *)
Lemma destroy_on_writable (cfg : config) (err : option error) (w : writer) :
  writable w = true ->
  exists w',
    destroy cfg err w = (destroy_answer err w, w') /\
    emitted w' = emitted w ++ destroy_log err w /\
    _destroyed w' = heard err w /\
    closed w' = heard err w || _closed w /\
    _watching w' = false /\
    _errored w' = match err with Some e => Some e | None => _errored w end /\
    writable w' = negb (heard err w) /\
    ring_untouched w w' /\
    _ready w' = _ready w /\
    _finished w' = _finished w /\
    _ending w' = _ending w /\
    promises w' = promises w /\
    reader w' = reader w /\
    word READ_PROCESS w' = word READ_PROCESS w /\
    (if ((word WRITE_PROCESS w =? READY_SIGN cfg)
         || (word WRITE_PROCESS w =? EMPTY_SIGN cfg))
        && ((word READ_PROCESS w =? READY_SIGN cfg)
            || (word READ_PROCESS w =? EMPTY_SIGN cfg))
     then
       word WRITE_PROCESS w' =
         to_int32 (match err with
                   | Some _ => FAILED_SIGN cfg
                   | None => FINISHED_SIGN cfg
                   end) /\
       notified w' = notified w ++ [WRITE_PROCESS]
     else
       word WRITE_PROCESS w' = word WRITE_PROCESS w /\
       notified w' = notified w) /\
    error_listener w' = error_listener w /\
    _ended w' = _ended w /\
    _process w' = _process w.
Proof.
  intros Hw.
  destruct (destroy cfg err w) as [r w'] eqn:E. exists w'.
  unfold destroy in E. rewrite bind_gets, Hw in E. cbn [negb] in E.
  unfold writable in Hw. apply andb_true_iff in Hw as [Hd He].
  apply negb_true_iff in Hd. apply negb_true_iff in He.
  unfold closed, writable, ring_untouched, word, heard, destroy_answer,
    destroy_log.
  destruct err as [e|]; run_in E; fields;
    match type of E with context [if ?c then _ else _] => destruct c end;
    cbv beta iota in E |- *; fields;
    try (destruct (error_listener w) eqn:Hl; cbv beta iota in E);
    injection E as <- <-; fields;
    rewrite <- ?app_assoc, ?Hd, ?He; repeat split; assumption.
Qed.

(** [destroy(err)] when the error is heard: it returns, and the writer is
    destroyed and closed. *)
Lemma destroy_heard (cfg : config) (err : option error) (w : writer) :
  writable w = true ->
  heard err w = true ->
  exists w',
    destroy cfg err w = (Returned tt, w') /\
    emitted w' = emitted w ++ destroy_events err /\
    _destroyed w' = true /\
    closed w' = true /\
    _watching w' = false /\
    _errored w' = match err with Some e => Some e | None => _errored w end /\
    writable w' = false /\
    ring_untouched w w' /\
    _ready w' = _ready w /\
    _finished w' = _finished w /\
    _ending w' = _ending w /\
    promises w' = promises w /\
    reader w' = reader w /\
    word READ_PROCESS w' = word READ_PROCESS w /\
    (if ((word WRITE_PROCESS w =? READY_SIGN cfg)
         || (word WRITE_PROCESS w =? EMPTY_SIGN cfg))
        && ((word READ_PROCESS w =? READY_SIGN cfg)
            || (word READ_PROCESS w =? EMPTY_SIGN cfg))
     then
       word WRITE_PROCESS w' =
         to_int32 (match err with
                   | Some _ => FAILED_SIGN cfg
                   | None => FINISHED_SIGN cfg
                   end) /\
       notified w' = notified w ++ [WRITE_PROCESS]
     else
       word WRITE_PROCESS w' = word WRITE_PROCESS w /\
       notified w' = notified w).
Proof.
  intros Hw Hh.
  destruct (destroy_on_writable cfg err w Hw)
    as (w' & H1 & H2 & H3 & H4 & H5 & H6 & H7 & H8 & H9 & H10 & H11 & H12
        & H13 & H14 & H15 & _).
  exists w'. rewrite Hh in *. cbn [negb orb] in *.
  assert (Ha : destroy_answer err w = Returned tt /\
               destroy_log err w = destroy_events err).
  { unfold destroy_answer, destroy_log, destroy_events, heard in *.
    destruct err; [rewrite Hh|]; split; reflexivity. }
  destruct Ha as [Ha Hl]. rewrite Ha in H1. rewrite Hl in H2.
  repeat (split; [assumption|]). assumption.
Qed.

(** [destroy(err)] when nobody listens for ['error']: the error leaves
    the call at [emit('error')], after the watch was switched off, the
    sign published and the error recorded; the writer is neither
    destroyed nor closed, emits no ['close'] and is still writable. *)
Lemma destroy_unheard (cfg : config) (e : error) (w : writer) :
  writable w = true ->
  error_listener w = false ->
  exists w',
    destroy cfg (Some e) w = (Thrown e, w') /\
    emitted w' = emitted w ++ [ev_error e] /\
    _destroyed w' = false /\
    closed w' = _closed w /\
    _watching w' = false /\
    _errored w' = Some e /\
    writable w' = true /\
    ring_untouched w w' /\
    _ready w' = _ready w /\
    _finished w' = _finished w /\
    _ending w' = _ending w /\
    promises w' = promises w /\
    reader w' = reader w /\
    word READ_PROCESS w' = word READ_PROCESS w /\
    (if ((word WRITE_PROCESS w =? READY_SIGN cfg)
         || (word WRITE_PROCESS w =? EMPTY_SIGN cfg))
        && ((word READ_PROCESS w =? READY_SIGN cfg)
            || (word READ_PROCESS w =? EMPTY_SIGN cfg))
     then
       word WRITE_PROCESS w' = to_int32 (FAILED_SIGN cfg) /\
       notified w' = notified w ++ [WRITE_PROCESS]
     else
       word WRITE_PROCESS w' = word WRITE_PROCESS w /\
       notified w' = notified w) /\
    error_listener w' = false.
Proof.
  intros Hw Hl.
  destruct (destroy_on_writable cfg (Some e) w Hw)
    as (w' & H1 & H2 & H3 & H4 & H5 & H6 & H7 & H8 & H9 & H10 & H11 & H12
        & H13 & H14 & H15 & H16 & _).
  exists w'.
  unfold heard, destroy_answer, destroy_log in *. rewrite Hl in *.
  cbn [negb orb] in *.
  repeat (split; [assumption|]). assumption.
Qed.

(** X1.  [destroy(err)] on a writable writer.  In every case it switches
    the watch off, records [err] when one is given, and touches neither
    the ring, the cursor and cycle, the words [WRITE_INDEX] and
    [WRITE_CYCLE], the frame log, the overflow queue nor the binding of
    [write].  When no error is given, or a listener for ['error'] is
    registered, it returns: it has emitted ['error'] with [err] (when
    given) and then ['close'], the writer is destroyed and closed and
    not writable any more.  When an error is given and nobody listens
    for ['error'], the error leaves the call at [emit('error')]: the
    event is emitted, but ['close'] is not, and the writer is neither
    destroyed nor closed and is still writable. *)
Theorem destroy_closes :
  forall (cfg : config) (err : option error) (w : writer),
    writable w = true ->
    exists r w',
      destroy cfg err w = (r, w') /\
      _watching w' = false /\
      _errored w' = match err with Some e => Some e | None => _errored w end /\
      ring_untouched w w' /\
      (heard err w = true ->
       r = Returned tt /\
       emitted w' = emitted w ++ destroy_events err /\
       _destroyed w' = true /\
       closed w' = true /\
       writable w' = false) /\
      (forall e,
         err = Some e -> error_listener w = false ->
         r = Thrown e /\
         emitted w' = emitted w ++ [ev_error e] /\
         _destroyed w' = false /\
         closed w' = _closed w /\
         writable w' = true).
Proof.
  intros cfg err w Hw.
  destruct (destroy_on_writable cfg err w Hw)
    as (w' & H1 & _ & _ & _ & H5 & H6 & _ & H8 & _).
  exists (destroy_answer err w), w'.
  split; [exact H1|]. split; [exact H5|]. split; [exact H6|].
  split; [exact H8|]. split.
  - intros Hh.
    destruct (destroy_heard cfg err w Hw Hh)
      as (w1 & K1 & K2 & K3 & K4 & _ & _ & K7 & _).
    rewrite H1 in K1. injection K1 as Ha <-.
    repeat split; assumption.
  - intros e -> Hl.
    destruct (destroy_unheard cfg e w Hw Hl)
      as (w1 & K1 & K2 & K3 & K4 & _ & _ & K7 & _).
    rewrite H1 in K1. injection K1 as Ha <-.
    repeat split; assumption.
Qed.

Lemma destroy_closes_witness :
  exists r w',
    destroy plain (Some (other_error "stop")) stalled = (r, w') /\
    _watching w' = false /\
    _errored w' = Some (other_error "stop") /\
    ring_untouched stalled w' /\
    (heard (Some (other_error "stop")) stalled = true ->
     r = Returned tt /\
     emitted w' =
       emitted stalled ++ destroy_events (Some (other_error "stop")) /\
     _destroyed w' = true /\
     closed w' = true /\
     writable w' = false) /\
    (forall e,
       Some (other_error "stop") = Some e ->
       error_listener stalled = false ->
       r = Thrown e /\
       emitted w' = emitted stalled ++ [ev_error e] /\
       _destroyed w' = false /\
       closed w' = _closed stalled /\
       writable w' = true).
Proof.
  apply (destroy_closes plain (Some (other_error "stop")) stalled).
  reflexivity.
Defined.

(** X2.  The sign [destroy] publishes.  On a writable writer
    [WRITE_PROCESS] is overwritten only when both process words hold
    [READY_SIGN] or [EMPTY_SIGN]: then it receives [FAILED_SIGN] when an
    error is given and [FINISHED_SIGN] when none is, and the slot is
    notified.  In every other case [WRITE_PROCESS] keeps its value and
    nothing is notified: a writer destroyed while the reader is finishing
    or gone, or after [end] has published [FINISHING_SIGN], never says
    [FAILED]. *)
Theorem destroy_publishes_sign_only_while_both_active :
  forall (cfg : config) (err : option error) (w : writer),
    writable w = true ->
    let active s := (s =? READY_SIGN cfg) || (s =? EMPTY_SIGN cfg) in
    let w' := snd (destroy cfg err w) in
    if active (word WRITE_PROCESS w) && active (word READ_PROCESS w) then
      word WRITE_PROCESS w' =
        to_int32 (match err with
                  | Some _ => FAILED_SIGN cfg
                  | None => FINISHED_SIGN cfg
                  end) /\
      notified w' = notified w ++ [WRITE_PROCESS]
    else
      word WRITE_PROCESS w' = word WRITE_PROCESS w /\
      notified w' = notified w.
Proof.
  intros cfg err w Hw active w'. subst active w'.
  destruct (destroy_on_writable cfg err w Hw)
    as (w' & -> & _ & _ & _ & _ & _ & _ & _ & _ & _ & _ & _ & _ & _ & H & _).
  cbn [snd]. exact H.
Qed.

Lemma destroy_publishes_sign_only_while_both_active_witness :
  word WRITE_PROCESS
    (snd (destroy plain (Some (other_error "stop")) (attached []))) =
    to_int32 (FAILED_SIGN plain) /\
  notified (snd (destroy plain (Some (other_error "stop")) (attached []))) =
    notified (attached []) ++ [WRITE_PROCESS].
Proof.
  exact (destroy_publishes_sign_only_while_both_active plain
           (Some (other_error "stop")) (attached []) eq_refl).
Defined.

(** X3.  A [destroy] that returns is final for [destroy]: a second call,
    with any error, returns at once and changes nothing, and the two
    calls together have emitted at most one ['close']. *)
Theorem destroy_twice_is_destroy_once :
  forall (cfg : config) (first second : option error) (w w' : writer),
    destroy cfg first w = (Returned tt, w') ->
    destroy cfg second w' = (Returned tt, w') /\
    (closes w' <= S (closes w))%nat.
Proof.
  intros cfg first second w w' Hrun.
  destruct (writable w) eqn:Hw.
  - destruct (destroy_on_writable cfg first w Hw)
      as (w1 & Hd & He & _ & _ & _ & _ & Hnw & _).
    rewrite Hd in Hrun. injection Hrun as Ha <-.
    assert (Hh : heard first w = true).
    { unfold destroy_answer, heard in *.
      destruct first; [|reflexivity].
      destruct (error_listener w); [reflexivity | discriminate]. }
    rewrite Hh in Hnw. cbn [negb] in Hnw. split.
    + unfold destroy, bind at 1, gets at 1. rewrite Hnw. reflexivity.
    + unfold closes. rewrite He, filter_app, length_app.
      unfold destroy_log. destruct first; destruct (error_listener w);
        cbn; lia.
  - assert (Hd : forall e, destroy cfg e w = (Returned tt, w)).
    { intros e. unfold destroy, bind at 1, gets at 1. rewrite Hw.
      reflexivity. }
    rewrite Hd in Hrun. injection Hrun as <-.
    split; [apply Hd | lia].
Qed.

Lemma destroy_twice_is_destroy_once_witness :
  destroy plain (Some (other_error "again"))
    (snd (destroy plain None stalled)) =
    (Returned tt, snd (destroy plain None stalled)) /\
  (closes (snd (destroy plain None stalled)) <= S (closes stalled))%nat.
Proof.
  apply (destroy_twice_is_destroy_once plain None
           (Some (other_error "again")) stalled
           (snd (destroy plain None stalled))).
  vm_compute. reflexivity.
Defined.

(** ** Orderly end *)

Lemma reader_only_refl w : reader_only w w.
Proof. unfold reader_only. destruct w. repeat split. Qed.

Lemma reader_only_trans a b c :
  reader_only a b -> reader_only b c -> reader_only a c.
Proof.
  unfold reader_only.
  intros (H1 & H2 & H3 & H4) (K1 & K2 & K3 & K4).
  split; [|repeat split; congruence].
  clear H2 H3 H4 K2 K3 K4.
  remember (reader b) as rb. remember (_sharedState b) as sb.
  remember (reader c) as rc. remember (_sharedState c) as sc.
  clear Heqrb Heqsb. subst b. rewrite K1 at 1.
  clear. destruct a. reflexivity.
Qed.

Lemma reader_step_keeps_writer_words (t : tick) (st : shared) :
  write_index (reader_step t st) = write_index st /\
  write_cycle (reader_step t st) = write_cycle st /\
  write_process (reader_step t st) = write_process st.
Proof. destruct t as [[i|] [c|] [p|] n]; repeat split. Qed.

Lemma silent_reader_step (t : tick) (st : shared) :
  silent t -> read_process (reader_step t st) = read_process st.
Proof.
  unfold silent. destruct t as [[i|] [c|] [p|] n]; cbn; intros H;
    try discriminate; reflexivity.
Qed.

(** [Atomics.wait] returns; it lets nothing but the reader move, and a
    silent reader leaves [READ_PROCESS] as it is. *)
Lemma Atomics_wait_spec (s : slot) (expected timeout : Z) (w : writer) :
  exists r w1,
    Atomics_wait s expected timeout w = (Returned r, w1) /\
    reader_only w w1 /\
    (Forall silent (reader w) ->
     word READ_PROCESS w1 = word READ_PROCESS w /\ Forall silent (reader w1)).
Proof.
  unfold Atomics_wait, load. rewrite bind_gets.
  destruct (_ =? expected).
  - unfold bind, reader_acts, ret.
    destruct (reader w) as [|t rest] eqn:Er.
    + exists timed_out, w. split; [reflexivity|].
      split; [apply reader_only_refl|]. rewrite Er. auto.
    + eexists _, _. split; [reflexivity|]. split.
      * unfold reader_only, word. fields.
        pose proof (reader_step_keeps_writer_words t (_sharedState w))
          as (H1 & H2 & H3).
        repeat split; assumption.
      * intros Hs. inversion Hs; subst. unfold word. fields.
        split; [now apply silent_reader_step | assumption].
  - exists not_equal, w. split; [reflexivity|].
    split; [apply reader_only_refl | auto].
Qed.

(** The loop of [end] returns within its budget of ten turns, lets
    nothing but the reader move, and comes back with the status it started
    from when the reader is silent. *)
Lemma spin_finish_spec (cfg : config) (budget : nat) :
  forall spins status w,
    0 <= spins < FINISH_SPINS ->
    Z.of_nat budget + spins = FINISH_SPINS ->
    exists s w1,
      spin_finish cfg budget spins status w = (Returned s, w1) /\
      reader_only w w1 /\
      (Forall silent (reader w) -> word READ_PROCESS w = status ->
       s = status).
Proof.
  induction budget as [|budget IH]; intros spins status w Hs Hb;
    [unfold FINISH_SPINS in *; lia|].
  cbn [spin_finish].
  destruct (_ || _).
  - destruct (Atomics_wait_spec READ_PROCESS status SPIN_TIMEOUT w)
      as (r & w1 & Hwait & Hro & Hsilent).
    unfold bind at 1. rewrite Hwait.
    unfold load. rewrite bind_gets. fold (word READ_PROCESS w1).
    destruct (Z.eqb_spec (spins + 1) FINISH_SPINS) as [Hlast|Hmore].
    + exists (word READ_PROCESS w1), w1. split; [reflexivity|].
      split; [exact Hro|]. intros Hq Hst. destruct (Hsilent Hq). congruence.
    + destruct (IH (spins + 1) (word READ_PROCESS w1) w1)
        as (s & w2 & Hrun & Hro2 & Hsilent2);
        [unfold FINISH_SPINS in *; lia | unfold FINISH_SPINS in *; lia |].
      exists s, w2. split; [exact Hrun|].
      split; [eapply reader_only_trans; eassumption|].
      intros Hq Hst. destruct (Hsilent Hq) as [Hp Hq1].
      rewrite Hsilent2 by auto. congruence.
  - exists status, w. split; [reflexivity|].
    split; [apply reader_only_refl | auto].
Qed.

(** What [end()] does on a writable writer, with a reader that moves as
    its script says.  The watch is off afterwards.  Either the writer has
    finished: [end] returns, and the writer is ended, finished and not
    writable.  Or [end] has called [destroy] with one of its two errors,
    the timeout when the reader was silent, after setting [_ending] back:
    with a listener for ['error'] it returns and the writer is destroyed
    and closed; with none the error leaves [end], and the writer is
    neither destroyed nor closed and is writable again. *)
Lemma end_core (cfg : config) (w : writer) :
  writable w = true ->
  exists r w',
    end_ cfg w = (r, w') /\
    _watching w' = false /\
    error_listener w' = error_listener w /\
    ((r = Returned tt /\
      writable w' = false /\
      emitted w' = emitted w ++ [ev_finish] /\
      writableFinished w' = true /\
      writableEnded w' = true /\
      _ended w' = true /\
      _destroyed w' = false /\
      _closed w' = _closed w /\
      _errored w' = _errored w /\
      _process w' = FINISHED_SIGN cfg /\
      word WRITE_PROCESS w' = to_int32 (FINISHED_SIGN cfg) /\
      ~ Forall silent (reader w)) \/
     (exists e,
        (e = FAILED_TO_FINISH_TIMEOUT \/
         e = FAILED_TO_FINISH_READER /\ ~ Forall silent (reader w)) /\
        r = destroy_answer (Some e) w /\
        emitted w' = emitted w ++ destroy_log (Some e) w /\
        _destroyed w' = error_listener w /\
        closed w' = error_listener w || _closed w /\
        writable w' = negb (error_listener w) /\
        _errored w' = Some e /\
        writableFinished w' = _finished w /\
        writableEnded w' = false /\
        _ended w' = _ended w)).
Proof.
  intros Hw.
  assert (Hflags : _destroyed w = false /\ _ending w = false).
  { unfold writable in Hw. destruct (_destroyed w), (_ending w);
      try discriminate. split; reflexivity. }
  destruct Hflags as [Hd He].
  unfold end_. rewrite bind_gets, Hw. cbn [negb].
  unfold bind at 1, modify at 1. unfold bind at 1, modify at 1.
  unfold bind at 1, modify at 1. unfold load. rewrite bind_gets. fields.
  set (origin := read_process (_sharedState w)).
  set (w0 := set_ending true
               (set_watching false (set_process (FINISHING_SIGN cfg) w))).
  unfold bind at 1.
  assert (Hpub :
    exists w0',
      (if (origin =? READY_SIGN cfg) || (origin =? EMPTY_SIGN cfg)
          || (origin =? FINISHING_SIGN cfg)
       then store WRITE_PROCESS (FINISHING_SIGN cfg);; notify WRITE_PROCESS
       else ret tt) w0 = (Returned tt, w0') /\
      emitted w0' = emitted w /\ _destroyed w0' = false /\
      _finished w0' = _finished w /\ _errored w0' = _errored w /\
      reader w0' = reader w /\ word READ_PROCESS w0' = origin /\
      _ending w0' = true /\ _watching w0' = false /\
      error_listener w0' = error_listener w /\ _closed w0' = _closed w /\
      _ended w0' = _ended w).
  { destruct (_ || _); eexists; (split; [reflexivity|]);
      unfold word; subst w0; fields; repeat split; assumption. }
  destruct Hpub
    as (w0' & -> & Hem & Hdes & Hfin & Herr & Hrd & Hrp & Hend & Hwat
        & Hlis & Hclo & Hded).
  cbv zeta.
  destruct (spin_finish_spec cfg (Z.to_nat FINISH_SPINS) 0 origin w0')
    as (s & w1 & Hspin & (Hro & _) & Hsilent);
    [unfold FINISH_SPINS; lia | unfold FINISH_SPINS; lia|].
  rewrite Hrd in Hsilent.
  unfold bind at 1. rewrite Hspin.
  remember (reader w1) as rd. remember (_sharedState w1) as st.
  clear Heqrd Heqst. subst w1.
  destruct ((s =? FAILED_SIGN cfg) || (s =? origin)) eqn:Hbranch.
  - unfold bind at 1, modify at 1.
    set (w2 := set_ending false (set_reader rd (set_sharedState st w0'))).
    assert (Hw2 : writable w2 = true)
      by (unfold writable; subst w2; fields; rewrite Hdes; reflexivity).
    assert (Hfail : forall e,
      exists w',
        destroy cfg (Some e) w2 = (destroy_answer (Some e) w, w') /\
        _watching w' = false /\
        error_listener w' = error_listener w /\
        emitted w' = emitted w ++ destroy_log (Some e) w /\
        _destroyed w' = error_listener w /\
        closed w' = error_listener w || _closed w /\
        writable w' = negb (error_listener w) /\
        _errored w' = Some e /\
        writableFinished w' = _finished w /\
        writableEnded w' = false /\
        _ended w' = _ended w).
    { intros e.
      destruct (destroy_on_writable cfg (Some e) w2 Hw2)
        as (w' & Hrun & Hev & Hd' & Hc' & Hwa' & He' & Hnw' & _ & _ & Hf'
            & Hg' & _ & _ & _ & _ & Hl' & Hed' & _).
      exists w'.
      unfold heard, destroy_answer, destroy_log, writableFinished,
        writableEnded in *.
      assert (Hl2 : error_listener w2 = error_listener w)
        by (subst w2; fields; exact Hlis).
      rewrite Hl2 in *.
      assert (Hc2 : _closed w2 = _closed w) by (subst w2; fields; exact Hclo).
      assert (He2 : emitted w2 = emitted w) by (subst w2; fields; exact Hem).
      assert (Hf2 : _finished w2 = _finished w)
        by (subst w2; fields; exact Hfin).
      assert (Hg2 : _ending w2 = false) by (subst w2; fields; reflexivity).
      assert (Hed2 : _ended w2 = _ended w) by (subst w2; fields; exact Hded).
      rewrite Hc2 in Hc'. rewrite He2 in Hev. rewrite Hf2 in Hf'.
      rewrite Hg2 in Hg'. rewrite Hed2 in Hed'.
      repeat (split; [assumption|]). assumption. }
    destruct (Z.eqb_spec s origin) as [Hso|Hso].
    + destruct (Hfail FAILED_TO_FINISH_TIMEOUT)
        as (w' & Hrun & Hwa' & Hl' & Hrest).
      eexists _, w'. split; [exact Hrun|]. split; [exact Hwa'|].
      split; [exact Hl'|]. right. exists FAILED_TO_FINISH_TIMEOUT.
      split; [left; reflexivity|]. split; [reflexivity|]. exact Hrest.
    + destruct (Hfail FAILED_TO_FINISH_READER)
        as (w' & Hrun & Hwa' & Hl' & Hrest).
      eexists _, w'. split; [exact Hrun|]. split; [exact Hwa'|].
      split; [exact Hl'|]. right. exists FAILED_TO_FINISH_READER.
      split; [right; split; [reflexivity|]|].
      { intros Hq. apply Hso. apply Hsilent; [exact Hq | exact Hrp]. }
      split; [reflexivity|]. exact Hrest.
  - apply orb_false_iff in Hbranch as [_ Hso].
    apply Z.eqb_neq in Hso.
    eexists _, _.
    split; [unfold store, notify, emit, bind, modify; reflexivity|].
    unfold writable, writableFinished, writableEnded, word. fields.
    rewrite Hdes, Hend.
    split; [exact Hwat|]. split; [exact Hlis|].
    left. split; [reflexivity|]. split; [reflexivity|].
    split; [rewrite Hem; reflexivity|].
    repeat (split; [first [reflexivity | assumption]|]).
    intros Hq. apply Hso. apply Hsilent; [exact Hq | exact Hrp].
Qed.

(** X4.  [end()] on a writable writer leaves the writer not watching and
    has one of three outcomes.  Either the writer has finished, which
    needs the reader to have stored into [READ_PROCESS]: [end] returns,
    it emitted ['finish'] alone, [_ended], [writableFinished] and
    [writableEnded] are true, the writer is not destroyed, not writable,
    and [WRITE_PROCESS] holds [FINISHED_SIGN].  Or [end] called
    [destroy] with one of its two errors, after setting [_ending] back:
    the error is recorded, [writableEnded] is false again, and [_ended]
    and [writableFinished] are what they were.  Then, with a listener
    for ['error'], [end] returns, having emitted ['error'] and then
    ['close'], and the writer is destroyed, closed and not writable;
    with no listener the error leaves [end] after ['error'] alone was
    emitted, and the writer is neither destroyed nor closed and is
    writable again. *)
Theorem end_finishes_or_destroys :
  forall (cfg : config) (w : writer),
    writable w = true ->
    exists r w',
      end_ cfg w = (r, w') /\
      _watching w' = false /\
      ((r = Returned tt /\
        writable w' = false /\
        emitted w' = emitted w ++ [ev_finish] /\
        writableFinished w' = true /\
        writableEnded w' = true /\
        _ended w' = true /\
        _destroyed w' = false /\
        word WRITE_PROCESS w' = to_int32 (FINISHED_SIGN cfg) /\
        ~ Forall silent (reader w)) \/
       (exists e,
          (e = FAILED_TO_FINISH_TIMEOUT \/
           e = FAILED_TO_FINISH_READER /\ ~ Forall silent (reader w)) /\
          _errored w' = Some e /\
          writableFinished w' = _finished w /\
          writableEnded w' = false /\
          _ended w' = _ended w /\
          ((error_listener w = true /\
            r = Returned tt /\
            emitted w' = emitted w ++ [ev_error e; ev_close] /\
            _destroyed w' = true /\
            closed w' = true /\
            writable w' = false) \/
           (error_listener w = false /\
            r = Thrown e /\
            emitted w' = emitted w ++ [ev_error e] /\
            _destroyed w' = false /\
            closed w' = _closed w /\
            writable w' = true)))).
Proof.
  intros cfg w Hw.
  destruct (end_core cfg w Hw) as (r & w' & Hrun & Hwa & _ & [Hfin|Hfail]).
  - exists r, w'. split; [exact Hrun|]. split; [exact Hwa|]. left.
    destruct Hfin
      as (H1 & H2 & H3 & H4 & H5 & H6 & H7 & _ & _ & _ & H11 & H12).
    repeat (split; [assumption|]). assumption.
  - exists r, w'. split; [exact Hrun|]. split; [exact Hwa|]. right.
    destruct Hfail
      as (e & He & H1 & H2 & H3 & H4 & H5 & H6 & H7 & H8 & H9).
    exists e. repeat (split; [assumption|]).
    unfold destroy_answer, destroy_log in *.
    destruct (error_listener w); cbn [negb orb] in *; [left|right];
      (split; [reflexivity|]); repeat (split; [assumption|]); assumption.
Qed.

Lemma end_finishes_or_destroys_witness :
  exists r w',
    end_ plain (attached finishes_at_once) = (r, w') /\
    _watching w' = false /\
    ((r = Returned tt /\
      writable w' = false /\
      emitted w' = emitted (attached finishes_at_once) ++ [ev_finish] /\
      writableFinished w' = true /\
      writableEnded w' = true /\
      _ended w' = true /\
      _destroyed w' = false /\
      word WRITE_PROCESS w' = to_int32 (FINISHED_SIGN plain) /\
      ~ Forall silent (reader (attached finishes_at_once))) \/
     (exists e,
        (e = FAILED_TO_FINISH_TIMEOUT \/
         e = FAILED_TO_FINISH_READER /\
         ~ Forall silent (reader (attached finishes_at_once))) /\
        _errored w' = Some e /\
        writableFinished w' = _finished (attached finishes_at_once) /\
        writableEnded w' = false /\
        _ended w' = _ended (attached finishes_at_once) /\
        ((error_listener (attached finishes_at_once) = true /\
          r = Returned tt /\
          emitted w' =
            emitted (attached finishes_at_once) ++ [ev_error e; ev_close] /\
          _destroyed w' = true /\
          closed w' = true /\
          writable w' = false) \/
         (error_listener (attached finishes_at_once) = false /\
          r = Thrown e /\
          emitted w' = emitted (attached finishes_at_once) ++ [ev_error e] /\
          _destroyed w' = false /\
          closed w' = _closed (attached finishes_at_once) /\
          writable w' = true)))).
Proof.
  apply (end_finishes_or_destroys plain (attached finishes_at_once)).
  reflexivity.
Defined.

(** [end], on any writer, either returns and leaves the writer not
    writable, or lets an error out that nobody listens for and leaves the
    writer writable, with the watch off. *)
Lemma end_leaves_unwritable (cfg : config) (w : writer) :
  exists r w',
    end_ cfg w = (r, w') /\
    error_listener w' = error_listener w /\
    ((r = Returned tt /\ writable w' = false) \/
     (exists e,
        r = Thrown e /\ writable w = true /\ writable w' = true /\
        error_listener w = false /\ _watching w' = false /\
        _errored w' = Some e)).
Proof.
  destruct (writable w) eqn:Hw.
  - destruct (end_core cfg w Hw)
      as (r & w' & Hrun & Hwa & Hl & [Hfin|Hfail]).
    + exists r, w'. split; [exact Hrun|]. split; [exact Hl|]. left.
      destruct Hfin as (H1 & H2 & _). split; assumption.
    + exists r, w'. split; [exact Hrun|]. split; [exact Hl|].
      destruct Hfail as (e & _ & H1 & _ & _ & _ & H5 & H6 & _).
      unfold destroy_answer in H1.
      destruct (error_listener w); cbn [negb] in H5.
      * left. split; assumption.
      * right. exists e. repeat split; assumption.
  - exists (Returned tt), w. split; [|split; [reflexivity|]].
    + unfold end_. rewrite bind_gets, Hw. reflexivity.
    + left. split; [reflexivity | exact Hw].
Qed.

(** [end] on a writer that is not writable returns at once. *)
Lemma end_on_unwritable (cfg : config) (w : writer) :
  writable w = false -> end_ cfg w = (Returned tt, w).
Proof.
  intros Hnw. unfold end_. rewrite bind_gets, Hnw. reflexivity.
Qed.

(** On a writer that is not writable, the listeners armed for
    ['drain'] do nothing but leave. *)
Lemma call_end_unwritable (cfg : config) (n : nat) :
  forall w,
    writable w = false ->
    call_end cfg n w =
      (Returned tt, set_drain_once (drain_once w - n) w).
Proof.
  induction n as [|n IH]; intros w Hw; cbn [call_end].
  - rewrite Nat.sub_0_r. destruct w; reflexivity.
  - unfold bind at 1, modify at 1. unfold bind at 1.
    rewrite end_on_unwritable by exact Hw.
    rewrite IH by exact Hw. fields.
    replace (Nat.pred (drain_once w) - n)%nat with (drain_once w - S n)%nat
      by lia.
    reflexivity.
Qed.

(** X5.  An [end] that returns is final for [end]: a second call returns
    at once and changes nothing, and any number of the listeners that
    [_watch] armed for the next ['drain'], which all call [end], do
    nothing but leave the list of listeners.  An [end] that lets its
    error out is not final: the writer was writable and is writable
    again. *)
Theorem end_twice_is_end_once :
  forall (cfg : config) (w w' : writer) (r : result unit) (armed : nat),
    end_ cfg w = (r, w') ->
    (r = Returned tt ->
     end_ cfg w' = (Returned tt, w') /\
     call_end cfg armed w' =
       (Returned tt, set_drain_once (drain_once w' - armed) w')) /\
    (forall e,
       r = Thrown e -> writable w = true /\ writable w' = true).
Proof.
  intros cfg w w' r armed Hrun.
  destruct (end_leaves_unwritable cfg w) as (r1 & w1 & Hrun1 & _ & Hcases).
  rewrite Hrun in Hrun1. injection Hrun1 as <- <-.
  split.
  - intros ->.
    destruct Hcases as [[_ Hnw]|(e & He & _)]; [|discriminate].
    split; [exact (end_on_unwritable cfg w' Hnw)|].
    exact (call_end_unwritable cfg armed w' Hnw).
  - intros e ->.
    destruct Hcases as [[He _]|(e' & He & Hw & Hw' & _)]; [discriminate|].
    split; [exact Hw | exact Hw'].
Qed.

Lemma end_twice_is_end_once_witness :
  (Returned tt = Returned tt ->
   end_ plain (snd (end_ plain (attached finishes_at_once))) =
     (Returned tt, snd (end_ plain (attached finishes_at_once))) /\
   call_end plain 2 (snd (end_ plain (attached finishes_at_once))) =
     (Returned tt,
      set_drain_once
        (drain_once (snd (end_ plain (attached finishes_at_once))) - 2)
        (snd (end_ plain (attached finishes_at_once))))) /\
  (forall e,
     Returned tt = Thrown e ->
     writable (attached finishes_at_once) = true /\
     writable (snd (end_ plain (attached finishes_at_once))) = true).
Proof.
  apply (end_twice_is_end_once plain (attached finishes_at_once)
           (snd (end_ plain (attached finishes_at_once)))
           (Returned tt) 2).
  vm_compute. reflexivity.
Defined.

(** X6.  When the reader does not store into [READ_PROCESS] while [end]
    waits, [end] on a writable writer calls [destroy] with the timeout
    error, whatever sign the reader showed at the start: the error is
    recorded, [_ending] is false again and [writableFinished] is what it
    was.  With a listener for ['error'], [end] returns, having emitted
    ['error'] with the timeout and then ['close'], and the writer is
    destroyed and not writable.  With no listener the timeout error
    leaves [end] after ['error'] alone was emitted, and the writer is
    not destroyed and is writable again. *)
Theorem end_times_out_on_a_silent_reader :
  forall (cfg : config) (w : writer),
    writable w = true ->
    Forall silent (reader w) ->
    exists r w',
      end_ cfg w = (r, w') /\
      _errored w' = Some FAILED_TO_FINISH_TIMEOUT /\
      writableFinished w' = _finished w /\
      writableEnded w' = false /\
      (error_listener w = true ->
       r = Returned tt /\
       emitted w' =
         emitted w ++ [ev_error FAILED_TO_FINISH_TIMEOUT; ev_close] /\
       _destroyed w' = true /\
       writable w' = false) /\
      (error_listener w = false ->
       r = Thrown FAILED_TO_FINISH_TIMEOUT /\
       emitted w' = emitted w ++ [ev_error FAILED_TO_FINISH_TIMEOUT] /\
       _destroyed w' = false /\
       writable w' = true).
Proof.
  intros cfg w Hw Hq.
  destruct (end_core cfg w Hw) as (r & w' & Hrun & _ & _ & [Hfin|Hfail]).
  - destruct Hfin as (_ & _ & _ & _ & _ & _ & _ & _ & _ & _ & _ & Hn).
    contradiction.
  - destruct Hfail
      as (e & [->|[_ Hn]] & H1 & H2 & H3 & H4 & H5 & H6 & H7 & H8 & _);
      [|contradiction].
    exists r, w'. split; [exact Hrun|]. split; [exact H6|].
    split; [exact H7|]. split; [exact H8|].
    unfold destroy_answer, destroy_log in *.
    split; intros Hl; rewrite Hl in *; cbn [negb] in *;
      repeat split; assumption.
Qed.

Lemma end_times_out_on_a_silent_reader_witness :
  exists r w',
    end_ plain (attached [idle; reads_to 16]) = (r, w') /\
    _errored w' = Some FAILED_TO_FINISH_TIMEOUT /\
    writableFinished w' = _finished (attached [idle; reads_to 16]) /\
    writableEnded w' = false /\
    (error_listener (attached [idle; reads_to 16]) = true ->
     r = Returned tt /\
     emitted w' =
       emitted (attached [idle; reads_to 16])
         ++ [ev_error FAILED_TO_FINISH_TIMEOUT; ev_close] /\
     _destroyed w' = true /\
     writable w' = false) /\
    (error_listener (attached [idle; reads_to 16]) = false ->
     r = Thrown FAILED_TO_FINISH_TIMEOUT /\
     emitted w' =
       emitted (attached [idle; reads_to 16])
         ++ [ev_error FAILED_TO_FINISH_TIMEOUT] /\
     _destroyed w' = false /\
     writable w' = true).
Proof.
  apply (end_times_out_on_a_silent_reader plain (attached [idle; reads_to 16])).
  - reflexivity.
  - repeat constructor.
Defined.

(** X7.  After an [end] that returned, in whichever way, the engine drops
    every payload: [Write], synchronous or not, returns [false] and leaves
    the writer, its ring and its queue exactly as they were. *)
Theorem writes_after_end_are_dropped :
  forall (cfg : config) (w w' : writer) (fuel : nat) (sync : bool)
         (toWrite : jsval),
    end_ cfg w = (Returned tt, w') ->
    Write cfg (S fuel) sync toWrite w' = (Returned false, w').
Proof.
  intros cfg w w' fuel sync toWrite Hrun.
  destruct (end_leaves_unwritable cfg w) as (r1 & w1 & Hrun1 & _ & Hcases).
  rewrite Hrun in Hrun1. injection Hrun1 as <- <-.
  destruct Hcases as [[_ Hnw]|(e & He & _)]; [|discriminate].
  cbn [Write]. rewrite bind_gets, Hnw. reflexivity.
Qed.

Lemma writes_after_end_are_dropped_witness :
  Write plain 3 false (Some "late"%string)
    (snd (end_ plain (attached finishes_at_once))) =
    (Returned false, snd (end_ plain (attached finishes_at_once))).
Proof.
  apply (writes_after_end_are_dropped plain (attached finishes_at_once)
           (snd (end_ plain (attached finishes_at_once))) 2 false
           (Some "late"%string)).
  vm_compute. reflexivity.
Defined.

(** Without a listener for ['error'], an [end] behind a silent reader is
    not the end: the timeout error leaves [end], the writer is writable,
    a later write is stored in the ring, and a second [end] waits again
    and emits and throws the error again. *)
Example end_that_throws_is_not_the_end :
  let ended := snd (end_ plain (attached [idle; reads_to 16])) in
  fst (end_ plain (attached [idle; reads_to 16])) =
    Thrown FAILED_TO_FINISH_TIMEOUT /\
  writable ended = true /\
  fst (Write plain 8 false (Some "late"%string) ended) = Returned false /\
  frames (snd (Write plain 8 false (Some "late"%string) ended)) =
    [mkFrame 0 (utf8 "late") 0] /\
  fst (end_ plain ended) = Thrown FAILED_TO_FINISH_TIMEOUT /\
  emitted (snd (end_ plain ended)) =
    emitted (attached [idle; reads_to 16])
      ++ [ev_error FAILED_TO_FINISH_TIMEOUT;
          ev_error FAILED_TO_FINISH_TIMEOUT].
Proof. vm_compute. repeat split. Qed.

(** ** Start-up *)

(** X8.  [synchronize()] on a writable writer while the reader's sign is
    neither [READY_SIGN] nor [EMPTY_SIGN] (the reader is finishing or
    gone) calls [destroy] with the error "reader failed before
    synchronization": the error is recorded, the writer does not become
    ready, registers no callback, and [WRITE_PROCESS] keeps the
    [READY_SIGN] that [synchronize] stored first: no [FAILED_SIGN] is
    published.  With a listener for ['error'], [synchronize] returns,
    having emitted ['error'] and then ['close'], and the writer is
    destroyed.  With no listener the error leaves [synchronize] after
    ['error'] alone was emitted, and the writer is not destroyed and
    still writable. *)
Theorem synchronize_with_a_reader_that_left :
  forall (cfg : config) (w : writer),
    writable w = true ->
    word READ_PROCESS w <> READY_SIGN cfg ->
    word READ_PROCESS w <> EMPTY_SIGN cfg ->
    exists r w',
      synchronize cfg w = (r, w') /\
      _errored w' = Some READER_EXIT_BEFORE_SYNC /\
      writableErrored w' = true /\
      ready w' = _ready w /\
      promises w' = promises w /\
      word WRITE_PROCESS w' = to_int32 (READY_SIGN cfg) /\
      (error_listener w = true ->
       r = Returned tt /\
       emitted w' =
         emitted w ++ [ev_error READER_EXIT_BEFORE_SYNC; ev_close] /\
       _destroyed w' = true /\
       writable w' = false) /\
      (error_listener w = false ->
       r = Thrown READER_EXIT_BEFORE_SYNC /\
       emitted w' = emitted w ++ [ev_error READER_EXIT_BEFORE_SYNC] /\
       _destroyed w' = false /\
       writable w' = true).
Proof.
  intros cfg w Hw Hr He.
  unfold synchronize.
  unfold bind at 1, modify at 1. rewrite bind_gets.
  unfold bind at 1, store at 1, modify at 1.
  unfold load. rewrite bind_gets. fields.
  unfold word in Hr, He. cbn [Atomics_load] in Hr, He.
  destruct (Z.eqb_spec (read_process (_sharedState w)) (READY_SIGN cfg));
    [contradiction|].
  destruct (Z.eqb_spec (read_process (_sharedState w)) (EMPTY_SIGN cfg));
    [contradiction|].
  cbn [negb].
  match goal with
  | |- context [destroy cfg ?e ?w1] =>
      destruct (destroy_on_writable cfg e w1)
        as (w' & Hrun & Hev & Hd & _ & _ & Her & Hnw & _ & Hrd & _ & _ & Hp
            & _ & _ & Hsign & _);
      [unfold writable in *; fields; exact Hw|]
  end.
  eexists _, w'. split; [exact Hrun|].
  unfold writableErrored, ready, word, heard, destroy_answer, destroy_log
    in *.
  fields.
  rewrite Her.
  destruct (Z.eqb_spec (read_process (_sharedState w)) (READY_SIGN cfg));
    [contradiction|].
  destruct (Z.eqb_spec (read_process (_sharedState w)) (EMPTY_SIGN cfg));
    [contradiction|].
  cbn [orb] in Hsign. rewrite andb_false_r in Hsign.
  destruct Hsign as [Hsign _].
  repeat (split; [first [reflexivity | assumption]|]).
  split; intros Hl; rewrite Hl in *; cbn [negb] in *;
    repeat split; assumption.
Qed.

Lemma synchronize_with_a_reader_that_left_witness :
  exists r w',
    synchronize plain
      (new plain (mkShared 0 0 0 0 (FAILED_SIGN plain) 0) (zeroes 16) []) =
      (r, w') /\
    _errored w' = Some READER_EXIT_BEFORE_SYNC /\
    writableErrored w' = true /\
    ready w' = false /\
    promises w' = [] /\
    word WRITE_PROCESS w' = to_int32 (READY_SIGN plain) /\
    (false = true ->
     r = Returned tt /\
     emitted w' =
       emitted (new plain (mkShared 0 0 0 0 (FAILED_SIGN plain) 0)
                  (zeroes 16) [])
         ++ [ev_error READER_EXIT_BEFORE_SYNC; ev_close] /\
     _destroyed w' = true /\
     writable w' = false) /\
    (false = false ->
     r = Thrown READER_EXIT_BEFORE_SYNC /\
     emitted w' =
       emitted (new plain (mkShared 0 0 0 0 (FAILED_SIGN plain) 0)
                  (zeroes 16) [])
         ++ [ev_error READER_EXIT_BEFORE_SYNC] /\
     _destroyed w' = false /\
     writable w' = true).
Proof.
  apply (synchronize_with_a_reader_that_left plain
           (new plain (mkShared 0 0 0 0 (FAILED_SIGN plain) 0) (zeroes 16) []));
    [reflexivity | discriminate | discriminate].
Defined.

(** X9.  [synchronize()] loads [EMPTY_SIGN], and the reader stores another
    sign before [Atomics.waitAsync] looks at the word: the wait answers
    "not-equal" and [synchronize] calls [this._synchronize], a method the
    class does not have.  The call throws a [TypeError]; the writer has
    published [READY_SIGN] but is not ready, not destroyed, has emitted
    nothing and registered no callback. *)
Theorem synchronize_throws_when_the_reader_moves_first :
  forall (cfg : config) (w : writer) (t : tick) (rest : list tick) (sign : Z),
    word READ_PROCESS w = EMPTY_SIGN cfg ->
    EMPTY_SIGN cfg <> READY_SIGN cfg ->
    reader w = t :: rest ->
    t_process t = Some sign ->
    to_int32 sign <> EMPTY_SIGN cfg ->
    exists w',
      synchronize cfg w = (Thrown TypeError, w') /\
      word WRITE_PROCESS w' = to_int32 (READY_SIGN cfg) /\
      word READ_PROCESS w' = to_int32 sign /\
      ready w' = _ready w /\
      _watching w' = _watching w /\
      _destroyed w' = _destroyed w /\
      emitted w' = emitted w /\
      promises w' = promises w.
Proof.
  intros cfg w t rest sign Hempty Hne Hrd Ht Hsign.
  unfold synchronize.
  unfold bind at 1, modify at 1. rewrite bind_gets.
  unfold bind at 1, store at 1, modify at 1.
  unfold load. rewrite bind_gets. fields.
  unfold word in Hempty. cbn [Atomics_load] in Hempty. rewrite Hempty.
  destruct (Z.eqb_spec (EMPTY_SIGN cfg) (READY_SIGN cfg)); [contradiction|].
  rewrite Z.eqb_refl. cbn [negb].
  unfold bind at 1, Atomics_waitAsync.
  unfold bind at 1, reader_acts. fields. rewrite Hrd.
  unfold load. rewrite bind_gets. fields.
  assert (Hnew : forall st,
            read_process (reader_step t st) = to_int32 sign).
  { intros st. unfold reader_step. rewrite Ht. reflexivity. }
  rewrite Hnew.
  destruct (Z.eqb_spec (to_int32 sign) (EMPTY_SIGN cfg)); [contradiction|].
  unfold ret, throw. eexists. split; [reflexivity|].
  unfold ready, word. fields.
  rewrite Hnew.
  repeat split; try reflexivity.
  match goal with
  | |- write_process (reader_step t ?st) = _ =>
      destruct (reader_step_keeps_writer_words t st) as (_ & _ & Hwp)
  end.
  exact Hwp.
Qed.

Lemma synchronize_throws_when_the_reader_moves_first_witness :
  exists w',
    synchronize plain
      (new plain (mkShared 0 0 0 0 0 0) (zeroes 16)
         [signals (READY_SIGN plain)]) = (Thrown TypeError, w') /\
    word WRITE_PROCESS w' = to_int32 (READY_SIGN plain) /\
    word READ_PROCESS w' = to_int32 (READY_SIGN plain) /\
    ready w' = false /\
    _watching w' = false /\
    _destroyed w' = false /\
    emitted w' = [] /\
    promises w' = [].
Proof.
  apply (synchronize_throws_when_the_reader_moves_first plain
           (new plain (mkShared 0 0 0 0 0 0) (zeroes 16)
              [signals (READY_SIGN plain)])
           (signals (READY_SIGN plain)) [] (READY_SIGN plain));
    try reflexivity; discriminate.
Defined.

(** ** The two halves of the class keep to themselves *)

Lemma ring_untouched_refl w : ring_untouched w w.
Proof. unfold ring_untouched. repeat split. Qed.

Lemma ring_untouched_trans a b c :
  ring_untouched a b -> ring_untouched b c -> ring_untouched a c.
Proof.
  unfold ring_untouched.
  intros (H1 & H2 & H3 & H4 & H5 & H6 & H7 & H8)
         (K1 & K2 & K3 & K4 & K5 & K6 & K7 & K8).
  repeat split; congruence.
Qed.

Lemma lifecycle_untouched_refl w : lifecycle_untouched w w.
Proof. unfold lifecycle_untouched. repeat split. Qed.

Lemma lifecycle_untouched_trans a b c :
  lifecycle_untouched a b -> lifecycle_untouched b c ->
  lifecycle_untouched a c.
Proof.
  unfold lifecycle_untouched.
  intros (H1 & H2 & H3 & H4 & H5 & H6 & H7 & H8 & H9 & H10 & H11)
         (K1 & K2 & K3 & K4 & K5 & K6 & K7 & K8 & K9 & K10 & K11).
  repeat split; congruence.
Qed.

Lemma pending_untouched_refl w : pending_untouched w w.
Proof. reflexivity. Qed.

Lemma pending_untouched_trans a b c :
  pending_untouched a b -> pending_untouched b c -> pending_untouched a c.
Proof. unfold pending_untouched. congruence. Qed.

Lemma past_kept_refl w : past_kept w w.
Proof. split; [reflexivity|]. exists []. symmetry. apply app_nil_r. Qed.

Lemma past_kept_trans a b c :
  past_kept a b -> past_kept b c -> past_kept a c.
Proof.
  intros (H1 & m1 & H2) (K1 & m2 & K2). split; [congruence|].
  exists (m1 ++ m2). rewrite K2, H2, app_assoc. reflexivity.
Qed.

(** One step of a frame condition: [refl] and [trans] are the two laws of
    the relation, [known] closes a goal about a method already treated,
    [direct] proves the relation across a single assignment. *)
Ltac frame refl trans known direct :=
  repeat first
    [ solve [known]
    | apply (preserves_bind _ trans); [|intros ?]
    | apply (preserves_ret _ refl)
    | apply (preserves_throw _ refl)
    | apply (preserves_out_of_fuel _ refl)
    | apply (preserves_gets _ refl)
    | apply (preserves_modify _); intros ?; solve [direct]
    | apply (preserves_Buffer_call _ refl); intros ? ?; solve [direct]
    | apply (preserves_shift _ refl); intros ? ?; solve [direct]
    | match goal with
      | |- preserves _ (if ?c then _ else _) => destruct c
      | |- preserves _ (match ?x with _ => _ end) => destruct x
      | |- preserves _ (let _ := _ in _) => cbv zeta
      end ].

Ltac by_fields :=
  unfold ring_untouched, lifecycle_untouched, pending_untouched, word;
  fields; repeat split; reflexivity.

Ltac by_log :=
  unfold past_kept; fields; split; [reflexivity|];
  first [ exists []; symmetry; apply app_nil_r
        | eexists; reflexivity ].

Create HintDb ringframe.
Create HintDb lifeframe.
Create HintDb pendingframe.
Create HintDb pastframe.

Ltac ring_frame :=
  frame ring_untouched_refl ring_untouched_trans
    ltac:(auto 2 with ringframe nocore) by_fields.
Ltac life_frame :=
  frame lifecycle_untouched_refl lifecycle_untouched_trans
    ltac:(auto 2 with lifeframe nocore) by_fields.
Ltac pending_frame :=
  frame pending_untouched_refl pending_untouched_trans
    ltac:(auto 2 with pendingframe nocore) by_fields.
Ltac past_frame :=
  frame past_kept_refl past_kept_trans
    ltac:(auto 2 with pastframe nocore) by_log.

(** The reader's turn touches none of the writer's words. *)
Lemma ring_untouched_reader_acts : preserves ring_untouched reader_acts.
Proof.
  intros w r w' H. unfold reader_acts in H.
  destruct (reader w) as [|t rest]; inversion H; subst;
    [apply ring_untouched_refl|].
  destruct (reader_step_keeps_writer_words t (_sharedState w))
    as (Hi & Hc & Hp).
  unfold ring_untouched, word; fields. repeat split; assumption.
Qed.
#[local] Hint Resolve ring_untouched_reader_acts : ringframe.

Lemma lifecycle_untouched_reader_acts :
  preserves lifecycle_untouched reader_acts.
Proof.
  intros w r w' H. unfold reader_acts in H.
  destruct (reader w) as [|t rest]; inversion H; subst;
    [apply lifecycle_untouched_refl|].
  destruct (reader_step_keeps_writer_words t (_sharedState w))
    as (Hi & Hc & Hp).
  unfold lifecycle_untouched, word; fields. repeat split; assumption.
Qed.
#[local] Hint Resolve lifecycle_untouched_reader_acts : lifeframe.

Lemma pending_untouched_reader_acts :
  preserves pending_untouched reader_acts.
Proof.
  apply (preserves_reader_acts _ pending_untouched_refl).
  intros w st rest. reflexivity.
Qed.
#[local] Hint Resolve pending_untouched_reader_acts : pendingframe.

Lemma past_kept_reader_acts : preserves past_kept reader_acts.
Proof.
  apply (preserves_reader_acts _ past_kept_refl).
  intros w st rest. by_log.
Qed.
#[local] Hint Resolve past_kept_reader_acts : pastframe.

(** *** The lifecycle controller and the ring *)

Lemma ring_untouched_Atomics_wait (s : slot) (expected timeout : Z) :
  preserves ring_untouched (Atomics_wait s expected timeout).
Proof. unfold Atomics_wait, load. ring_frame. Qed.
#[local] Hint Resolve ring_untouched_Atomics_wait : ringframe.

Lemma ring_untouched_Atomics_waitAsync (s : slot) (expected : Z)
    (timeout : option Z) :
  preserves ring_untouched (Atomics_waitAsync s expected timeout).
Proof. unfold Atomics_waitAsync, load. ring_frame. Qed.
#[local] Hint Resolve ring_untouched_Atomics_waitAsync : ringframe.

Lemma ring_untouched_destroy (cfg : config) (err : option error) :
  preserves ring_untouched (destroy cfg err).
Proof. unfold destroy, load, store, notify, emit. ring_frame. Qed.
#[local] Hint Resolve ring_untouched_destroy : ringframe.

Lemma ring_untouched_spin_finish (cfg : config) (budget : nat) :
  forall spins status,
    preserves ring_untouched (spin_finish cfg budget spins status).
Proof.
  induction budget as [|budget IH]; intros spins status; cbn [spin_finish].
  - ring_frame.
  - unfold load. ring_frame.
Qed.
#[local] Hint Resolve ring_untouched_spin_finish : ringframe.

Lemma ring_untouched_end (cfg : config) :
  preserves ring_untouched (end_ cfg).
Proof. unfold end_, load, store, notify, emit. ring_frame. Qed.
#[local] Hint Resolve ring_untouched_end : ringframe.

Lemma ring_untouched_watch (cfg : config) (fuel : nat) :
  preserves ring_untouched (_watch cfg fuel).
Proof.
  induction fuel as [|fuel IH]; cbn [_watch]; [ring_frame|].
  unfold load, then_. ring_frame.
Qed.
#[local] Hint Resolve ring_untouched_watch : ringframe.

Lemma ring_untouched_synchronize (cfg : config) :
  preserves ring_untouched (synchronize cfg).
Proof. unfold synchronize, load, store, then_, emit. ring_frame. Qed.

Lemma ring_untouched_synchronized (cfg : config) (fuel : nat)
    (v : wait_status) :
  preserves ring_untouched (synchronized cfg fuel v).
Proof. unfold synchronized, load, emit. ring_frame. Qed.

(** X10.  The lifecycle controller never touches the ring.  Whatever
    [end], [destroy], [synchronize], the watch loop and the callback of
    [synchronize] do, and however they finish, the bytes of the ring, the
    write cursor, the cycle, the words [WRITE_INDEX] and [WRITE_CYCLE],
    the overflow queue and the binding of [write] are afterwards what they
    were before. *)
Theorem lifecycle_leaves_the_ring_untouched :
  forall (cfg : config) (fuel : nat) (err : option error) (v : wait_status)
         (w : writer),
    ring_untouched w (snd (end_ cfg w)) /\
    ring_untouched w (snd (destroy cfg err w)) /\
    ring_untouched w (snd (synchronize cfg w)) /\
    ring_untouched w (snd (_watch cfg fuel w)) /\
    ring_untouched w (snd (synchronized cfg fuel v w)).
Proof.
  intros cfg fuel err v w.
  split; [|split; [|split; [|split]]].
  - destruct (end_ cfg w) as [r w'] eqn:E.
    exact (ring_untouched_end cfg w r w' E).
  - destruct (destroy cfg err w) as [r w'] eqn:E.
    exact (ring_untouched_destroy cfg err w r w' E).
  - destruct (synchronize cfg w) as [r w'] eqn:E.
    exact (ring_untouched_synchronize cfg w r w' E).
  - destruct (_watch cfg fuel w) as [r w'] eqn:E.
    exact (ring_untouched_watch cfg fuel w r w' E).
  - destruct (synchronized cfg fuel v w) as [r w'] eqn:E.
    exact (ring_untouched_synchronized cfg fuel v w r w' E).
Qed.

(** *** The write engine and the lifecycle *)

Lemma lifecycle_untouched_Atomics_wait (s : slot) (expected timeout : Z) :
  preserves lifecycle_untouched (Atomics_wait s expected timeout).
Proof. unfold Atomics_wait, load. life_frame. Qed.
#[local] Hint Resolve lifecycle_untouched_Atomics_wait : lifeframe.

Lemma lifecycle_untouched_Atomics_waitAsync (s : slot) (expected : Z)
    (timeout : option Z) :
  preserves lifecycle_untouched (Atomics_waitAsync s expected timeout).
Proof. unfold Atomics_waitAsync, load. life_frame. Qed.
#[local] Hint Resolve lifecycle_untouched_Atomics_waitAsync : lifeframe.

Lemma lifecycle_untouched_store (cfg : config) (data : string)
    (isNotFin : Z) :
  preserves lifecycle_untouched (_store cfg data isNotFin).
Proof. unfold _store, store, notify. life_frame. Qed.
#[local] Hint Resolve lifecycle_untouched_store : lifeframe.

Lemma lifecycle_untouched_wrap : preserves lifecycle_untouched wrap.
Proof. unfold wrap, store, notify. life_frame. Qed.
#[local] Hint Resolve lifecycle_untouched_wrap : lifeframe.

Lemma lifecycle_untouched_spin_read (budget : nat) :
  forall spins read,
    preserves lifecycle_untouched (spin_read budget spins read).
Proof.
  induction budget as [|budget IH]; intros spins read; cbn [spin_read];
    life_frame.
Qed.
#[local] Hint Resolve lifecycle_untouched_spin_read : lifeframe.

Lemma lifecycle_untouched_FakeWrite (data : jsval) :
  preserves lifecycle_untouched (FakeWrite data).
Proof. unfold FakeWrite. life_frame. Qed.
#[local] Hint Resolve lifecycle_untouched_FakeWrite : lifeframe.

Lemma lifecycle_untouched_Write (cfg : config) (fuel : nat) :
  forall sync toWrite,
    preserves lifecycle_untouched (Write cfg fuel sync toWrite).
Proof.
  induction fuel as [|fuel IH]; intros sync toWrite; cbn [Write].
  - life_frame.
  - unfold load, then_, Buffer_byteLength. life_frame.
Qed.

(** X11.  The write engine never touches the lifecycle.  [Write], the
    stub [FakeWrite] and [_store] emit no event, change none of the flags
    of the lifecycle controller and store nothing into [WRITE_PROCESS],
    whether they return, throw or wait: a failed write leaves the writer
    neither destroyed nor errored. *)
Theorem write_engine_leaves_the_lifecycle_untouched :
  forall (cfg : config) (fuel : nat) (sync : bool) (toWrite : jsval)
         (data : string) (isNotFin : Z) (w : writer),
    lifecycle_untouched w (snd (Write cfg fuel sync toWrite w)) /\
    lifecycle_untouched w (snd (FakeWrite toWrite w)) /\
    lifecycle_untouched w (snd (_store cfg data isNotFin w)).
Proof.
  intros cfg fuel sync toWrite data isNotFin w.
  split; [|split].
  - destruct (Write cfg fuel sync toWrite w) as [r w'] eqn:E.
    exact (lifecycle_untouched_Write cfg fuel sync toWrite w r w' E).
  - destruct (FakeWrite toWrite w) as [r w'] eqn:E.
    exact (lifecycle_untouched_FakeWrite toWrite w r w' E).
  - destruct (_store cfg data isNotFin w) as [r w'] eqn:E.
    exact (lifecycle_untouched_store cfg data isNotFin w r w' E).
Qed.

(** ** The watch loop *)

Lemma pending_untouched_Atomics_wait (s : slot) (expected timeout : Z) :
  preserves pending_untouched (Atomics_wait s expected timeout).
Proof. unfold Atomics_wait, load. pending_frame. Qed.
#[local] Hint Resolve pending_untouched_Atomics_wait : pendingframe.

Lemma pending_untouched_destroy (cfg : config) (err : option error) :
  preserves pending_untouched (destroy cfg err).
Proof. unfold destroy, load, store, notify, emit. pending_frame. Qed.
#[local] Hint Resolve pending_untouched_destroy : pendingframe.

Lemma pending_untouched_spin_finish (cfg : config) (budget : nat) :
  forall spins status,
    preserves pending_untouched (spin_finish cfg budget spins status).
Proof.
  induction budget as [|budget IH]; intros spins status; cbn [spin_finish].
  - pending_frame.
  - unfold load. pending_frame.
Qed.
#[local] Hint Resolve pending_untouched_spin_finish : pendingframe.

Lemma pending_untouched_end (cfg : config) :
  preserves pending_untouched (end_ cfg).
Proof. unfold end_, load, store, notify, emit. pending_frame. Qed.
#[local] Hint Resolve pending_untouched_end : pendingframe.

Lemma past_kept_emit (e : event) : preserves past_kept (emit e).
Proof.
  apply (preserves_emit _ past_kept_refl past_kept_trans). intros w.
  split; [reflexivity|]. exists [e]. reflexivity.
Qed.
#[local] Hint Resolve past_kept_emit : pastframe.

Lemma past_kept_Atomics_wait (s : slot) (expected timeout : Z) :
  preserves past_kept (Atomics_wait s expected timeout).
Proof. unfold Atomics_wait, load. past_frame. Qed.
#[local] Hint Resolve past_kept_Atomics_wait : pastframe.

Lemma past_kept_Atomics_waitAsync (s : slot) (expected : Z)
    (timeout : option Z) :
  preserves past_kept (Atomics_waitAsync s expected timeout).
Proof. unfold Atomics_waitAsync, load. past_frame. Qed.
#[local] Hint Resolve past_kept_Atomics_waitAsync : pastframe.

Lemma past_kept_destroy (cfg : config) (err : option error) :
  preserves past_kept (destroy cfg err).
Proof. unfold destroy, load, store, notify. past_frame. Qed.
#[local] Hint Resolve past_kept_destroy : pastframe.

Lemma past_kept_spin_finish (cfg : config) (budget : nat) :
  forall spins status,
    preserves past_kept (spin_finish cfg budget spins status).
Proof.
  induction budget as [|budget IH]; intros spins status; cbn [spin_finish].
  - past_frame.
  - unfold load. past_frame.
Qed.
#[local] Hint Resolve past_kept_spin_finish : pastframe.

Lemma past_kept_end (cfg : config) : preserves past_kept (end_ cfg).
Proof. unfold end_, load, store, notify. past_frame. Qed.
#[local] Hint Resolve past_kept_end : pastframe.

Lemma past_kept_watch (cfg : config) (fuel : nat) :
  preserves past_kept (_watch cfg fuel).
Proof.
  induction fuel as [|fuel IH]; cbn [_watch]; [past_frame|].
  unfold load, then_. past_frame.
Qed.

(** [destroy], on any writer, either returns and leaves the writer not
    writable, or lets out the error that nobody listens for and leaves
    the writer writable, with the watch off. *)
Lemma destroy_leaves_unwritable (cfg : config) (err : option error)
    (w : writer) :
  exists r w',
    destroy cfg err w = (r, w') /\
    error_listener w' = error_listener w /\
    ((r = Returned tt /\ writable w' = false) \/
     (exists e,
        r = Thrown e /\ writable w = true /\ writable w' = true /\
        error_listener w = false /\ _watching w' = false /\
        _errored w' = Some e)).
Proof.
  destruct (writable w) eqn:Hw.
  - destruct (destroy_on_writable cfg err w Hw)
      as (w' & Hrun & _ & _ & _ & Hwa & Her & Hnw & _ & _ & _ & _ & _ & _
          & _ & _ & Hl & _).
    eexists _, w'. split; [exact Hrun|]. split; [exact Hl|].
    unfold destroy_answer, heard in *.
    destruct err as [e|]; [destruct (error_listener w)|];
      cbn [negb] in Hnw.
    + left. split; [reflexivity | exact Hnw].
    + right. exists e. repeat split; assumption.
    + left. split; [reflexivity | exact Hnw].
  - exists (Returned tt), w. split; [|split; [reflexivity|]].
    + unfold destroy. rewrite bind_gets, Hw. reflexivity.
    + left. split; [reflexivity | exact Hw].
Qed.

(** [Atomics.waitAsync] without a timeout, after the reader's turn:
    a promise when the word is the expected one, "not-equal" otherwise. *)
Lemma waitAsync_cases (s : slot) (expected : Z) (w : writer) :
  exists w2,
    (reader w = [] /\ w2 = w \/
     exists t rest,
       reader w = t :: rest /\
       w2 = set_reader rest
              (set_sharedState (reader_step t (_sharedState w)) w)) /\
    (Atomics_waitAsync s expected None w = (Returned promise, w2) /\
     word s w2 = expected \/
     Atomics_waitAsync s expected None w = (Returned (settled not_equal), w2) /\
     word s w2 <> expected).
Proof.
  unfold Atomics_waitAsync, bind, reader_acts, load, gets, ret, word.
  destruct (reader w) as [|t rest] eqn:Er.
  - exists w. split; [left; split; reflexivity|].
    destruct (Z.eqb_spec (Atomics_load (_sharedState w) s) expected);
      [left | right]; split; trivial.
  - eexists. split; [right; exists t, rest; split; reflexivity|].
    fields.
    destruct (Z.eqb_spec
                (Atomics_load (reader_step t (_sharedState w)) s) expected);
      [left | right]; split; trivial.
Qed.

(** The watch loop comes to an end once the reader holds still, in one
    of four ways: it was switched off and does nothing; or it has handed
    over to [end] or [destroy], which returned, and the writer is not
    writable any more; or it has registered itself on a promise for the
    next change of [READ_PROCESS], which then holds neither [FAILED_SIGN]
    nor [FINISHED_SIGN]; or the [end] or [destroy] it handed over to let
    its error out, which needs that nobody listens for ['error'], and the
    writer is still writable, with the watch off. *)
Lemma watch_core (cfg : config) (fuel : nat) :
  forall w,
    (List.length (reader w) < fuel)%nat ->
    exists r w',
      _watch cfg fuel w = (r, w') /\
      error_listener w' = error_listener w /\
      ((_watching w = false /\ r = Returned tt /\ w' = w) \/
       (_watching w = true /\ r = Returned tt /\
        writable w' = false /\ promises w' = promises w) \/
       (_watching w = true /\ r = Returned tt /\
        _watching w' = true /\
        promises w' = promises w ++ [then_watch] /\
        emitted w' = emitted w /\
        writable w' = writable w /\
        word READ_PROCESS w' <> FAILED_SIGN cfg /\
        word READ_PROCESS w' <> FINISHED_SIGN cfg) \/
       (_watching w = true /\
        exists e,
          r = Thrown e /\ error_listener w = false /\
          writable w = true /\ writable w' = true /\
          _watching w' = false /\ _errored w' = Some e /\
          promises w' = promises w)).
Proof.
  induction fuel as [|fuel IH]; intros w Hfuel; [lia|].
  cbn [_watch]. rewrite bind_gets.
  destruct (_watching w) eqn:Hwt; cbn [negb];
    [|exists (Returned tt), w; split; [reflexivity|];
      split; [reflexivity|]; left; repeat split; reflexivity].
  unfold load. rewrite !bind_gets.
  destruct ((Atomics_load (_sharedState w) READ_PROCESS =? FINISHING_SIGN cfg)
            && (len (_extraBuffer w) =? 0)) eqn:Hfin.
  { destruct (end_leaves_unwritable cfg w)
      as (r & w' & Hrun & Hl & Hcases).
    exists r, w'. split; [exact Hrun|]. split; [exact Hl|].
    assert (Hp := pending_untouched_end cfg w _ w' Hrun).
    destruct Hcases as [[-> Hnw] | (e & -> & H1 & H2 & H3 & H4 & H5)].
    - right; left. repeat split; trivial.
    - right; right; right. split; [reflexivity|]. exists e.
      repeat split; trivial. }
  assert (Harm : exists w1,
    (if Atomics_load (_sharedState w) READ_PROCESS =? FINISHING_SIGN cfg
     then modify (fun w0 => set_drain_once (S (drain_once w0)) w0)
     else ret tt) w = (Returned tt, w1) /\
    _watching w1 = true /\ reader w1 = reader w /\
    promises w1 = promises w /\ emitted w1 = emitted w /\
    writable w1 = writable w /\ _sharedState w1 = _sharedState w /\
    error_listener w1 = error_listener w).
  { destruct (Atomics_load (_sharedState w) READ_PROCESS =? FINISHING_SIGN cfg);
      eexists; (split; [reflexivity|]); unfold writable; fields;
      repeat split; trivial. }
  destruct Harm as (w1 & Harm & Hwt1 & Hrd1 & Hp1 & He1 & Hw1 & Hst1 & Hl1).
  unfold bind at 1. rewrite Harm.
  remember (Atomics_load (_sharedState w) READ_PROCESS) as status eqn:Hstatus.
  assert (Hgone :
    exists r w',
      destroy cfg (Some READER_EXIT_WHILE_WATCH) w1 = (r, w') /\
      error_listener w' = error_listener w /\
      ((true = false /\ r = Returned tt /\ w' = w) \/
       (true = true /\ r = Returned tt /\
        writable w' = false /\ promises w' = promises w) \/
       (true = true /\ r = Returned tt /\
        _watching w' = true /\
        promises w' = promises w ++ [then_watch] /\
        emitted w' = emitted w /\
        writable w' = writable w /\
        word READ_PROCESS w' <> FAILED_SIGN cfg /\
        word READ_PROCESS w' <> FINISHED_SIGN cfg) \/
       (true = true /\
        exists e,
          r = Thrown e /\ error_listener w = false /\
          writable w = true /\ writable w' = true /\
          _watching w' = false /\ _errored w' = Some e /\
          promises w' = promises w))).
  { destruct (destroy_leaves_unwritable cfg
                (Some READER_EXIT_WHILE_WATCH) w1)
      as (r & w' & Hrun & Hl & Hcases).
    exists r, w'. split; [exact Hrun|]. split; [congruence|].
    assert (Hp := pending_untouched_destroy cfg _ w1 _ w' Hrun).
    unfold pending_untouched in Hp.
    destruct Hcases as [[-> Hnw] | (e & -> & H1 & H2 & H3 & H4 & H5)].
    - right; left. repeat split; trivial. congruence.
    - right; right; right. split; [reflexivity|]. exists e.
      repeat split; trivial; congruence. }
  destruct (Z.eqb_spec status (FAILED_SIGN cfg)) as [Hf|Hf]; cbn [orb];
    [exact Hgone|].
  destruct (Z.eqb_spec status (FINISHED_SIGN cfg)) as [Hd|Hd];
    [exact Hgone|].
  clear Hgone.
  destruct (waitAsync_cases READ_PROCESS status w1)
    as (w2 & Hturn & [[Hwait Hsame] | [Hwait Hdiff]]);
    unfold bind at 1; rewrite Hwait.
  - (* the promise *)
    unfold then_, modify. eexists _, _. split; [reflexivity|].
    unfold writable, word in *. fields.
    destruct Hturn as [[_ ->] | (t & rest & _ & ->)]; fields;
      rewrite ?Hwt1, ?Hp1, ?He1; fields;
      (split; [exact Hl1|]); right; right; left;
      repeat split; trivial; congruence.
  - (* the reader has moved: once more *)
    destruct Hturn as [[_ ->] | (t & rest & Hrd & Hw2)].
    { exfalso. apply Hdiff. unfold word. rewrite Hst1. symmetry.
      exact Hstatus. }
    destruct (IH w2) as (r & w' & Hrun & Hl & Hcases).
    { subst w2. fields. rewrite Hrd1 in Hrd. rewrite Hrd in Hfuel.
      cbn [List.length] in Hfuel. lia. }
    assert (Hfr : _watching w2 = true /\ promises w2 = promises w /\
                  emitted w2 = emitted w /\ writable w2 = writable w /\
                  error_listener w2 = error_listener w).
    { subst w2. unfold writable in *. fields. repeat split; congruence. }
    destruct Hfr as (Hwt2 & Hp2 & He2 & Hwr2 & Hl2).
    exists r, w'. split; [exact Hrun|]. split; [congruence|].
    destruct Hcases
      as [[Hoff _]
         | [(_ & Hr & Hnw & Hp)
           | [(_ & Hr & Hon & Hp & He & Hwr & Hs)
             | (_ & e & Hr & K1 & K2 & K3 & K4 & K5 & K6)]]].
    + congruence.
    + right; left. repeat split; trivial. congruence.
    + right; right; left.
      repeat split; trivial; try congruence; apply Hs.
    + right; right; right. split; [reflexivity|]. exists e.
      repeat split; trivial; congruence.
Qed.

(** X12.  The watch loop terminates.  Started with the watch switched
    on, it comes to an end after at most one round per turn the reader
    still takes, in one of three ways.  It returns, the writer is not
    writable any more (the loop has called [end] or [destroy]) and no
    callback was registered.  Or it returns, the writer is as writable
    as before, has emitted nothing, and exactly one callback of the
    watch waits for the next change of [READ_PROCESS], which is neither
    [FAILED_SIGN] nor [FINISHED_SIGN].  Or the [end] or [destroy] it
    called let its error out, which happens only when nobody listens
    for ['error']: the error is recorded, the watch is off, no callback
    was registered, and the writer, writable before, is still
    writable. *)
Theorem watch_hands_over_or_waits :
  forall (cfg : config) (fuel : nat) (w : writer),
    _watching w = true ->
    (List.length (reader w) < fuel)%nat ->
    exists r w',
      _watch cfg fuel w = (r, w') /\
      ((r = Returned tt /\
        writable w' = false /\ promises w' = promises w) \/
       (r = Returned tt /\
        _watching w' = true /\
        promises w' = promises w ++ [then_watch] /\
        emitted w' = emitted w /\
        writable w' = writable w /\
        word READ_PROCESS w' <> FAILED_SIGN cfg /\
        word READ_PROCESS w' <> FINISHED_SIGN cfg) \/
       (exists e,
          r = Thrown e /\ error_listener w = false /\
          writable w = true /\ writable w' = true /\
          _watching w' = false /\ _errored w' = Some e /\
          promises w' = promises w)).
Proof.
  intros cfg fuel w Hwt Hfuel.
  destruct (watch_core cfg fuel w Hfuel) as (r & w' & Hrun & _ & Hcases).
  exists r, w'. split; [exact Hrun|].
  destruct Hcases as [[Hoff _] | [(_ & H) | [(_ & H) | (_ & H)]]];
    [congruence | left; exact H | right; left; exact H
    | right; right; exact H].
Qed.

Lemma watch_hands_over_or_waits_witness :
  exists r w',
    _watch plain 3
      (set_watching true (attached [signals (FINISHING_SIGN plain); idle])) =
      (r, w') /\
    ((r = Returned tt /\
      writable w' = false /\
      promises w' =
        promises
          (set_watching true
             (attached [signals (FINISHING_SIGN plain); idle]))) \/
     (r = Returned tt /\
      _watching w' = true /\
      promises w' =
        promises
          (set_watching true
             (attached [signals (FINISHING_SIGN plain); idle]))
          ++ [then_watch] /\
      emitted w' =
        emitted
          (set_watching true
             (attached [signals (FINISHING_SIGN plain); idle])) /\
      writable w' =
        writable
          (set_watching true
             (attached [signals (FINISHING_SIGN plain); idle])) /\
      word READ_PROCESS w' <> FAILED_SIGN plain /\
      word READ_PROCESS w' <> FINISHED_SIGN plain) \/
     (exists e,
        r = Thrown e /\
        error_listener
          (set_watching true
             (attached [signals (FINISHING_SIGN plain); idle])) = false /\
        writable
          (set_watching true
             (attached [signals (FINISHING_SIGN plain); idle])) = true /\
        writable w' = true /\
        _watching w' = false /\ _errored w' = Some e /\
        promises w' =
          promises
            (set_watching true
               (attached [signals (FINISHING_SIGN plain); idle])))).
Proof.
  apply (watch_hands_over_or_waits plain 3
           (set_watching true
              (attached [signals (FINISHING_SIGN plain); idle]))).
  - reflexivity.
  - vm_compute. lia.
Defined.

(** X13.  The callback that [synchronize] leaves on its promise, run on
    a writable writer.  Woken by anything but "ok", it calls [destroy]
    with the start timeout error; woken by "ok" while the reader's sign
    is not [READY_SIGN], it calls [destroy] with "reader exited while
    synchronization"; either call returns with the writer destroyed when
    a listener for ['error'] is registered, and lets the error out, with
    the writer still writable, when none is.  Otherwise the writer
    becomes ready, emits ['ready'] before any other event, and the watch
    loop runs: it hands over to [end] or [destroy], which return or let
    their error out, or leaves exactly one callback of its own behind. *)
Theorem synchronized_outcomes :
  forall (cfg : config) (fuel : nat) (v : wait_status) (w : writer),
    writable w = true ->
    (List.length (reader w) < fuel)%nat ->
    exists r w',
      synchronized cfg fuel v w = (r, w') /\
      match v with
      | ok =>
          if word READ_PROCESS w =? READY_SIGN cfg then
            ready w' = true /\
            (exists more, emitted w' = emitted w ++ ev_ready :: more) /\
            (r = Returned tt /\
             writable w' = false /\ promises w' = promises w \/
             r = Returned tt /\
             writable w' = true /\ _watching w' = true /\
             promises w' = promises w ++ [then_watch] /\
             emitted w' = emitted w ++ [ev_ready] \/
             exists e,
               r = Thrown e /\ error_listener w = false /\
               writable w' = true /\ _watching w' = false /\
               _errored w' = Some e /\ promises w' = promises w)
          else
            destroy_outcome READER_EXIT_AT_SYNC r w w' /\
            ready w' = _ready w
      | _ =>
          destroy_outcome READER_FAILED_TIMEOUT r w w' /\
          ready w' = _ready w
      end.
Proof.
  intros cfg fuel v w Hw Hfuel.
  assert (Hdestroy : forall e, exists r w',
            destroy cfg (Some e) w = (r, w') /\
            destroy_outcome e r w w' /\ ready w' = _ready w).
  { intros e.
    destruct (destroy_on_writable cfg (Some e) w Hw)
      as (w' & Hrun & Hev & Hd & _ & _ & Her & Hnw & _ & Hrd & _).
    eexists _, w'. split; [exact Hrun|].
    unfold destroy_outcome, fatal, ready, heard, destroy_answer,
      destroy_log in *.
    split; [|exact Hrd]. split; [exact Her|].
    destruct (error_listener w); cbn [negb] in Hnw;
      repeat split; assumption. }
  unfold synchronized.
  destruct v; [|apply Hdestroy|apply Hdestroy].
  unfold load. rewrite bind_gets. unfold word.
  destruct (Atomics_load (_sharedState w) READ_PROCESS =? READY_SIGN cfg);
    cbn [negb]; [|apply Hdestroy].
  unfold bind at 1, modify at 1.
  unfold bind at 1, modify at 1.
  unfold bind at 1, emit at 1. unfold bind at 1, modify at 1, ret at 1.
  match goal with
  | |- exists r w', _watch cfg fuel ?w1 = _ /\ _ =>
      destruct (watch_core cfg fuel w1) as (r & w' & Hrun & _ & Hcases);
        [fields; exact Hfuel|];
      pose proof (past_kept_watch cfg fuel w1 _ w' Hrun) as (Hrd & more & Hev)
  end.
  exists r, w'. split; [exact Hrun|].
  unfold ready, writable in *. fields.
  split; [exact Hrd|]. split.
  { exists more. rewrite Hev, <- app_assoc. reflexivity. }
  destruct Hcases
    as [[Hoff _]
       | [(_ & Hr & Hnw & Hp)
         | [(_ & Hr & Hon & Hp & He & Hwr & _)
           | (_ & e & Hr & K1 & K2 & K3 & K4 & K5 & K6)]]].
  - discriminate.
  - left. repeat split; assumption.
  - right; left. rewrite Hwr. repeat split; assumption.
  - right; right. exists e. repeat split; assumption.
Qed.

Lemma synchronized_outcomes_witness :
  exists r w',
    synchronized plain 1 ok
      (new plain (mkShared 0 0 0 0 (READY_SIGN plain) (READY_SIGN plain))
         (zeroes 16) []) = (r, w') /\
    ready w' = true /\
    (exists more, emitted w' = [] ++ ev_ready :: more) /\
    (r = Returned tt /\
     writable w' = false /\ promises w' = [] \/
     r = Returned tt /\
     writable w' = true /\ _watching w' = true /\
     promises w' = [] ++ [then_watch] /\
     emitted w' = [] ++ [ev_ready] \/
     exists e,
       r = Thrown e /\ false = false /\
       writable w' = true /\ _watching w' = false /\
       _errored w' = Some e /\ promises w' = []).
Proof.
  apply (synchronized_outcomes plain 1 ok
           (new plain (mkShared 0 0 0 0 (READY_SIGN plain) (READY_SIGN plain))
              (zeroes 16) []));
    [reflexivity | cbn; lia].
Defined.

(** X14.  [end] and [destroy] switch the watch off: on a writer that was
    writable, a callback of the watch that fires after either of them
    returns at once and changes nothing. *)
Theorem watch_is_off_after_end_and_destroy :
  forall (cfg : config) (fuel : nat) (err : option error) (w : writer),
    writable w = true ->
    _watch cfg (S fuel) (snd (end_ cfg w)) =
      (Returned tt, snd (end_ cfg w)) /\
    _watch cfg (S fuel) (snd (destroy cfg err w)) =
      (Returned tt, snd (destroy cfg err w)).
Proof.
  intros cfg fuel err w Hw.
  destruct (end_core cfg w Hw) as (r1 & w1 & Hrun1 & Hoff1 & _).
  destruct (destroy_on_writable cfg err w Hw)
    as (w2 & Hrun2 & _ & _ & _ & Hoff2 & _).
  rewrite Hrun1, Hrun2. cbn [snd _watch].
  rewrite !bind_gets, Hoff1, Hoff2. split; reflexivity.
Qed.

Lemma watch_is_off_after_end_and_destroy_witness :
  _watch plain 1 (snd (end_ plain (attached []))) =
    (Returned tt, snd (end_ plain (attached []))) /\
  _watch plain 1 (snd (destroy plain None (attached []))) =
    (Returned tt, snd (destroy plain None (attached []))).
Proof.
  apply (watch_is_off_after_end_and_destroy plain 0 None (attached [])).
  reflexivity.
Defined.

(** ** The drain after the end *)

Lemma drain_loop_unwritable (cfg : config) (fuel : nat) :
  forall w,
    writable w = false ->
    (S (List.length (_extraBuffer w)) < fuel)%nat ->
    exists w',
      drain_loop cfg fuel w = (Returned true, w') /\
      w' = set_extraBuffer [] w.
Proof.
  induction fuel as [|fuel IH]; intros w Hw Hfuel; [lia|].
  destruct fuel as [|fuel]; [lia|].
  cbn [drain_loop]. unfold bind at 1, shift.
  destruct (_extraBuffer w) as [|item rest] eqn:Eq.
  - cbn [Write]. unfold bind at 1. rewrite bind_gets, Hw. cbn [negb].
    unfold ret at 1. cbv beta iota. rewrite bind_gets, Eq.
    exists w. split; [reflexivity|].
    destruct w; cbn in Eq |- *; subst; reflexivity.
  - cbn [Write]. unfold bind at 1. rewrite bind_gets.
    change (writable (set_extraBuffer rest w)) with (writable w).
    rewrite Hw. cbn [negb]. unfold ret at 1. cbv beta iota.
    rewrite bind_gets. fields.
    destruct rest as [|item' rest'].
    + eexists. split; reflexivity.
    + assert (Hne : (len (item' :: rest') =? 0) = false)
        by (apply Z.eqb_neq; unfold len; cbn [List.length]; lia).
      rewrite Hne.
      destruct (IH (set_extraBuffer (item' :: rest') w)) as (w' & Hrun & ->).
      * exact Hw.
      * fields. cbn [List.length] in Hfuel |- *. lia.
      * exists (set_extraBuffer [] w). split; [exact Hrun | reflexivity].
Qed.

(** X15.  A drain on a writer that is not writable, as when [end] or
    [destroy] came before the wake-up, throws the queue away: every
    queued payload is shifted out and dropped by the engine, nothing
    reaches the ring, and still [write] is bound to the engine again and
    ['drain'] is emitted, as after a drain that has stored everything. *)
Theorem drain_after_the_end_drops_the_queue :
  forall (cfg : config) (fuel : nat) (w : writer),
    writable w = false ->
    (S (List.length (_extraBuffer w)) < fuel)%nat ->
    _drain cfg fuel w = (Returned true, drained_dry w) /\
    _extraBuffer (drained_dry w) = [] /\
    frames (drained_dry w) = frames w /\
    _sharedBuffer (drained_dry w) = _sharedBuffer w /\
    write (drained_dry w) = bound_Write false /\
    emitted (drained_dry w) = emitted w ++ [ev_drain].
Proof.
  intros cfg fuel w Hw Hfuel.
  split; [|repeat split].
  destruct (drain_loop_unwritable cfg fuel w Hw Hfuel) as (w' & Hrun & ->).
  unfold _drain. unfold bind at 1. rewrite Hrun.
  unfold bind at 1, modify at 1.
  unfold bind at 1, modify at 1.
  unfold bind at 1, emit_drain.
  unfold bind at 1, emit at 1. unfold bind at 1, modify at 1, ret at 1.
  rewrite bind_gets.
  rewrite call_end_unwritable by (unfold writable in *; fields; exact Hw).
  fields. rewrite Nat.sub_diag. reflexivity.
Qed.

Lemma drain_after_the_end_drops_the_queue_witness :
  _drain plain 4 (after plain 8 [do_destroy None] stalled) =
    (Returned true, drained_dry (after plain 8 [do_destroy None] stalled)) /\
  _extraBuffer (drained_dry (after plain 8 [do_destroy None] stalled)) = [] /\
  frames (drained_dry (after plain 8 [do_destroy None] stalled)) =
    frames (after plain 8 [do_destroy None] stalled) /\
  _sharedBuffer (drained_dry (after plain 8 [do_destroy None] stalled)) =
    _sharedBuffer (after plain 8 [do_destroy None] stalled) /\
  write (drained_dry (after plain 8 [do_destroy None] stalled)) =
    bound_Write false /\
  emitted (drained_dry (after plain 8 [do_destroy None] stalled)) =
    emitted (after plain 8 [do_destroy None] stalled) ++ [ev_drain].
Proof.
  apply (drain_after_the_end_drops_the_queue plain 4
           (after plain 8 [do_destroy None] stalled)).
  - reflexivity.
  - vm_compute. lia.
Defined.

(** ** The frame that [_store] lays out *)

Lemma nth_error_blit (off : Z) (bs B : list Z) (i : nat) :
  0 <= off -> off + len bs <= len B ->
  nth_error (blit off bs B) i =
    if (i <? Z.to_nat off)%nat then nth_error B i
    else if (i <? Z.to_nat off + List.length bs)%nat
         then nth_error bs (i - Z.to_nat off)
         else nth_error B i.
Proof.
  unfold blit, len. intros H0 H1.
  rewrite nth_error_app, length_firstn.
  replace (Nat.min (Z.to_nat off) (List.length B)) with (Z.to_nat off) by lia.
  destruct (Nat.ltb_spec i (Z.to_nat off)) as [Hlt|Hge].
  - rewrite nth_error_firstn.
    destruct (Nat.ltb_spec i (Z.to_nat off)); [reflexivity | lia].
  - rewrite nth_error_app.
    destruct (Nat.ltb_spec (i - Z.to_nat off) (List.length bs)) as [Hin|Hout];
      destruct (Nat.ltb_spec i (Z.to_nat off + List.length bs)); try lia.
    + reflexivity.
    + rewrite nth_error_skipn. f_equal. lia.
Qed.

Lemma nth_error_range (a b : Z) (B : list Z) (i : nat) :
  nth_error (range a b B) i =
    if (i <? Z.to_nat (b - a))%nat then nth_error B (Z.to_nat a + i)
    else None.
Proof.
  unfold range. rewrite nth_error_firstn, nth_error_skipn. reflexivity.
Qed.

(** A region beside the bytes that [blit] writes reads as before. *)
Lemma range_blit_outside (a b off : Z) (bs B : list Z) :
  0 <= off -> off + len bs <= len B -> 0 <= a ->
  b <= off \/ off + len bs <= a ->
  range a b (blit off bs B) = range a b B.
Proof.
  intros H0 H1 Ha Hside. apply nth_error_ext. intros i.
  rewrite !nth_error_range.
  destruct (Nat.ltb_spec i (Z.to_nat (b - a))) as [Hi|Hi]; [|reflexivity].
  rewrite nth_error_blit by assumption. unfold len in *.
  destruct (Nat.ltb_spec (Z.to_nat a + i) (Z.to_nat off)); [reflexivity|].
  destruct (Nat.ltb_spec (Z.to_nat a + i) (Z.to_nat off + List.length bs));
    [lia | reflexivity].
Qed.

(** The region that [blit] writes reads as the bytes written. *)
Lemma range_blit_inside (off : Z) (bs B : list Z) :
  0 <= off -> off + len bs <= len B ->
  range off (off + len bs) (blit off bs B) = bs.
Proof.
  intros H0 H1. apply nth_error_ext. intros i.
  rewrite nth_error_range, nth_error_blit by assumption. unfold len in *.
  replace (Z.to_nat (off + Z.of_nat (List.length bs) - off))
    with (List.length bs) by lia.
  destruct (Nat.ltb_spec i (List.length bs)) as [Hi|Hi].
  - destruct (Nat.ltb_spec (Z.to_nat off + i) (Z.to_nat off)); [lia|].
    destruct (Nat.ltb_spec (Z.to_nat off + i) (Z.to_nat off + List.length bs));
      [|lia].
    f_equal. lia.
  - symmetry. apply nth_error_None. lia.
Qed.

(** On an ASCII string [buf.write] stores all of it or fills the room. *)
Lemma utf8_fit_ascii (s : string) :
  forall room,
    ascii_only s = true -> 0 <= room ->
    len (utf8_fit room s) < room -> utf8_fit room s = utf8 s.
Proof.
  induction s as [|c s IH]; intros room Hs Hr Hlt;
    cbn [utf8_fit utf8 ascii_only] in *; [reflexivity|].
  apply andb_true_iff in Hs as [Hc Hs].
  unfold utf8_char in *. rewrite Hc in *.
  change (len [code c]) with 1 in *.
  destruct (Z.leb_spec 1 room) as [Hle|Hgt].
  - rewrite len_app in Hlt. change (len [code c]) with 1 in Hlt.
    rewrite IH by (trivial; lia). reflexivity.
  - change (len (@nil Z)) with 0 in Hlt. lia.
Qed.

(** What [buf.write] stores is a prefix of the bytes of the string. *)
Lemma utf8_fit_prefix (s : string) :
  forall room,
    firstn (Z.to_nat (len (utf8_fit room s))) (utf8 s) = utf8_fit room s.
Proof.
  induction s as [|c s IH]; intros room; cbn [utf8_fit utf8]; [reflexivity|].
  destruct (len (utf8_char c) <=? room); [|reflexivity].
  rewrite len_app. unfold len at 1 2.
  rewrite <- Nat2Z.inj_add, Nat2Z.id, firstn_app.
  rewrite firstn_all2 by lia.
  specialize (IH (room - len (utf8_char c))).
  unfold len at 1 in IH. rewrite Nat2Z.id in IH.
  rewrite Nat.add_comm, Nat.add_sub.
  rewrite IH. reflexivity.
Qed.

Ltac holds :=
  repeat (apply andb_true_iff; split);
  first [apply Z.leb_le | apply Z.ltb_lt]; lia.

(** Every way [_store] can go.  It throws a [RangeError] with the cursor,
    the state region and the frame log as they were and a ring of the
    same size, when one of the three stores into the ring is out of
    range; or it returns, and they were all in range. *)
Lemma store_cases (cfg : config) (data : string) (isNotFin : Z) (w : writer) :
  let pos := _write w in
  let B := _sharedBuffer w in
  let payload := utf8_fit (len B - (pos + PREFIX_SIZE cfg)) data in
  let n := len payload in
  let mark := pos + n + EXTRA_SPACE cfg in
  match _store cfg data isNotFin w with
  | (Thrown e, w') =>
      e = RangeError /\
      (exists B', w' = set_sharedBuffer B' w /\ len B' = len B) /\
      ~ ((0 <= pos + PREFIX_SIZE cfg <= len B) /\
         (0 <= pos /\ pos + 4 <= len B) /\
         (0 <= mark < len B) /\
         (0 <= isNotFin <= 255) /\
         n < 2147483648)
  | (Returned _, w') =>
      _sharedBuffer w' =
        blit mark [isNotFin]
          (blit pos (int32LE n) (blit (pos + PREFIX_SIZE cfg) payload B)) /\
      _write w' = pos + (PREFIX_SIZE cfg + n + POSTFIX_SIZE cfg + 1) /\
      _sharedState w' =
        Atomics_store (_sharedState w) WRITE_INDEX (_write w') /\
      frames w' = frames w ++ [mkFrame pos payload isNotFin] /\
      notified w' = notified w ++ [WRITE_INDEX] /\
      store_only w w' /\
      (0 <= pos + PREFIX_SIZE cfg <= len B) /\
      (0 <= pos /\ pos + 4 <= len B) /\
      (0 <= mark < len B) /\
      (0 <= isNotFin <= 255) /\
      n < 2147483648 /\
      len (_sharedBuffer w') = len B
  | (OutOfFuel, _) => False
  end.
Proof.
  cbv zeta. unfold _store. rewrite bind_gets.
  unfold bind at 1, Buffer_call at 1, Buffer_write.
  destruct ((0 <=? _write w + PREFIX_SIZE cfg)
            && (_write w + PREFIX_SIZE cfg <=? len (_sharedBuffer w))) eqn:E1.
  2:{ split; [reflexivity|]. split.
      - exists (_sharedBuffer w). split; [|reflexivity].
        destruct w; reflexivity.
      - intros Hin. apply not_true_iff_false in E1. apply E1. holds. }
  apply andb_true_iff in E1 as [E1a E1b].
  apply Z.leb_le in E1a. apply Z.leb_le in E1b.
  set (payload := utf8_fit
         (len (_sharedBuffer w) - (_write w + PREFIX_SIZE cfg)) data).
  assert (Hfit : len payload
                 <= len (_sharedBuffer w) - (_write w + PREFIX_SIZE cfg))
    by (apply utf8_fit_le; lia).
  pose proof (len_nonneg payload) as Hn.
  set (B1 := blit (_write w + PREFIX_SIZE cfg) payload (_sharedBuffer w)).
  assert (L1 : len B1 = len (_sharedBuffer w))
    by (apply blit_length; lia).
  cbv beta iota.
  unfold bind at 1, Buffer_call at 1, Buffer_writeInt32LE. fields.
  rewrite L1.
  destruct ((-2147483648 <=? len payload) && (len payload <? 2147483648)
            && (0 <=? _write w)
            && (_write w + 4 <=? len (_sharedBuffer w))) eqn:E2.
  2:{ split; [reflexivity|]. split.
      - exists B1. split; [reflexivity | exact L1].
      - intros Hin. apply not_true_iff_false in E2. apply E2. holds. }
  apply andb_true_iff in E2 as [E2 E2d].
  apply andb_true_iff in E2 as [E2 E2c].
  apply andb_true_iff in E2 as [E2a E2b].
  apply Z.ltb_lt in E2b. apply Z.leb_le in E2c. apply Z.leb_le in E2d.
  set (B2 := blit (_write w) (int32LE (len payload)) B1).
  assert (L2 : len B2 = len (_sharedBuffer w)).
  { unfold B2. rewrite blit_length; [exact L1 | lia |].
    change (len (int32LE (len payload))) with 4. lia. }
  cbv beta iota.
  unfold bind at 1, Buffer_call at 1, Buffer_writeUInt8. fields.
  rewrite L2.
  destruct ((0 <=? isNotFin) && (isNotFin <=? 255)
            && (0 <=? _write w + len payload + EXTRA_SPACE cfg)
            && (_write w + len payload + EXTRA_SPACE cfg
                <? len (_sharedBuffer w))) eqn:E3.
  2:{ split; [reflexivity|]. split.
      - exists B2. split; [|exact L2]. destruct w; reflexivity.
      - intros Hin. apply not_true_iff_false in E3. apply E3. holds. }
  apply andb_true_iff in E3 as [E3 E3d].
  apply andb_true_iff in E3 as [E3 E3c].
  apply andb_true_iff in E3 as [E3a E3b].
  apply Z.leb_le in E3a. apply Z.leb_le in E3b. apply Z.leb_le in E3c.
  apply Z.ltb_lt in E3d.
  cbv beta iota.
  unfold bind at 1, modify at 1.
  unfold bind at 1, modify at 1.
  rewrite bind_gets.
  unfold bind at 1, store at 1, modify at 1.
  unfold notify, modify.
  unfold store_only. fields.
  replace (firstn (Z.to_nat (len payload)) (utf8 data)) with payload
    by (symmetry; apply utf8_fit_prefix).
  repeat split; try assumption; try lia.
  - destruct w; reflexivity.
  - rewrite blit_length; [exact L2 | lia |].
    change (len [isNotFin]) with 1. lia.
Qed.

(** X16.  The frame of [_store].  When the prefix has room for the 32-bit
    length, the payload with the prefix, the postfix and the mark fits
    between the cursor and the end of the ring, and the mark is a byte,
    [_store] returns and the ring holds, from the cursor on: the length of
    the payload in little-endian order, the rest of the prefix as it was,
    all the bytes of the payload, the postfix as it was (no byte of it is
    written), and the mark.  The ring before the cursor and after the mark
    is as it was; the cursor stands behind the mark and [WRITE_INDEX]
    holds it, notified once. *)
Theorem store_lays_out_one_frame :
  forall (cfg : config) (data : string) (isNotFin : Z) (w : writer),
    4 <= PREFIX_SIZE cfg -> 0 <= POSTFIX_SIZE cfg ->
    0 <= _write w -> 0 <= isNotFin <= 255 ->
    len (utf8 data) < 2147483648 ->
    len (utf8 data) + EXTRA_SPACE cfg + 1 <= ring_size w - _write w ->
    exists w',
      _store cfg data isNotFin w = (Returned tt, w') /\
      range (_write w) (_write w + 4) (_sharedBuffer w') =
        int32LE (len (utf8 data)) /\
      range (_write w + 4) (_write w + PREFIX_SIZE cfg) (_sharedBuffer w') =
        range (_write w + 4) (_write w + PREFIX_SIZE cfg) (_sharedBuffer w) /\
      range (_write w + PREFIX_SIZE cfg)
            (_write w + PREFIX_SIZE cfg + len (utf8 data))
            (_sharedBuffer w') = utf8 data /\
      range (_write w + PREFIX_SIZE cfg + len (utf8 data))
            (_write w + len (utf8 data) + EXTRA_SPACE cfg)
            (_sharedBuffer w') =
        range (_write w + PREFIX_SIZE cfg + len (utf8 data))
              (_write w + len (utf8 data) + EXTRA_SPACE cfg)
              (_sharedBuffer w) /\
      range (_write w + len (utf8 data) + EXTRA_SPACE cfg)
            (_write w + len (utf8 data) + EXTRA_SPACE cfg + 1)
            (_sharedBuffer w') = [isNotFin] /\
      range 0 (_write w) (_sharedBuffer w') =
        range 0 (_write w) (_sharedBuffer w) /\
      range (_write w + len (utf8 data) + EXTRA_SPACE cfg + 1) (ring_size w)
            (_sharedBuffer w') =
        range (_write w + len (utf8 data) + EXTRA_SPACE cfg + 1) (ring_size w)
              (_sharedBuffer w) /\
      _write w' = _write w + len (utf8 data) + EXTRA_SPACE cfg + 1 /\
      word WRITE_INDEX w' = to_int32 (_write w') /\
      notified w' = notified w ++ [WRITE_INDEX].
Proof.
  intros cfg data fin w Hpre Hpost Hpos Hfin Hint Hroom.
  unfold ring_size, EXTRA_SPACE in *.
  pose proof (len_nonneg (utf8 data)) as Hn.
  pose proof (store_cases cfg data fin w) as H. cbv zeta in H.
  rewrite (utf8_fit_all data) in H by lia.
  unfold EXTRA_SPACE in H.
  destruct (_store cfg data fin w) as [[[]|e|] w'].
  - destruct H as (HB & Hw & Hs & _ & Hno & _).
    exists w'. split; [reflexivity|].
    set (pos := _write w) in *. set (n := len (utf8 data)) in *.
    set (B := _sharedBuffer w) in *.
    set (B1 := blit (pos + PREFIX_SIZE cfg) (utf8 data) B) in *.
    set (B2 := blit pos (int32LE n) B1) in *.
    assert (L1 : len B1 = len B) by (apply blit_length; lia).
    assert (L2 : len B2 = len B)
      by (unfold B2; rewrite blit_length; [exact L1 | lia |];
          change (len (int32LE n)) with 4; lia).
    assert (H4 : len (int32LE n) = 4) by reflexivity.
    assert (H1 : len [fin] = 1) by reflexivity.
    rewrite HB.
    repeat split.
    + rewrite range_blit_outside by (rewrite ?H1; lia).
      unfold B2. rewrite <- H4 at 1.
      apply range_blit_inside; rewrite ?H4; lia.
    + rewrite range_blit_outside by (rewrite ?H1; lia).
      unfold B2. rewrite range_blit_outside by (rewrite ?H4; lia).
      unfold B1. apply range_blit_outside; fold n; lia.
    + rewrite range_blit_outside by (rewrite ?H1; lia).
      unfold B2. rewrite range_blit_outside by (rewrite ?H4; lia).
      unfold B1. apply range_blit_inside; fold n; lia.
    + rewrite range_blit_outside by (rewrite ?H1; lia).
      unfold B2. rewrite range_blit_outside by (rewrite ?H4; lia).
      unfold B1. apply range_blit_outside; fold n; lia.
    + rewrite <- H1 at 1.
      apply range_blit_inside; rewrite ?H1; lia.
    + rewrite range_blit_outside by (rewrite ?H1; lia).
      unfold B2. rewrite range_blit_outside by (rewrite ?H4; lia).
      unfold B1. apply range_blit_outside; fold n; lia.
    + rewrite range_blit_outside by (rewrite ?H1; lia).
      unfold B2. rewrite range_blit_outside by (rewrite ?H4; lia).
      unfold B1. apply range_blit_outside; fold n; lia.
    + rewrite Hw. lia.
    + unfold word. rewrite Hs. reflexivity.
    + exact Hno.
  - exfalso. destruct H as (_ & _ & Hnot). apply Hnot. lia.
  - contradiction.
Qed.

Lemma store_lays_out_one_frame_witness :
  exists w',
    _store plain "AB"%string 1 (fresh_ones 16) = (Returned tt, w') /\
    range 0 4 (_sharedBuffer w') = int32LE 2 /\
    range 4 4 (_sharedBuffer w') = range 4 4 (repeat 255 16) /\
    range 4 6 (_sharedBuffer w') = utf8 "AB"%string /\
    range 6 6 (_sharedBuffer w') = range 6 6 (repeat 255 16) /\
    range 6 7 (_sharedBuffer w') = [1] /\
    range 0 0 (_sharedBuffer w') = range 0 0 (repeat 255 16) /\
    range 7 16 (_sharedBuffer w') = range 7 16 (repeat 255 16) /\
    _write w' = 7 /\
    word WRITE_INDEX w' = to_int32 (_write w') /\
    notified w' = [WRITE_INDEX].
Proof.
  apply (store_lays_out_one_frame plain "AB"%string 1 (fresh_ones 16));
    vm_compute; repeat split; first [reflexivity | discriminate].
Defined.

(** X17.  [_store] with an ASCII payload is all or nothing.  Either it
    returns, and then the frame it has laid out carries every byte of
    the payload and the cursor stands inside the ring; or it throws a
    [RangeError], and then nothing is published: the cursor, the state
    region, the frame log and the notifications are as they were (the
    bytes of the ring may already hold a part of the frame).  The size
    of the ring never changes. *)
Theorem store_ascii_all_or_nothing :
  forall (cfg : config) (data : string) (isNotFin : Z) (w : writer)
         (r : result unit) (w' : writer),
    0 <= PREFIX_SIZE cfg -> 0 <= POSTFIX_SIZE cfg ->
    ascii_only data = true ->
    _store cfg data isNotFin w = (r, w') ->
    ring_size w' = ring_size w /\
    ((r = Returned tt /\
      frames w' = frames w ++ [mkFrame (_write w) (utf8 data) isNotFin] /\
      _write w' = _write w + len (utf8 data) + EXTRA_SPACE cfg + 1 /\
      0 < _write w' <= ring_size w /\
      word WRITE_INDEX w' = to_int32 (_write w')) \/
     (r = Thrown RangeError /\
      _write w' = _write w /\
      _sharedState w' = _sharedState w /\
      frames w' = frames w /\
      notified w' = notified w)).
Proof.
  intros cfg data fin w r w' Hpre Hpost Hascii Hrun.
  pose proof (store_cases cfg data fin w) as H. cbv zeta in H.
  rewrite Hrun in H. unfold ring_size, EXTRA_SPACE in *.
  destruct r as [[]|e|].
  - destruct H
      as (HB & Hw & Hs & Hf & Hno & _ & H1 & H2 & H3 & H4 & H5 & HL).
    set (room := len (_sharedBuffer w) - (_write w + PREFIX_SIZE cfg)) in *.
    assert (Hroom : room = len (_sharedBuffer w) - (_write w + PREFIX_SIZE cfg))
      by reflexivity.
    clearbody room.
    assert (Hall : utf8_fit room data = utf8 data)
      by (apply utf8_fit_ascii; [assumption | lia | lia]).
    rewrite Hall in *.
    pose proof (len_nonneg (utf8 data)) as Hn.
    split.
    + exact HL.
    + left. repeat split; try assumption; try lia.
      unfold word. rewrite Hs. reflexivity.
  - destruct H as (-> & (B' & -> & HL) & _).
    split; [exact HL|]. right. repeat split.
  - contradiction.
Qed.

Lemma store_ascii_all_or_nothing_witness :
  ring_size overfull = ring_size (fresh_ones 16) /\
  ((@Thrown unit RangeError = Returned tt /\
    frames overfull =
      frames (fresh_ones 16)
        ++ [mkFrame (_write (fresh_ones 16)) (utf8 "0123456789ab"%string) 0] /\
    _write overfull =
      _write (fresh_ones 16) + len (utf8 "0123456789ab"%string)
        + EXTRA_SPACE plain + 1 /\
    0 < _write overfull <= ring_size (fresh_ones 16) /\
    word WRITE_INDEX overfull = to_int32 (_write overfull)) \/
   (@Thrown unit RangeError = Thrown RangeError /\
    _write overfull = _write (fresh_ones 16) /\
    _sharedState overfull = _sharedState (fresh_ones 16) /\
    frames overfull = frames (fresh_ones 16) /\
    notified overfull = notified (fresh_ones 16))).
Proof.
  apply (store_ascii_all_or_nothing plain "0123456789ab"%string 0
           (fresh_ones 16) (Thrown RangeError) overfull);
    vm_compute; first [reflexivity | discriminate].
Defined.

(** ** The cursor never leaves the ring *)

Lemma cursor_kept_refl w : cursor_kept w w.
Proof. split; [reflexivity | trivial]. Qed.

Lemma cursor_kept_trans a b c :
  cursor_kept a b -> cursor_kept b c -> cursor_kept a c.
Proof. intros [H1 H2] [K1 K2]. split; [congruence | tauto]. Qed.

Lemma ring_untouched_cursor_kept {A : Type} (m : M A) :
  preserves ring_untouched m -> preserves cursor_kept m.
Proof.
  intros Hm w r w' H. apply Hm in H.
  destruct H as (HB & Hw & _ & Hi & _).
  unfold cursor_kept, cursor_in_ring, ring_size. rewrite HB, Hw, Hi.
  split; [reflexivity | trivial].
Qed.

Create HintDb cursorframe.

Ltac by_cursor :=
  unfold cursor_kept, cursor_in_ring, ring_size, word; fields;
  split; [reflexivity | trivial].

Ltac cursor_frame :=
  frame cursor_kept_refl cursor_kept_trans
    ltac:(auto 2 with cursorframe nocore) by_cursor.

Lemma cursor_kept_reader_acts : preserves cursor_kept reader_acts.
Proof. apply ring_untouched_cursor_kept, ring_untouched_reader_acts. Qed.
#[local] Hint Resolve cursor_kept_reader_acts : cursorframe.

Lemma cursor_kept_Atomics_wait (s : slot) (expected timeout : Z) :
  preserves cursor_kept (Atomics_wait s expected timeout).
Proof. apply ring_untouched_cursor_kept, ring_untouched_Atomics_wait. Qed.
#[local] Hint Resolve cursor_kept_Atomics_wait : cursorframe.

Lemma cursor_kept_Atomics_waitAsync (s : slot) (expected : Z)
    (timeout : option Z) :
  preserves cursor_kept (Atomics_waitAsync s expected timeout).
Proof. apply ring_untouched_cursor_kept, ring_untouched_Atomics_waitAsync. Qed.
#[local] Hint Resolve cursor_kept_Atomics_waitAsync : cursorframe.

Lemma cursor_kept_spin_read (budget : nat) :
  forall spins read, preserves cursor_kept (spin_read budget spins read).
Proof.
  induction budget as [|budget IH]; intros spins read; cbn [spin_read];
    cursor_frame.
Qed.
#[local] Hint Resolve cursor_kept_spin_read : cursorframe.

Lemma cursor_kept_destroy (cfg : config) (err : option error) :
  preserves cursor_kept (destroy cfg err).
Proof. apply ring_untouched_cursor_kept, ring_untouched_destroy. Qed.
#[local] Hint Resolve cursor_kept_destroy : cursorframe.

Lemma cursor_kept_end (cfg : config) : preserves cursor_kept (end_ cfg).
Proof. apply ring_untouched_cursor_kept, ring_untouched_end. Qed.
#[local] Hint Resolve cursor_kept_end : cursorframe.

Lemma cursor_kept_watch (cfg : config) (fuel : nat) :
  preserves cursor_kept (_watch cfg fuel).
Proof. apply ring_untouched_cursor_kept, ring_untouched_watch. Qed.
#[local] Hint Resolve cursor_kept_watch : cursorframe.

Lemma cursor_kept_synchronize (cfg : config) :
  preserves cursor_kept (synchronize cfg).
Proof. apply ring_untouched_cursor_kept, ring_untouched_synchronize. Qed.
#[local] Hint Resolve cursor_kept_synchronize : cursorframe.

Lemma cursor_kept_synchronized (cfg : config) (fuel : nat) (v : wait_status) :
  preserves cursor_kept (synchronized cfg fuel v).
Proof. apply ring_untouched_cursor_kept, ring_untouched_synchronized. Qed.
#[local] Hint Resolve cursor_kept_synchronized : cursorframe.

(** The wrap puts the cursor to the start of the ring. *)
Lemma cursor_kept_wrap : preserves cursor_kept wrap.
Proof.
  intros w r w' H. unfold wrap in H.
  unfold bind at 1, modify at 1 in H. rewrite bind_gets in H.
  unfold bind at 1, store at 1, modify at 1 in H. rewrite bind_gets in H.
  unfold bind at 1, modify at 1 in H.
  unfold bind at 1, store at 1, modify at 1 in H.
  unfold notify, modify in H.
  apply (f_equal snd) in H. cbn [snd] in H. subst w'.
  unfold cursor_kept, cursor_in_ring, ring_size, word. fields.
  split; [reflexivity|]. intros _.
  pose proof (len_nonneg (_sharedBuffer w)). split; [lia | reflexivity].
Qed.
#[local] Hint Resolve cursor_kept_wrap : cursorframe.

(** [_store] leaves the cursor behind the mark, and the mark is a byte of
    the ring. *)
Lemma cursor_kept_store (cfg : config) (data : string) (isNotFin : Z) :
  preserves cursor_kept (_store cfg data isNotFin).
Proof.
  intros w r w' Hrun.
  pose proof (store_cases cfg data isNotFin w) as H. cbv zeta in H.
  rewrite Hrun in H. unfold cursor_kept, cursor_in_ring, ring_size, word.
  destruct r as [[]|e|].
  - destruct H as (_ & Hw & Hs & _ & _ & _ & _ & _ & H3 & _ & _ & HL).
    split; [exact HL|]. intros _.
    rewrite HL, Hs. unfold EXTRA_SPACE in H3.
    split; [lia | reflexivity].
  - destruct H as (_ & (B' & -> & HL) & _). fields.
    split; [exact HL|]. rewrite HL. trivial.
  - contradiction.
Qed.
#[local] Hint Resolve cursor_kept_store : cursorframe.

Lemma cursor_kept_Write (cfg : config) (fuel : nat) :
  forall sync toWrite, preserves cursor_kept (Write cfg fuel sync toWrite).
Proof.
  induction fuel as [|fuel IH]; intros sync toWrite; cbn [Write].
  - cursor_frame.
  - unfold load, then_, FakeWrite, Buffer_byteLength. cursor_frame.
Qed.
#[local] Hint Resolve cursor_kept_Write : cursorframe.

Lemma cursor_kept_call_end (cfg : config) (n : nat) :
  preserves cursor_kept (call_end cfg n).
Proof. induction n as [|n IH]; cbn [call_end]; cursor_frame. Qed.
#[local] Hint Resolve cursor_kept_call_end : cursorframe.

Lemma cursor_kept_drain_loop (cfg : config) (fuel : nat) :
  preserves cursor_kept (drain_loop cfg fuel).
Proof. induction fuel as [|fuel IH]; cbn [drain_loop]; cursor_frame. Qed.
#[local] Hint Resolve cursor_kept_drain_loop : cursorframe.

Lemma cursor_kept_drain (cfg : config) (fuel : nat) :
  preserves cursor_kept (_drain cfg fuel).
Proof. unfold _drain, emit_drain, emit. cursor_frame. Qed.
#[local] Hint Resolve cursor_kept_drain : cursorframe.

Lemma cursor_kept_step (cfg : config) (fuel : nat) (a : action) :
  preserves cursor_kept (step cfg fuel a).
Proof.
  destruct a; cbn [step];
    unfold invoke_write, writeSync, run_callback, FakeWrite; cursor_frame.
  apply (preserves_modify _). intros w.
  destruct (reader_step_keeps_writer_words t (_sharedState w)) as (Hi & _).
  unfold cursor_kept, cursor_in_ring, ring_size, word. fields.
  rewrite Hi. split; [reflexivity | trivial].
Qed.

(** X18.  The cursor never leaves the ring.  Whatever the tasks are
    (writes of any payload, drains, wake-ups, [end], [destroy], moves of
    the reader) and however each of them finishes (returning, throwing,
    waiting), a cursor that lies inside the ring with [WRITE_INDEX] equal
    to it still does so afterwards, and the ring has kept its size. *)
Theorem cursor_stays_in_the_ring :
  forall (cfg : config) (fuel : nat) (tasks : list action) (w : writer),
    cursor_in_ring w ->
    cursor_in_ring (after cfg fuel tasks w) /\
    ring_size (after cfg fuel tasks w) = ring_size w.
Proof.
  intros cfg fuel tasks. induction tasks as [|a tasks IH]; intros w Hw;
    cbn [after]; [split; trivial|].
  destruct (step cfg fuel a w) as [r w1] eqn:E. cbn [snd].
  destruct (cursor_kept_step cfg fuel a w r w1 E) as [Hsize Hkeep].
  destruct (IH w1 (Hkeep Hw)) as [H1 H2].
  split; [exact H1 | congruence].
Qed.

Lemma cursor_stays_in_the_ring_witness :
  cursor_in_ring (after plain 8 (two_buffered ++ two_wakes) (fresh 16 [])) /\
  ring_size (after plain 8 (two_buffered ++ two_wakes) (fresh 16 [])) =
    ring_size (fresh 16 []).
Proof.
  apply (cursor_stays_in_the_ring plain 8 (two_buffered ++ two_wakes)
           (fresh 16 [])).
  vm_compute. repeat split; discriminate.
Defined.

(** ** The drain stores the queue in order *)

Lemma bind_returned {A B : Type} (m : M A) (k : A -> M B) (w : writer)
    (b : B) (w' : writer) :
  bind m k w = (Returned b, w') ->
  exists a w1, m w = (Returned a, w1) /\ k a w1 = (Returned b, w').
Proof.
  unfold bind. destruct (m w) as [[a|e|] w1]; intros H;
    [exists a, w1; split; [reflexivity | exact H] | discriminate
    | discriminate].
Qed.

Lemma queue_untouched_refl w : queue_untouched w w.
Proof. reflexivity. Qed.

Lemma queue_untouched_trans a b c :
  queue_untouched a b -> queue_untouched b c -> queue_untouched a c.
Proof. unfold queue_untouched. congruence. Qed.

Create HintDb queueframe.

Ltac by_queue := unfold queue_untouched; fields; reflexivity.

Ltac queue_frame :=
  frame queue_untouched_refl queue_untouched_trans
    ltac:(auto 2 with queueframe nocore) by_queue.

Lemma queue_untouched_reader_acts : preserves queue_untouched reader_acts.
Proof.
  apply (preserves_reader_acts _ queue_untouched_refl).
  intros w st rest. reflexivity.
Qed.
#[local] Hint Resolve queue_untouched_reader_acts : queueframe.

Lemma queue_untouched_Atomics_wait (s : slot) (expected timeout : Z) :
  preserves queue_untouched (Atomics_wait s expected timeout).
Proof. unfold Atomics_wait, load. queue_frame. Qed.
#[local] Hint Resolve queue_untouched_Atomics_wait : queueframe.

Lemma queue_untouched_Atomics_waitAsync (s : slot) (expected : Z)
    (timeout : option Z) :
  preserves queue_untouched (Atomics_waitAsync s expected timeout).
Proof. unfold Atomics_waitAsync, load. queue_frame. Qed.

Lemma queue_untouched_spin_read (budget : nat) :
  forall spins read,
    preserves queue_untouched (spin_read budget spins read).
Proof.
  induction budget as [|budget IH]; intros spins read; cbn [spin_read];
    queue_frame.
Qed.

Lemma queue_untouched_wrap : preserves queue_untouched wrap.
Proof. unfold wrap, store, notify. queue_frame. Qed.

Lemma queue_untouched_store (cfg : config) (data : string) (isNotFin : Z) :
  preserves queue_untouched (_store cfg data isNotFin).
Proof. unfold _store, store, notify. queue_frame. Qed.

(** A call of [Write] that answers [false] has queued nothing. *)
Lemma Write_false_keeps_queue (cfg : config) (fuel : nat) :
  forall sync toWrite w w',
    Write cfg fuel sync toWrite w = (Returned false, w') ->
    _extraBuffer w' = _extraBuffer w.
Proof.
  induction fuel as [|fuel IH]; intros sync toWrite w w' H;
    [discriminate|].
  cbn [Write] in H. rewrite bind_gets in H.
  destruct (writable w); cbn [negb] in H.
  2:{ apply (f_equal snd) in H. cbn [snd] in H. subst w'. reflexivity. }
  unfold load in H. do 5 rewrite bind_gets in H. cbv zeta in H.
  match type of H with
  | (if ?c then _ else _) _ = _ => destruct c; [discriminate|]
  end.
  match type of H with
  | (if ?c then _ else _) _ = _ => destruct c; [discriminate|]
  end.
  match type of H with
  | (if ?c then _ else _) _ = _ => destruct c
  end.
  { destruct sync.
    - apply bind_returned in H as ([] & w1 & H1 & H2).
      apply IH in H2. rewrite H2.
      exact (queue_untouched_spin_read _ _ _ w _ w1 H1).
    - apply bind_returned in H as (waiting & w1 & H1 & H2).
      destruct waiting as [v|].
      + apply IH in H2. rewrite H2.
        exact (queue_untouched_Atomics_waitAsync _ _ _ w _ w1 H1).
      + apply (f_equal fst) in H2.
        unfold then_, FakeWrite, bind, modify, ret in H2.
        cbn [fst] in H2. discriminate. }
  match type of H with
  | (if ?c then _ else _) _ = _ => destruct c
  end.
  { apply bind_returned in H as ([] & w1 & H1 & H2).
    apply IH in H2. rewrite H2.
    exact (queue_untouched_wrap w _ w1 H1). }
  apply bind_returned in H as (size & w1 & H1 & H2).
  assert (w1 = w) as ->.
  { destruct toWrite; [|discriminate].
    apply (f_equal snd) in H1. symmetry. exact H1. }
  clear H1.
  match type of H2 with
  | (if ?c then _ else _) _ = _ => destruct c
  end.
  - apply bind_returned in H2 as ([] & w1 & H1 & H2).
    apply IH in H2. rewrite H2.
    exact (queue_untouched_store _ _ _ w _ w1 H1).
  - apply bind_returned in H2 as ([] & w1 & H1 & H2).
    apply (f_equal snd) in H2. cbn [snd] in H2. subst w'.
    exact (queue_untouched_store _ _ _ w _ w1 H1).
Qed.

(** *** A writer in working order stays so *)

Lemma steady_kept_refl w : steady_kept w w.
Proof. split; [reflexivity | trivial]. Qed.

Lemma steady_kept_trans a b c :
  steady_kept a b -> steady_kept b c -> steady_kept a c.
Proof. intros [H1 H2] [K1 K2]. split; [congruence | tauto]. Qed.

Lemma same_ring_steady_kept {A : Type} (m : M A) :
  preserves same_ring m -> preserves steady_kept m.
Proof.
  intros Hm w r w' H. apply Hm in H. split.
  - apply H.
  - intros Hst. exact (steady_same_ring w w' Hst H).
Qed.

Create HintDb steadyframe.

Ltac by_steady :=
  unfold steady_kept, steady, reader_in_range, writable, ring_size, word;
  fields; split; [reflexivity | trivial].

Ltac steady_frame :=
  frame steady_kept_refl steady_kept_trans
    ltac:(auto 2 with steadyframe nocore) by_steady.

Lemma steady_kept_Atomics_waitAsync (s : slot) (expected : Z)
    (timeout : option Z) :
  preserves steady_kept (Atomics_waitAsync s expected timeout).
Proof. apply same_ring_steady_kept, same_ring_Atomics_waitAsync. Qed.
#[local] Hint Resolve steady_kept_Atomics_waitAsync : steadyframe.

Lemma steady_kept_spin_read (budget : nat) (spins read : Z) :
  preserves steady_kept (spin_read budget spins read).
Proof. apply same_ring_steady_kept, same_ring_spin_read. Qed.
#[local] Hint Resolve steady_kept_spin_read : steadyframe.

Lemma steady_kept_wrap : preserves steady_kept wrap.
Proof. apply same_ring_steady_kept, same_ring_wrap. Qed.
#[local] Hint Resolve steady_kept_wrap : steadyframe.

Lemma steady_kept_store (cfg : config) (data : string) (isNotFin : Z) :
  preserves steady_kept (_store cfg data isNotFin).
Proof.
  intros w r w' Hrun.
  pose proof (store_cases cfg data isNotFin w) as H. cbv zeta in H.
  rewrite Hrun in H.
  unfold steady_kept, steady, reader_in_range, writable, ring_size, word.
  destruct r as [[]|e|].
  - destruct H as (_ & Hw & Hs & _ & _ & Hso & _ & _ & H3 & _ & _ & HL).
    split; [exact HL|]. rewrite HL, Hs, Hw.
    unfold store_only in Hso.
    assert (Hd : _destroyed w' = _destroyed w) by (rewrite <- Hso; reflexivity).
    assert (He : _ending w' = _ending w) by (rewrite <- Hso; reflexivity).
    assert (Hr : reader w' = reader w) by (rewrite <- Hso; reflexivity).
    rewrite Hd, He, Hr. unfold EXTRA_SPACE in H3. fields.
    intros (H1 & H2 & H4). repeat split; try assumption; try lia; apply H4.
  - destruct H as (_ & (B' & -> & HL) & _). fields.
    split; [exact HL|]. rewrite HL. trivial.
  - contradiction.
Qed.
#[local] Hint Resolve steady_kept_store : steadyframe.

Lemma steady_kept_Write (cfg : config) (fuel : nat) :
  forall sync toWrite, preserves steady_kept (Write cfg fuel sync toWrite).
Proof.
  induction fuel as [|fuel IH]; intros sync toWrite; cbn [Write].
  - steady_frame.
  - unfold load, then_, FakeWrite, Buffer_byteLength. steady_frame.
Qed.

Lemma payloads_app (a b : list frame) :
  List.concat (payloads (a ++ b)) =
    List.concat (payloads a) ++ List.concat (payloads b).
Proof. unfold payloads. rewrite map_app, concat_app. reflexivity. Qed.

(** The loop of [_drain], when it runs to the end of the queue: every
    payload has gone into the ring, in the order of the queue. *)
Lemma drain_loop_stores (cfg : config) (fuel : nat) :
  0 <= PREFIX_SIZE cfg -> 0 <= POSTFIX_SIZE cfg ->
  forall w w',
    steady w ->
    Forall ascii_item (_extraBuffer w) ->
    _extraBuffer w <> [] ->
    drain_loop cfg fuel w = (Returned true, w') ->
    exists fs,
      frames w' = frames w ++ fs /\
      List.concat (payloads fs) = queued_bytes (_extraBuffer w) /\
      _extraBuffer w' = [] /\
      emitted w' = emitted w.
Proof.
  intros Hpre Hpost.
  induction fuel as [|fuel IH]; intros w w' Hst Hq Hne H; [discriminate|].
  cbn [drain_loop] in H.
  apply bind_returned in H as (item & w1 & Hshift & H).
  unfold shift in Hshift.
  destruct (_extraBuffer w) as [|first rest] eqn:Eq; [contradiction|].
  apply Forall_cons_iff in Hq as [(s & -> & Hs) Hrest].
  assert (item = Some s /\ w1 = set_extraBuffer rest w) as [-> ->].
  { split; [apply (f_equal fst) in Hshift | apply (f_equal snd) in Hshift];
      cbn [fst snd] in Hshift; congruence. }
  clear Hshift.
  assert (Hst1 : steady (set_extraBuffer rest w)) by exact Hst.
  apply bind_returned in H as (status & w2 & Hwrite & H).
  destruct status.
  { apply (f_equal fst) in H. cbn [fst] in H. discriminate. }
  pose proof (Write_false_keeps_queue cfg fuel _ _ _ _ Hwrite) as Hqueue.
  pose proof (lifecycle_untouched_Write cfg fuel _ _ _ _ _ Hwrite)
    as (Hem & _).
  destruct (steady_kept_Write cfg fuel _ _ _ _ _ Hwrite) as [_ Hst2].
  specialize (Hst2 Hst1).
  apply (Write_frames cfg Hpre Hpost) in Hwrite; try assumption.
  cbn [Write_outcome] in Hwrite.
  destruct Hwrite as (heads & last & Hf & _ & _ & Hc & _).
  fields.
  rewrite bind_gets in H. rewrite Hqueue in H. fields.
  destruct rest as [|item' rest'].
  - unfold ret in H. apply (f_equal snd) in H. cbn [snd] in H. subst w'.
    exists (heads ++ [last]). cbn [queued_bytes string_of].
    rewrite app_nil_r. repeat split; assumption.
  - assert (Hn : (len (item' :: rest') =? 0) = false)
      by (apply Z.eqb_neq; unfold len; cbn [List.length]; lia).
    rewrite Hn in H.
    destruct (IH w2 w' Hst2) as (fs & Hf' & Hc' & Hx' & He');
      [rewrite Hqueue; exact Hrest | rewrite Hqueue; discriminate
      | exact H |].
    exists ((heads ++ [last]) ++ fs).
    rewrite Hf', Hf, payloads_app, Hc, Hc', Hqueue, He', Hem.
    cbn [queued_bytes string_of]. rewrite <- !app_assoc.
    repeat split; trivial.
Qed.

Lemma ring_untouched_call_end (cfg : config) (n : nat) :
  preserves ring_untouched (call_end cfg n).
Proof. induction n as [|n IH]; cbn [call_end]; ring_frame. Qed.

Lemma past_kept_call_end (cfg : config) (n : nat) :
  preserves past_kept (call_end cfg n).
Proof. induction n as [|n IH]; cbn [call_end]; past_frame. Qed.

(** X19.  A drain that returns [true] has stored the whole queue, in
    order.  On a writer in working order whose queue holds ASCII strings,
    the frames that [_drain] has added to the ring carry, one after the
    other, the bytes of the queued payloads in the order of the queue;
    the queue is empty, [write] is bound to the engine again and
    ['drain'] is the first event emitted since the call. *)
Theorem drain_stores_the_queue_in_order :
  forall (cfg : config) (fuel : nat) (w w' : writer),
    0 <= PREFIX_SIZE cfg -> 0 <= POSTFIX_SIZE cfg ->
    steady w ->
    Forall ascii_item (_extraBuffer w) ->
    _extraBuffer w <> [] ->
    _drain cfg fuel w = (Returned true, w') ->
    exists fs,
      frames w' = frames w ++ fs /\
      List.concat (payloads fs) = queued_bytes (_extraBuffer w) /\
      _extraBuffer w' = [] /\
      write w' = bound_Write false /\
      exists more, emitted w' = emitted w ++ ev_drain :: more.
Proof.
  intros cfg fuel w w' Hpre Hpost Hst Hq Hne H.
  unfold _drain in H.
  apply bind_returned in H as (emptied & w1 & Hloop & H).
  destruct emptied.
  2:{ apply (f_equal fst) in H. cbn [fst] in H. discriminate. }
  destruct (drain_loop_stores cfg fuel Hpre Hpost w w1 Hst Hq Hne Hloop)
    as (fs & Hf & Hc & Hx & He).
  unfold bind at 1, modify at 1 in H.
  unfold bind at 1, modify at 1 in H.
  apply bind_returned in H as ([] & w2 & Hemit & H).
  unfold ret in H. apply (f_equal snd) in H. cbn [snd] in H. subst w2.
  unfold emit_drain in Hemit.
  unfold bind at 1, emit at 1 in Hemit.
  unfold bind at 1, modify at 1, ret at 1 in Hemit.
  rewrite bind_gets in Hemit.
  pose proof (ring_untouched_call_end cfg _ _ _ _ Hemit)
    as (_ & _ & _ & _ & _ & Hf2 & Hx2 & Hw2).
  pose proof (past_kept_call_end cfg _ _ _ _ Hemit) as (_ & more & He2).
  fields.
  exists fs. rewrite Hf2, Hx2, Hw2, He2, Hf, He, <- app_assoc.
  repeat split; trivial. exists more. reflexivity.
Qed.

Lemma drain_stores_the_queue_in_order_witness :
  exists fs,
    frames (snd (_drain plain 8
                   (after plain 8 [reader_moves (reads_to 16)] stalled))) =
      frames (after plain 8 [reader_moves (reads_to 16)] stalled) ++ fs /\
    List.concat (payloads fs) =
      queued_bytes
        (_extraBuffer (after plain 8 [reader_moves (reads_to 16)] stalled)) /\
    _extraBuffer
      (snd (_drain plain 8
              (after plain 8 [reader_moves (reads_to 16)] stalled))) = [] /\
    write (snd (_drain plain 8
                  (after plain 8 [reader_moves (reads_to 16)] stalled))) =
      bound_Write false /\
    exists more,
      emitted
        (snd (_drain plain 8
                (after plain 8 [reader_moves (reads_to 16)] stalled))) =
        emitted (after plain 8 [reader_moves (reads_to 16)] stalled)
          ++ ev_drain :: more.
Proof.
  apply (drain_stores_the_queue_in_order plain 8
           (after plain 8 [reader_moves (reads_to 16)] stalled)
           (snd (_drain plain 8
                   (after plain 8 [reader_moves (reads_to 16)] stalled)))).
  - vm_compute. discriminate.
  - vm_compute. discriminate.
  - unfold steady, reader_in_range.
    split; [vm_compute; reflexivity|].
    split; [vm_compute; discriminate|].
    split; [vm_compute; discriminate|].
    assert (E : reader (after plain 8 [reader_moves (reads_to 16)] stalled)
                = []) by (vm_compute; reflexivity).
    rewrite E. constructor.
  - vm_compute. constructor; [|constructor].
    exists " 1234"%string. split; reflexivity.
  - vm_compute. discriminate.
  - vm_compute. reflexivity.
Defined.

(** ** The errors of the engine *)

Lemma bind_thrown {A B : Type} (m : M A) (k : A -> M B) (w : writer)
    (e : error) (w' : writer) :
  bind m k w = (Thrown e, w') ->
  m w = (Thrown e, w') \/
  exists a w1, m w = (Returned a, w1) /\ k a w1 = (Thrown e, w').
Proof.
  unfold bind. destruct (m w) as [[a|e0|] w1]; intros H.
  - right. exists a, w1. split; [reflexivity | exact H].
  - left. injection H as -> ->. reflexivity.
  - discriminate.
Qed.

(** The synchronous wait throws nothing but its own timeout. *)
Lemma spin_read_throws (budget : nat) :
  forall spins read w e w',
    spin_read budget spins read w = (Thrown e, w') -> e = TOO_LONG_READING.
Proof.
  induction budget as [|budget IH]; intros spins read w e w' H;
    [discriminate|].
  cbn [spin_read] in H. unfold bind at 1 in H.
  destruct (Atomics_wait_spec READ_INDEX read SPIN_TIMEOUT w)
    as (r & w1 & Hwait & _).
  rewrite Hwait in H. cbv zeta in H.
  destruct (spins + 1 =? READ_SPINS).
  - unfold throw in H. congruence.
  - destruct r; [discriminate | eapply IH; exact H | discriminate].
Qed.

(** With room for the whole frame, [_store] returns. *)
Lemma store_in_range_returns (cfg : config) (data : string) (isNotFin : Z)
    (w : writer) :
  4 <= PREFIX_SIZE cfg -> 0 <= POSTFIX_SIZE cfg ->
  0 <= _write w -> 0 <= isNotFin <= 255 ->
  len (utf8 data) < 2147483648 ->
  len (utf8 data) + EXTRA_SPACE cfg + 1 <= ring_size w - _write w ->
  exists w', _store cfg data isNotFin w = (Returned tt, w').
Proof.
  intros Hpre Hpost Hpos Hfin Hint Hroom.
  unfold ring_size, EXTRA_SPACE in *.
  pose proof (len_nonneg (utf8 data)) as Hn.
  pose proof (store_cases cfg data isNotFin w) as H. cbv zeta in H.
  rewrite (utf8_fit_all data) in H by lia.
  unfold EXTRA_SPACE in H.
  destruct (_store cfg data isNotFin w) as [[[]|e|] w'].
  - exists w'. reflexivity.
  - exfalso. destruct H as (_ & _ & Hnot). apply Hnot. lia.
  - contradiction.
Qed.

Lemma Write_throws (cfg : config) (fuel : nat) :
  4 <= PREFIX_SIZE cfg -> 0 <= POSTFIX_SIZE cfg ->
  forall sync q w e w',
    steady w -> ascii_only q = true -> ring_size w < 2147483648 ->
    Write cfg fuel sync (Some q) w = (Thrown e, w') ->
    e = overwritten \/ e = read_further_than_expected \/
    (sync = true /\ e = TOO_LONG_READING).
Proof.
  intros Hpre Hpost.
  induction fuel as [|fuel IH]; intros sync q w e w' Hst Hq Hsize H;
    [discriminate|].
  pose proof Hst as (Hw & Hpos & Hin & Hscript).
  cbn [Write] in H.
  rewrite bind_gets in H. cbv beta in H. rewrite Hw in H. cbn [negb] in H.
  unfold load in H.
  do 5 (rewrite bind_gets in H; cbv beta in H).
  fold (word READ_INDEX w) in H. fold (word READ_CYCLE w) in H.
  fold (ring_size w) in H.
  cbv zeta in H.
  set (isBehind :=
         (word READ_INDEX w >? _write w) || (word READ_CYCLE w <? _cycle w))
    in H.
  set (avail := if isBehind then word READ_INDEX w else ring_size w) in H.
  assert (Havail : avail <= ring_size w)
    by (unfold avail; destruct isBehind; lia).
  clearbody avail.
  set (leftover := avail - _write w - (EXTRA_SPACE cfg + 1)) in H.
  assert (Hleft : leftover = avail - _write w - (EXTRA_SPACE cfg + 1))
    by reflexivity.
  clearbody leftover. unfold EXTRA_SPACE in Hleft.
  destruct (avail - _write w <? 0);
    [unfold throw in H; left; congruence|].
  destruct (word READ_CYCLE w >? _cycle w);
    [unfold throw in H; right; left; congruence|].
  destruct (Z.leb_spec leftover 0) as [Hle|Hgt]; cbn [andb] in H.
  - destruct isBehind; cbn [negb] in H.
    + destruct sync.
      * apply bind_thrown in H as [H | ([] & w1 & Es & H)].
        -- right; right. split; [reflexivity|].
           eapply spin_read_throws; exact H.
        -- destruct (steady_kept_spin_read _ _ _ _ _ _ Es) as [Hsz Hk].
           destruct (IH false q w1 e w' (Hk Hst) Hq) as [?|[?|[? _]]];
             [rewrite Hsz; exact Hsize | exact H | auto | auto
             | discriminate].
      * apply bind_thrown in H as [H | (waiting & w1 & Ea & H)].
        -- exfalso.
           destruct (waitAsync_cases READ_INDEX (word READ_INDEX w) w)
             as (w2 & _ & [[E _]|[E _]]); rewrite E in H; discriminate.
        -- destruct (steady_kept_Atomics_waitAsync _ _ _ _ _ _ Ea)
             as [Hsz Hk].
           destruct waiting as [v|].
           ++ apply (IH false q w1 e w' (Hk Hst) Hq);
                [rewrite Hsz; exact Hsize | exact H].
           ++ unfold then_, FakeWrite, bind, modify, ret in H. discriminate.
    + apply bind_thrown in H as [H | ([] & w1 & Ew & H)].
      * unfold wrap, store, notify, bind, modify, gets in H. discriminate.
      * destruct (steady_kept_wrap _ _ _ Ew) as [Hsz Hk].
        apply (IH sync q w1 e w' (Hk Hst) Hq);
          [rewrite Hsz; exact Hsize | exact H].
  - cbn [Buffer_byteLength string_of] in H. rewrite bind_ret in H.
    pose proof (len_nonneg (utf8 q)) as Hlen.
    destruct (Z.ltb_spec leftover (len (utf8 q) + EXTRA_SPACE cfg))
      as [Hsplit|Hfits]; unfold EXTRA_SPACE in *.
    + rewrite slice_head, slice_tail in H by assumption.
      set (n := Z.to_nat (Z.min leftover (Z.of_nat (String.length q)))) in H.
      assert (Hchunk : 0 <= len (utf8 (take n q)) <= leftover).
      { rewrite ascii_only_len by (apply ascii_only_take; exact Hq).
        rewrite length_take. unfold n. lia. }
      destruct (store_in_range_returns cfg (take n q) 1 w) as (w1 & Est);
        try assumption; unfold EXTRA_SPACE; try lia.
      unfold bind at 1 in H. rewrite Est in H.
      destruct (steady_kept_store _ _ _ _ _ _ Est) as [Hsz Hk].
      apply (IH sync (drop n q) w1 e w' (Hk Hst));
        [apply ascii_only_drop; exact Hq | rewrite Hsz; exact Hsize
        | exact H].
    + destruct (store_in_range_returns cfg q 0 w) as (w1 & Est);
        try assumption; unfold EXTRA_SPACE; try lia.
      unfold bind in H. rewrite Est in H. discriminate.
Qed.

(** X20.  The engine always meets the precondition of [_store].  On a
    writer in working order, with a prefix that has room for the 32-bit
    length and a ring below 2 GiB, a call of [Write] with an ASCII
    string never fails inside [_store] or [Buffer.byteLength]: whenever
    it throws, the error is one of its own three, ['overwritten'],
    ['Read further than expected'], or, in a synchronous call only, the
    timeout of the wait for the reader. *)
Theorem write_throws_only_its_own_errors :
  forall (cfg : config) (fuel : nat) (sync : bool) (p : string)
         (w : writer) (e : error) (w' : writer),
    4 <= PREFIX_SIZE cfg -> 0 <= POSTFIX_SIZE cfg ->
    steady w -> ascii_only p = true -> ring_size w < 2147483648 ->
    Write cfg fuel sync (Some p) w = (Thrown e, w') ->
    e = overwritten \/ e = read_further_than_expected \/
    (sync = true /\ e = TOO_LONG_READING).
Proof.
  intros cfg fuel sync p w e w' Hpre Hpost.
  exact (Write_throws cfg fuel Hpre Hpost sync p w e w').
Qed.

Lemma write_throws_only_its_own_errors_witness :
  read_further_than_expected = overwritten \/
  read_further_than_expected = read_further_than_expected \/
  (false = true /\ read_further_than_expected = TOO_LONG_READING).
Proof.
  apply (write_throws_only_its_own_errors plain 1 false "AB"%string
           overtaken read_further_than_expected overtaken).
  - vm_compute. discriminate.
  - vm_compute. discriminate.
  - unfold steady, reader_in_range.
    split; [vm_compute; reflexivity|].
    split; [vm_compute; discriminate|].
    split; [vm_compute; discriminate|].
    assert (E : reader overtaken = []) by (vm_compute; reflexivity).
    rewrite E. constructor.
  - reflexivity.
  - vm_compute. reflexivity.
  - vm_compute. reflexivity.
Defined.

(** X21.  [Write] terminates.  For every string, every writer and every
    script of the reader, the recursion of [Write] ends, returning or
    throwing, within four calls per code unit of the payload and per
    turn the reader still takes, and four more. *)
Theorem write_terminates :
  forall (cfg : config) (sync : bool) (p : string) (w : writer)
         (spare : nat),
    fst (Write cfg
           (4 * (List.length (reader w) + String.length p) + 4 + spare)
           sync (Some p) w) <> OutOfFuel.
Proof.
  intros cfg sync p w spare. apply Write_total. lia.
Qed.

(** ** The end is final *)

(** X22.  [synchronize] does not ask whether the writer is writable.
    Called after [destroy] on a writer that was active beside a ready
    reader, it replaces the sign that [destroy] has published in
    [WRITE_PROCESS] by [READY_SIGN], sets [ready] and emits ['ready']
    after the events of [destroy].  When [destroy] returned (no error,
    or a listener for ['error']), ['ready'] comes after ['close'] and the
    writer stays destroyed and not writable.  When [destroy] let its
    error out, ['ready'] comes after ['error'], and the writer is not
    destroyed and writable. *)
Theorem synchronize_after_destroy_revives_the_sign :
  forall (cfg : config) (err : option error) (w : writer),
    writable w = true ->
    word READ_PROCESS w = READY_SIGN cfg ->
    word WRITE_PROCESS w = READY_SIGN cfg \/
    word WRITE_PROCESS w = EMPTY_SIGN cfg ->
    exists r w1 w2,
      destroy cfg err w = (r, w1) /\
      synchronize cfg w1 = (Returned tt, w2) /\
      word WRITE_PROCESS w1 =
        to_int32 (match err with
                  | Some _ => FAILED_SIGN cfg
                  | None => FINISHED_SIGN cfg
                  end) /\
      word WRITE_PROCESS w2 = to_int32 (READY_SIGN cfg) /\
      ready w2 = true /\
      (heard err w = true ->
       r = Returned tt /\
       emitted w2 = emitted w ++ destroy_events err ++ [ev_ready] /\
       _destroyed w2 = true /\
       writable w2 = false) /\
      (forall e,
         err = Some e -> error_listener w = false ->
         r = Thrown e /\
         emitted w2 = emitted w ++ [ev_error e; ev_ready] /\
         _destroyed w2 = false /\
         writable w2 = true).
Proof.
  intros cfg err w Hw Hr Hs.
  destruct (destroy_on_writable cfg err w Hw)
    as (w1 & Hrun & Hev & Hd & _ & _ & _ & Hnw & _ & _ & _ & _ & _ & _
        & Hrp & Hsign & _).
  assert (Hactive :
    ((word WRITE_PROCESS w =? READY_SIGN cfg)
     || (word WRITE_PROCESS w =? EMPTY_SIGN cfg))
    && ((word READ_PROCESS w =? READY_SIGN cfg)
        || (word READ_PROCESS w =? EMPTY_SIGN cfg)) = true).
  { rewrite Hr, Z.eqb_refl. cbn [orb]. rewrite andb_true_r.
    destruct Hs as [-> | ->]; rewrite Z.eqb_refl;
      [reflexivity | apply orb_true_r]. }
  rewrite Hactive in Hsign. destruct Hsign as [Hsign _].
  rewrite Hr in Hrp.
  assert (Hsync :
    synchronize cfg w1 =
      (Returned tt,
       set_emitted (emitted w1 ++ [ev_ready])
         (set_ready true
            (set_sharedState
               (Atomics_store (_sharedState w1) WRITE_PROCESS (READY_SIGN cfg))
               (set_process (READY_SIGN cfg) w1))))).
  { unfold synchronize.
    unfold bind at 1, modify at 1. rewrite bind_gets.
    unfold bind at 1, store at 1, modify at 1.
    unfold load. rewrite bind_gets. unfold word in Hrp. fields.
    rewrite Hrp, Z.eqb_refl. reflexivity. }
  eexists _, w1, _. split; [exact Hrun|]. split; [exact Hsync|].
  unfold word, ready, writable in *. fields.
  split; [exact Hsign|]. split; [reflexivity|]. split; [reflexivity|].
  rewrite Hev, Hd, <- app_assoc. rewrite Hd in Hnw. split.
  - intros Hh. rewrite Hh in *. cbn [negb] in *.
    assert (Ha : destroy_answer err w = Returned tt /\
                 destroy_log err w = destroy_events err).
    { unfold destroy_answer, destroy_log, destroy_events, heard in *.
      destruct err; [rewrite Hh|]; split; reflexivity. }
    destruct Ha as [-> ->]. repeat split; assumption.
  - intros e -> Hl. unfold destroy_answer, destroy_log, heard in *.
    rewrite Hl in *. cbn [negb andb] in *. repeat split; assumption.
Qed.

Lemma synchronize_after_destroy_revives_the_sign_witness :
  exists r w1 w2,
    destroy plain (Some (other_error "stop"))
      (set_error_listener true (attached [])) = (r, w1) /\
    synchronize plain w1 = (Returned tt, w2) /\
    word WRITE_PROCESS w1 = to_int32 (FAILED_SIGN plain) /\
    word WRITE_PROCESS w2 = to_int32 (READY_SIGN plain) /\
    ready w2 = true /\
    (true = true ->
     r = Returned tt /\
     emitted w2 =
       emitted (set_error_listener true (attached []))
         ++ destroy_events (Some (other_error "stop")) ++ [ev_ready] /\
     _destroyed w2 = true /\
     writable w2 = false) /\
    (forall e,
       Some (other_error "stop") = Some e ->
       true = false ->
       r = Thrown e /\
       emitted w2 =
         emitted (set_error_listener true (attached []))
           ++ [ev_error e; ev_ready] /\
       _destroyed w2 = false /\
       writable w2 = true).
Proof.
  apply (synchronize_after_destroy_revives_the_sign plain
           (Some (other_error "stop"))
           (set_error_listener true (attached []))).
  - reflexivity.
  - reflexivity.
  - left. reflexivity.
Defined.

Lemma frozen_refl w : frozen w w.
Proof. unfold frozen. repeat split. Qed.

Lemma final_refl w : final w w.
Proof. intros _. apply frozen_refl. Qed.

Lemma final_trans a b c : final a b -> final b c -> final a c.
Proof.
  unfold final, frozen, writable. intros H K Ha.
  destruct (H Ha)
    as (H1 & H2 & H3 & H4 & H5 & H6 & H7 & H8 & H9 & H10 & H11 & H12 & H13
        & H14 & H15).
  destruct K
    as (K1 & K2 & K3 & K4 & K5 & K6 & K7 & K8 & K9 & K10 & K11 & K12 & K13
        & K14 & K15);
    [congruence|].
  repeat split; congruence.
Qed.

Create HintDb finalframe.

Ltac by_final :=
  unfold final, frozen, writable, closes, finishes, errors, word; fields;
  intros _; repeat split; reflexivity.

Ltac final_frame :=
  frame final_refl final_trans
    ltac:(auto 2 with finalframe nocore) by_final.

(** An event that does not end the lifecycle. *)
Lemma final_emit (e : event) :
  is_close e || is_finish e || is_error e = false ->
  preserves final (emit e).
Proof.
  intros He. apply (preserves_emit _ final_refl final_trans). intros w _.
  unfold frozen, closes, finishes, errors, word. fields.
  rewrite !filter_app, !length_app. cbn [filter].
  destruct (is_close e), (is_finish e), (is_error e); try discriminate.
  cbn [List.length]. repeat split; lia.
Qed.

Lemma final_emit_ready : preserves final (emit ev_ready).
Proof. apply final_emit. reflexivity. Qed.
#[local] Hint Resolve final_emit_ready : finalframe.

Lemma final_emit_drain : preserves final (emit ev_drain).
Proof. apply final_emit. reflexivity. Qed.
#[local] Hint Resolve final_emit_drain : finalframe.

Lemma final_reader_acts : preserves final reader_acts.
Proof.
  intros w r w' H _. unfold reader_acts in H.
  destruct (reader w) as [|t rest]; inversion H; subst;
    [apply frozen_refl|].
  destruct (reader_step_keeps_writer_words t (_sharedState w))
    as (Hi & Hc & _).
  unfold frozen, word, closes, finishes, errors. fields.
  repeat split; assumption.
Qed.
#[local] Hint Resolve final_reader_acts : finalframe.

Lemma final_Atomics_waitAsync (s : slot) (expected : Z) (timeout : option Z) :
  preserves final (Atomics_waitAsync s expected timeout).
Proof. unfold Atomics_waitAsync, load. final_frame. Qed.
#[local] Hint Resolve final_Atomics_waitAsync : finalframe.

(** On a writer that is not writable, [end], [destroy] and [Write] change
    nothing. *)
Lemma final_end (cfg : config) : preserves final (end_ cfg).
Proof.
  intros w r w' H Hw. unfold end_ in H. rewrite bind_gets, Hw in H.
  apply (f_equal snd) in H. cbn [snd negb] in H. subst w'.
  apply frozen_refl.
Qed.
#[local] Hint Resolve final_end : finalframe.

Lemma final_destroy (cfg : config) (err : option error) :
  preserves final (destroy cfg err).
Proof.
  intros w r w' H Hw. unfold destroy in H. rewrite bind_gets, Hw in H.
  apply (f_equal snd) in H. cbn [snd negb] in H. subst w'.
  apply frozen_refl.
Qed.
#[local] Hint Resolve final_destroy : finalframe.

Lemma final_Write (cfg : config) (fuel : nat) (sync : bool)
    (toWrite : jsval) :
  preserves final (Write cfg fuel sync toWrite).
Proof.
  intros w r w' H Hw. destruct fuel as [|fuel]; cbn [Write] in H.
  - apply (f_equal snd) in H. cbn [snd] in H. subst w'. apply frozen_refl.
  - rewrite bind_gets, Hw in H.
    apply (f_equal snd) in H. cbn [snd negb] in H. subst w'.
    apply frozen_refl.
Qed.
#[local] Hint Resolve final_Write : finalframe.

Lemma final_call_end (cfg : config) (n : nat) :
  preserves final (call_end cfg n).
Proof. induction n as [|n IH]; cbn [call_end]; final_frame. Qed.
#[local] Hint Resolve final_call_end : finalframe.

Lemma final_drain_loop (cfg : config) (fuel : nat) :
  preserves final (drain_loop cfg fuel).
Proof. induction fuel as [|fuel IH]; cbn [drain_loop]; final_frame. Qed.
#[local] Hint Resolve final_drain_loop : finalframe.

Lemma final_drain (cfg : config) (fuel : nat) :
  preserves final (_drain cfg fuel).
Proof. unfold _drain, emit_drain. final_frame. Qed.
#[local] Hint Resolve final_drain : finalframe.

Lemma final_watch (cfg : config) (fuel : nat) :
  preserves final (_watch cfg fuel).
Proof.
  induction fuel as [|fuel IH]; cbn [_watch]; [final_frame|].
  unfold load, then_. final_frame.
Qed.
#[local] Hint Resolve final_watch : finalframe.

Lemma final_synchronize (cfg : config) : preserves final (synchronize cfg).
Proof. unfold synchronize, load, store, then_. final_frame. Qed.
#[local] Hint Resolve final_synchronize : finalframe.

Lemma final_synchronized (cfg : config) (fuel : nat) (v : wait_status) :
  preserves final (synchronized cfg fuel v).
Proof. unfold synchronized, load. final_frame. Qed.
#[local] Hint Resolve final_synchronized : finalframe.

Lemma final_step (cfg : config) (fuel : nat) (a : action) :
  preserves final (step cfg fuel a).
Proof.
  destruct a; cbn [step];
    unfold invoke_write, writeSync, run_callback, FakeWrite; final_frame.
  apply (preserves_modify _). intros w _.
  destruct (reader_step_keeps_writer_words t (_sharedState w))
    as (Hi & Hc & _).
  unfold frozen, word, closes, finishes, errors. fields.
  repeat split; assumption.
Qed.

(** X23.  The end is final.  Once a writer is not writable, after [end]
    or [destroy], it never becomes writable again and nothing is ever
    stored into the ring again, whatever is called on it and whatever
    the reader does: the bytes of the ring, the cursor, the cycle,
    [WRITE_INDEX], [WRITE_CYCLE] and the frame log stay as they are, the
    attributes [closed], [writableEnded], [writableFinished] and
    [writableErrored] keep their values, and no further ['close'],
    ['finish'] or ['error'] is emitted. *)
Theorem the_end_is_final :
  forall (cfg : config) (fuel : nat) (tasks : list action) (w : writer),
    writable w = false ->
    writable (after cfg fuel tasks w) = false /\
    frozen w (after cfg fuel tasks w).
Proof.
  intros cfg fuel tasks. induction tasks as [|a tasks IH]; intros w Hw;
    cbn [after]; [split; [exact Hw | apply frozen_refl]|].
  destruct (step cfg fuel a w) as [r w1] eqn:E. cbn [snd].
  pose proof (final_step cfg fuel a w r w1 E Hw) as Hfz.
  assert (Hw1 : writable w1 = false).
  { destruct Hfz as (Hd & He & _). unfold writable in *.
    rewrite Hd, He. exact Hw. }
  destruct (IH w1 Hw1) as [H1 H2]. split; [exact H1|].
  assert (Hall : final w (after cfg fuel tasks w1))
    by (apply (final_trans w w1); intros _; assumption).
  exact (Hall Hw).
Qed.

Lemma the_end_is_final_witness :
  writable
    (after plain 8
       [do_write (Some "more"%string); reader_moves (reads_to 16);
        settle then_drain ok; do_synchronize; do_end]
       (after plain 8 [do_destroy None] stalled)) = false /\
  frozen (after plain 8 [do_destroy None] stalled)
    (after plain 8
       [do_write (Some "more"%string); reader_moves (reads_to 16);
        settle then_drain ok; do_synchronize; do_end]
       (after plain 8 [do_destroy None] stalled)).
Proof.
  apply (the_end_is_final plain 8
           [do_write (Some "more"%string); reader_moves (reads_to 16);
            settle then_drain ok; do_synchronize; do_end]
           (after plain 8 [do_destroy None] stalled)).
  vm_compute. reflexivity.
Defined.

(** ** The events that end the lifecycle come once *)

Lemma once_kept_refl w : once_kept w w.
Proof. intros H. split; [exact H | trivial]. Qed.

Lemma once_kept_trans a b c :
  once_kept a b -> once_kept b c -> once_kept a c.
Proof.
  unfold once_kept. intros H K Ha.
  destruct (H Ha) as [Hb Hab]. destruct (K Hb) as [Hc Hbc].
  split; [exact Hc | auto].
Qed.

Create HintDb onceframe.

Ltac by_once :=
  unfold once_kept, events_once, errors_heard, writable, closes, finishes,
    errors;
  fields; tauto.

Ltac once_frame :=
  frame once_kept_refl once_kept_trans
    ltac:(auto 2 with onceframe nocore) by_once.

Lemma once_kept_emit (e : event) :
  is_close e || is_finish e || is_error e = false ->
  preserves once_kept (emit e).
Proof.
  intros He. apply (preserves_emit _ once_kept_refl once_kept_trans). intros w.
  unfold once_kept, events_once, errors_heard, writable, closes, finishes,
    errors.
  fields.
  rewrite !filter_app, !length_app. cbn [filter].
  destruct (is_close e), (is_finish e), (is_error e); try discriminate.
  cbn [List.length]. rewrite !Nat.add_0_r. tauto.
Qed.

Lemma once_kept_emit_ready : preserves once_kept (emit ev_ready).
Proof. apply once_kept_emit. reflexivity. Qed.
#[local] Hint Resolve once_kept_emit_ready : onceframe.

Lemma once_kept_emit_drain : preserves once_kept (emit ev_drain).
Proof. apply once_kept_emit. reflexivity. Qed.
#[local] Hint Resolve once_kept_emit_drain : onceframe.

Lemma once_kept_reader_acts : preserves once_kept reader_acts.
Proof.
  apply (preserves_reader_acts _ once_kept_refl). intros w st rest. by_once.
Qed.
#[local] Hint Resolve once_kept_reader_acts : onceframe.

Lemma once_kept_Atomics_waitAsync (s : slot) (expected : Z)
    (timeout : option Z) :
  preserves once_kept (Atomics_waitAsync s expected timeout).
Proof. unfold Atomics_waitAsync, load. once_frame. Qed.
#[local] Hint Resolve once_kept_Atomics_waitAsync : onceframe.

Lemma once_kept_Atomics_wait (s : slot) (expected timeout : Z) :
  preserves once_kept (Atomics_wait s expected timeout).
Proof. unfold Atomics_wait, load. once_frame. Qed.
#[local] Hint Resolve once_kept_Atomics_wait : onceframe.

Lemma once_kept_store (cfg : config) (data : string) (isNotFin : Z) :
  preserves once_kept (_store cfg data isNotFin).
Proof. unfold _store, store, notify. once_frame. Qed.
#[local] Hint Resolve once_kept_store : onceframe.

Lemma once_kept_wrap : preserves once_kept wrap.
Proof. unfold wrap, store, notify. once_frame. Qed.
#[local] Hint Resolve once_kept_wrap : onceframe.

Lemma once_kept_spin_read (budget : nat) :
  forall spins read, preserves once_kept (spin_read budget spins read).
Proof.
  induction budget as [|budget IH]; intros spins read; cbn [spin_read];
    once_frame.
Qed.
#[local] Hint Resolve once_kept_spin_read : onceframe.

Lemma once_kept_Write (cfg : config) (fuel : nat) :
  forall sync toWrite, preserves once_kept (Write cfg fuel sync toWrite).
Proof.
  induction fuel as [|fuel IH]; intros sync toWrite; cbn [Write].
  - once_frame.
  - unfold load, then_, FakeWrite, Buffer_byteLength. once_frame.
Qed.
#[local] Hint Resolve once_kept_Write : onceframe.

(** [destroy] emits ['close'] on a writer that has emitted neither
    ['close'] nor ['finish'], and only when it leaves it not writable;
    with a listener, its ['error'] comes with that ['close']. *)
Lemma once_kept_destroy (cfg : config) (err : option error) :
  preserves once_kept (destroy cfg err).
Proof.
  intros w r w' H Hev.
  destruct (writable w) eqn:Hw.
  - destruct (destroy_on_writable cfg err w Hw)
      as (w1 & Hrun & Hem & _ & _ & _ & _ & Hnw & _ & _ & _ & _ & _ & _
          & _ & _ & Hl & _).
    rewrite Hrun in H. apply (f_equal snd) in H. cbn [snd] in H. subst w1.
    destruct Hev as (Hnone & _). destruct (Hnone Hw) as (Hc & Hf).
    unfold events_once, errors_heard, closes, finishes, errors in *.
    rewrite Hnw, Hl, Hem, !filter_app, !length_app, Hc, Hf.
    unfold heard, destroy_log.
    destruct err; destruct (error_listener w); cbn;
      repeat split; try discriminate; try lia;
      intros (K1 & K2 & K3); try discriminate;
      rewrite (K3 Hw); repeat split; try discriminate; lia.
  - unfold destroy in H. rewrite bind_gets, Hw in H.
    apply (f_equal snd) in H. cbn [snd negb] in H. subst w'.
    apply once_kept_refl. exact Hev.
Qed.
#[local] Hint Resolve once_kept_destroy : onceframe.

(** [end] emits either ['finish'] or, through [destroy], ['error'] and
    ['close'], on a writer that has emitted neither ['close'] nor
    ['finish']. *)
Lemma once_kept_end (cfg : config) : preserves once_kept (end_ cfg).
Proof.
  intros w r w' H Hev.
  destruct (writable w) eqn:Hw.
  - destruct (end_core cfg w Hw) as (r1 & w1 & Hrun & _ & Hl & Hcases).
    rewrite Hrun in H. injection H as _ <-.
    destruct Hev as (Hnone & _). destruct (Hnone Hw) as (Hc & Hf).
    unfold events_once, errors_heard, closes, finishes, errors in *.
    destruct Hcases
      as [(_ & Hnw & Hem & _) | (e & _ & _ & Hem & _ & _ & Hnw & _)];
      rewrite Hnw, Hl, Hem, !filter_app, !length_app, Hc, Hf;
      unfold destroy_log;
      destruct (error_listener w); cbn;
      repeat split; try discriminate; try lia;
      intros (K1 & K2 & K3); try discriminate;
      rewrite (K3 Hw); repeat split; try discriminate; lia.
  - unfold end_ in H. rewrite bind_gets, Hw in H.
    apply (f_equal snd) in H. cbn [snd negb] in H. subst w'.
    apply once_kept_refl. exact Hev.
Qed.
#[local] Hint Resolve once_kept_end : onceframe.

Lemma once_kept_call_end (cfg : config) (n : nat) :
  preserves once_kept (call_end cfg n).
Proof. induction n as [|n IH]; cbn [call_end]; once_frame. Qed.
#[local] Hint Resolve once_kept_call_end : onceframe.

Lemma once_kept_drain_loop (cfg : config) (fuel : nat) :
  preserves once_kept (drain_loop cfg fuel).
Proof. induction fuel as [|fuel IH]; cbn [drain_loop]; once_frame. Qed.
#[local] Hint Resolve once_kept_drain_loop : onceframe.

Lemma once_kept_drain (cfg : config) (fuel : nat) :
  preserves once_kept (_drain cfg fuel).
Proof. unfold _drain, emit_drain. once_frame. Qed.
#[local] Hint Resolve once_kept_drain : onceframe.

Lemma once_kept_watch (cfg : config) (fuel : nat) :
  preserves once_kept (_watch cfg fuel).
Proof.
  induction fuel as [|fuel IH]; cbn [_watch]; [once_frame|].
  unfold load, then_. once_frame.
Qed.
#[local] Hint Resolve once_kept_watch : onceframe.

Lemma once_kept_synchronize (cfg : config) :
  preserves once_kept (synchronize cfg).
Proof. unfold synchronize, load, store, then_. once_frame. Qed.
#[local] Hint Resolve once_kept_synchronize : onceframe.

Lemma once_kept_synchronized (cfg : config) (fuel : nat) (v : wait_status) :
  preserves once_kept (synchronized cfg fuel v).
Proof. unfold synchronized, load. once_frame. Qed.
#[local] Hint Resolve once_kept_synchronized : onceframe.

Lemma once_kept_step (cfg : config) (fuel : nat) (a : action) :
  preserves once_kept (step cfg fuel a).
Proof.
  destruct a; cbn [step];
    unfold invoke_write, writeSync, run_callback, FakeWrite; once_frame.
Qed.

(** X24.  ['finish'] and ['close'] come once, and with a listener so
    does ['error'].  Over any sequence of tasks, from a writer that has
    emitted neither ['close'] nor ['finish']: neither of the two is
    emitted while the writer is writable, and at most one of the two is
    ever emitted, and at most once, so a writer that has finished never
    emits ['close'].  When moreover a listener for ['error'] is
    registered from the start and no ['error'] was emitted yet without
    ['close'], this stays so: ['error'] is emitted at most once, never
    while the writer is writable, and only by a writer that also emits
    ['close'].  (Without a listener ['error'] is emitted by a [destroy]
    that throws and leaves the writer writable.) *)
Theorem closing_events_come_once :
  forall (cfg : config) (fuel : nat) (tasks : list action) (w : writer),
    events_once w ->
    events_once (after cfg fuel tasks w) /\
    (errors_heard w -> errors_heard (after cfg fuel tasks w)).
Proof.
  intros cfg fuel tasks. induction tasks as [|a tasks IH]; intros w Hw;
    cbn [after]; [split; [exact Hw | trivial]|].
  destruct (step cfg fuel a w) as [r w1] eqn:E. cbn [snd].
  destruct (once_kept_step cfg fuel a w r w1 E Hw) as [H1 Hh1].
  destruct (IH w1 H1) as [H2 Hh2].
  split; [exact H2 | auto].
Qed.

Lemma closing_events_come_once_witness :
  events_once
    (after plain 8
       [do_end; do_destroy (Some (other_error "late")); do_end;
        do_destroy None]
       (set_error_listener true (attached [idle; reads_to 16]))) /\
  (errors_heard (set_error_listener true (attached [idle; reads_to 16])) ->
   errors_heard
     (after plain 8
        [do_end; do_destroy (Some (other_error "late")); do_end;
         do_destroy None]
        (set_error_listener true (attached [idle; reads_to 16])))).
Proof.
  apply (closing_events_come_once plain 8
           [do_end; do_destroy (Some (other_error "late")); do_end;
            do_destroy None]
           (set_error_listener true (attached [idle; reads_to 16]))).
  unfold events_once.
  split; [intros _; vm_compute; repeat split|].
  vm_compute; lia.
Defined.

(** ** The answer of [Write] and the backlog *)

Lemma backlog_untouched_refl w : backlog_untouched w w.
Proof. unfold backlog_untouched. repeat split. Qed.

Lemma backlog_untouched_trans a b c :
  backlog_untouched a b -> backlog_untouched b c -> backlog_untouched a c.
Proof.
  unfold backlog_untouched.
  intros (H1 & H2 & H3 & H4) (K1 & K2 & K3 & K4). repeat split; congruence.
Qed.

Create HintDb backlogframe.

Ltac by_backlog :=
  unfold backlog_untouched; fields; repeat split; reflexivity.

Ltac backlog_frame :=
  frame backlog_untouched_refl backlog_untouched_trans
    ltac:(auto 2 with backlogframe nocore) by_backlog.

Lemma backlog_untouched_reader_acts :
  preserves backlog_untouched reader_acts.
Proof.
  apply (preserves_reader_acts _ backlog_untouched_refl).
  intros w st rest. by_backlog.
Qed.
#[local] Hint Resolve backlog_untouched_reader_acts : backlogframe.

Lemma backlog_untouched_Atomics_wait (s : slot) (expected timeout : Z) :
  preserves backlog_untouched (Atomics_wait s expected timeout).
Proof. unfold Atomics_wait, load. backlog_frame. Qed.
#[local] Hint Resolve backlog_untouched_Atomics_wait : backlogframe.

Lemma backlog_untouched_Atomics_waitAsync (s : slot) (expected : Z)
    (timeout : option Z) :
  preserves backlog_untouched (Atomics_waitAsync s expected timeout).
Proof. unfold Atomics_waitAsync, load. backlog_frame. Qed.

Lemma backlog_untouched_spin_read (budget : nat) :
  forall spins read,
    preserves backlog_untouched (spin_read budget spins read).
Proof.
  induction budget as [|budget IH]; intros spins read; cbn [spin_read];
    backlog_frame.
Qed.

Lemma backlog_untouched_wrap : preserves backlog_untouched wrap.
Proof. unfold wrap, store, notify. backlog_frame. Qed.

Lemma backlog_untouched_store (cfg : config) (data : string)
    (isNotFin : Z) :
  preserves backlog_untouched (_store cfg data isNotFin).
Proof. unfold _store, store, notify. backlog_frame. Qed.

Lemma answers_after (b : bool) (w w1 w' : writer) :
  backlog_untouched w w1 -> answers b w1 w' -> answers b w w'.
Proof.
  intros (H1 & H2 & H3 & H4). unfold answers, writableNeedDrain.
  destruct b.
  - rewrite H1, H2. trivial.
  - apply backlog_untouched_trans. repeat split; assumption.
Qed.

Lemma Write_answers (cfg : config) (fuel : nat) :
  forall sync toWrite w b w',
    Write cfg fuel sync toWrite w = (Returned b, w') -> answers b w w'.
Proof.
  induction fuel as [|fuel IH]; intros sync toWrite w b w' H;
    [discriminate|].
  cbn [Write] in H. rewrite bind_gets in H.
  destruct (writable w); cbn [negb] in H.
  2:{ unfold ret in H. injection H as <- <-. apply backlog_untouched_refl. }
  unfold load in H. do 5 rewrite bind_gets in H. cbv zeta in H.
  match type of H with
  | (if ?c then _ else _) _ = _ => destruct c; [discriminate|]
  end.
  match type of H with
  | (if ?c then _ else _) _ = _ => destruct c; [discriminate|]
  end.
  match type of H with
  | (if ?c then _ else _) _ = _ => destruct c
  end.
  { destruct sync.
    - apply bind_returned in H as ([] & w1 & H1 & H2).
      apply IH in H2.
      exact (answers_after _ _ _ _
               (backlog_untouched_spin_read _ _ _ w _ w1 H1) H2).
    - apply bind_returned in H as (waiting & w1 & H1 & H2).
      pose proof (backlog_untouched_Atomics_waitAsync _ _ _ w _ w1 H1)
        as Hkeep.
      destruct waiting as [v|].
      + apply IH in H2. exact (answers_after _ _ _ _ Hkeep H2).
      + apply (answers_after _ _ _ _ Hkeep).
        unfold then_, FakeWrite, bind, modify, ret in H2.
        injection H2 as <- <-.
        unfold answers, writableNeedDrain. fields.
        repeat split. exists toWrite. reflexivity. }
  match type of H with
  | (if ?c then _ else _) _ = _ => destruct c
  end.
  { apply bind_returned in H as ([] & w1 & H1 & H2).
    apply IH in H2.
    exact (answers_after _ _ _ _ (backlog_untouched_wrap w _ w1 H1) H2). }
  apply bind_returned in H as (size & w1 & H1 & H2).
  assert (w1 = w) as ->.
  { destruct toWrite; [|discriminate].
    apply (f_equal snd) in H1. symmetry. exact H1. }
  clear H1.
  match type of H2 with
  | (if ?c then _ else _) _ = _ => destruct c
  end.
  - apply bind_returned in H2 as ([] & w1 & H1 & H2).
    apply IH in H2.
    exact (answers_after _ _ _ _
             (backlog_untouched_store _ _ _ w _ w1 H1) H2).
  - apply bind_returned in H2 as ([] & w1 & H1 & H2).
    unfold ret in H2. injection H2 as <- <-.
    exact (backlog_untouched_store _ _ _ w _ w1 H1).
Qed.

(** X25.  The answer of [Write] tells what happened to the backlog.
    When it returns [true] it has registered exactly one callback of the
    drain on a promise, bound [write] to the stub, set [_needDrain] and
    put one payload at the end of the overflow queue; when it returns
    [false] it has registered nothing and the queue, the binding of
    [write] and [_needDrain] are as they were.  So a payload is never
    queued without a wake-up for it. *)
Theorem write_answer_tells_the_backlog :
  forall (cfg : config) (fuel : nat) (sync : bool) (toWrite : jsval)
         (w : writer) (b : bool) (w' : writer),
    Write cfg fuel sync toWrite w = (Returned b, w') ->
    answers b w w'.
Proof. intros cfg fuel. exact (Write_answers cfg fuel). Qed.

Lemma write_answer_tells_the_backlog_witness :
  answers true (fresh 16 [])
    (snd (Write plain 4 false (Some "hello world 1234"%string)
            (fresh 16 []))).
Proof.
  apply (write_answer_tells_the_backlog plain 4 false
           (Some "hello world 1234"%string) (fresh 16 []) true
           (snd (Write plain 4 false (Some "hello world 1234"%string)
                   (fresh 16 [])))).
  vm_compute. reflexivity.
Defined.

(** ** The synchronous wait *)

Lemma quiet_wait_times_out (read : Z) (w : writer) :
  word READ_INDEX w = read ->
  Forall quiet (firstn 1 (reader w)) ->
  exists w1,
    Atomics_wait READ_INDEX read SPIN_TIMEOUT w = (Returned timed_out, w1) /\
    reader_only w w1 /\
    word READ_INDEX w1 = read /\
    reader w1 = skipn 1 (reader w).
Proof.
  intros Hr Hq. unfold Atomics_wait, load. rewrite bind_gets.
  unfold word in Hr. rewrite Hr, Z.eqb_refl.
  unfold bind, reader_acts, ret.
  destruct (reader w) as [|t rest] eqn:Er.
  - exists w. split; [reflexivity|]. split; [apply reader_only_refl|].
    split; [exact Hr | cbn [skipn]; exact Er].
  - cbn [firstn] in Hq. apply Forall_cons_iff in Hq as [[Hi Hn] _].
    rewrite Hn. eexists. split; [reflexivity|].
    pose proof (reader_step_keeps_writer_words t (_sharedState w))
      as (H1 & H2 & H3).
    unfold reader_only, word. fields.
    repeat split; try assumption.
    unfold reader_step. rewrite Hi. destruct (t_cycle t), (t_process t);
      cbn; exact Hr.
Qed.

Lemma wait_on_equal_takes_a_turn (read : Z) (w : writer) :
  word READ_INDEX w = read ->
  exists r w1,
    Atomics_wait READ_INDEX read SPIN_TIMEOUT w = (Returned r, w1) /\
    reader_only w w1 /\
    reader w1 = skipn 1 (reader w).
Proof.
  intros Hr. unfold Atomics_wait, load. rewrite bind_gets.
  unfold word in Hr. rewrite Hr, Z.eqb_refl.
  unfold bind, reader_acts, ret.
  destruct (reader w) as [|t rest] eqn:Er.
  - exists timed_out, w. split; [reflexivity|].
    split; [apply reader_only_refl | cbn [skipn]; exact Er].
  - eexists _, _. split; [reflexivity|].
    pose proof (reader_step_keeps_writer_words t (_sharedState w))
      as (H1 & H2 & H3).
    unfold reader_only, word. fields. repeat split; assumption.
Qed.

Lemma spin_read_gives_up (budget : nat) :
  forall spins read w,
    spins + Z.of_nat budget + 1 = READ_SPINS ->
    word READ_INDEX w = read ->
    Forall quiet (firstn budget (reader w)) ->
    exists w',
      spin_read (S budget) spins read w = (Thrown TOO_LONG_READING, w') /\
      reader_only w w' /\
      reader w' = skipn (S budget) (reader w).
Proof.
  induction budget as [|budget IH]; intros spins read w Hs Hr Hq.
  - cbn [spin_read]. unfold bind at 1.
    destruct (wait_on_equal_takes_a_turn read w Hr)
      as (r & w1 & Hwait & Honly & Hturn).
    rewrite Hwait. cbv zeta.
    replace (spins + 1 =? READ_SPINS) with true
      by (symmetry; apply Z.eqb_eq; lia).
    exists w1. split; [reflexivity|]. split; assumption.
  - destruct (quiet_wait_times_out read w Hr)
      as (w1 & Hwait & Honly & Hr1 & Hs1).
    { destruct (reader w); [constructor|].
      cbn [firstn] in *. apply Forall_cons_iff in Hq as [Hq _].
      constructor; [exact Hq | constructor]. }
    destruct (IH (spins + 1) read w1) as (w' & Hrun & Honly' & Hturn);
      [lia | exact Hr1 | |].
    { rewrite Hs1. destruct (reader w); [destruct budget; constructor|].
      cbn [firstn skipn] in *. apply Forall_cons_iff in Hq as [_ Hq].
      exact Hq. }
    remember (S budget) as n eqn:Hn.
    cbn [spin_read]. unfold bind at 1. rewrite Hwait. cbv zeta.
    replace (spins + 1 =? READ_SPINS) with false
      by (symmetry; apply Z.eqb_neq; lia).
    exists w'. split; [exact Hrun|].
    split; [exact (reader_only_trans _ _ _ Honly Honly')|].
    rewrite Hturn, Hs1, skipn_skipn, Nat.add_1_r. reflexivity.
Qed.

(** X26.  The synchronous wait gives up at the tenth wait, whatever the
    tenth wait answers.  When a synchronous [Write] finds no room behind
    a reader that keeps its index and does not notify during nine waits,
    the call throws the timeout error to its caller after the tenth
    wait, even when that one was answered; only the reader has moved:
    the writer is not destroyed and nothing is stored or queued. *)
Theorem sync_write_gives_up_at_the_tenth_wait :
  forall (cfg : config) (fuel : nat) (toWrite : jsval) (w : writer),
    writable w = true ->
    overwritten_fault w = false ->
    reader_ahead_fault w = false ->
    behind w = true ->
    leftover cfg w <= 0 ->
    Forall quiet (firstn 9 (reader w)) ->
    exists w',
      Write cfg (S fuel) true toWrite w = (Thrown TOO_LONG_READING, w') /\
      reader_only w w' /\
      reader w' = skipn 10 (reader w).
Proof.
  intros cfg fuel toWrite w Hw Ho Ha Hb Hl Hq.
  destruct (spin_read_gives_up 9 0 (word READ_INDEX w) w)
    as (w' & Hrun & Honly & Hturn);
    [reflexivity | reflexivity | exact Hq |].
  exists w'.
  assert (Hwrite :
    Write cfg (S fuel) true toWrite w = (Thrown TOO_LONG_READING, w')).
  { unfold overwritten_fault, reader_ahead_fault, leftover in *.
    unfold behind, word, ring_size in *.
    cbn [Write]. rewrite bind_gets, Hw. cbn [negb].
    unfold load. do 5 rewrite bind_gets. cbv zeta. fields.
    rewrite Hb in *.
    replace (read_index (_sharedState w) - _write w <? 0) with false
      by (symmetry; apply Z.ltb_ge; apply Z.ltb_ge in Ho; lia).
    rewrite Ha.
    replace (read_index (_sharedState w) - _write w - (EXTRA_SPACE cfg + 1)
             <=? 0) with true by (symmetry; apply Z.leb_le; exact Hl).
    cbn [andb]. unfold bind at 1.
    change (Z.to_nat READ_SPINS) with 10%nat.
    unfold word in Hrun. fields. rewrite Hrun. reflexivity. }
  split; [exact Hwrite|]. split; assumption.
Qed.

Lemma sync_write_gives_up_at_the_tenth_wait_witness :
  exists w',
    Write plain 1 true (Some "x"%string)
      (set_reader (repeat idle 9 ++ [reads_to 16]) stalled) =
      (Thrown TOO_LONG_READING, w') /\
    reader_only (set_reader (repeat idle 9 ++ [reads_to 16]) stalled) w' /\
    reader w' =
      skipn 10 (reader (set_reader (repeat idle 9 ++ [reads_to 16]) stalled)).
Proof.
  apply (sync_write_gives_up_at_the_tenth_wait plain 0 (Some "x"%string)
           (set_reader (repeat idle 9 ++ [reads_to 16]) stalled)).
  - vm_compute. reflexivity.
  - vm_compute. reflexivity.
  - vm_compute. reflexivity.
  - vm_compute. reflexivity.
  - vm_compute. discriminate.
  - vm_compute. repeat constructor.
Defined.

(** ** The writer never overruns the reader *)

Lemma rests_Atomics_wait (s : slot) (expected timeout : Z) (w : writer) :
  reader w = [] ->
  exists r, Atomics_wait s expected timeout w = (Returned r, w).
Proof.
  intros Hr. unfold Atomics_wait, load. rewrite bind_gets.
  destruct (_ =? expected).
  - unfold bind, reader_acts, ret. rewrite Hr. eexists. reflexivity.
  - eexists. reflexivity.
Qed.

Lemma rests_spin_read (budget : nat) :
  forall spins read w r w',
    reader w = [] ->
    spin_read budget spins read w = (r, w') -> w' = w.
Proof.
  induction budget as [|budget IH]; intros spins read w r w' Hr H.
  - unfold out_of_fuel in H. injection H as _ <-. reflexivity.
  - cbn [spin_read] in H. unfold bind at 1 in H.
    destruct (rests_Atomics_wait READ_INDEX read SPIN_TIMEOUT w Hr)
      as (st & Hwait).
    rewrite Hwait in H. cbv zeta in H.
    unfold ret, throw in H.
    destruct (spins + 1 =? READ_SPINS).
    + injection H as _ <-. reflexivity.
    + destruct st; [injection H as _ <-; reflexivity
                   | eapply IH; eassumption
                   | injection H as _ <-; reflexivity].
Qed.

Lemma rests_waitAsync (s : slot) (w : writer) :
  reader w = [] ->
  Atomics_waitAsync s (Atomics_load (_sharedState w) s) None w =
    (Returned promise, w).
Proof.
  intros Hr. unfold Atomics_waitAsync, load.
  unfold bind at 1, reader_acts. rewrite Hr.
  rewrite bind_gets, Z.eqb_refl. reflexivity.
Qed.

(** With room for the whole frame, [_store] returns with the cursor
    behind the frame and nothing else of the protocol changed. *)
Lemma store_in_range_effect (cfg : config) (data : string) (isNotFin : Z)
    (w : writer) :
  4 <= PREFIX_SIZE cfg -> 0 <= POSTFIX_SIZE cfg ->
  0 <= _write w -> 0 <= isNotFin <= 255 ->
  len (utf8 data) < 2147483648 ->
  len (utf8 data) + EXTRA_SPACE cfg + 1 <= ring_size w - _write w ->
  exists w',
    _store cfg data isNotFin w = (Returned tt, w') /\
    _write w' = _write w + len (utf8 data) + EXTRA_SPACE cfg + 1 /\
    word READ_INDEX w' = word READ_INDEX w /\
    word READ_CYCLE w' = word READ_CYCLE w /\
    _cycle w' = _cycle w /\
    reader w' = reader w.
Proof.
  intros Hpre Hpost Hpos Hfin Hint Hroom.
  unfold ring_size, EXTRA_SPACE in *.
  pose proof (len_nonneg (utf8 data)) as Hn.
  pose proof (store_cases cfg data isNotFin w) as H. cbv zeta in H.
  rewrite (utf8_fit_all data) in H by lia.
  unfold EXTRA_SPACE in H.
  destruct (_store cfg data isNotFin w) as [[[]|e|] w'].
  - destruct H as (_ & Hw & Hs & _ & _ & Hso & _).
    exists w'. split; [reflexivity|].
    unfold store_only in Hso. unfold word. rewrite Hs.
    repeat split; try (rewrite <- Hso; reflexivity).
    rewrite Hw. lia.
  - exfalso. destruct H as (_ & _ & Hnot). apply Hnot. lia.
  - contradiction.
Qed.

Ltac unchanged Hin Hrest :=
  split; [exact Hin | split; [exact Hrest | split; [reflexivity|]]].

Lemma Write_in_step (cfg : config) (fuel : nat) :
  4 <= PREFIX_SIZE cfg -> 0 <= POSTFIX_SIZE cfg ->
  forall sync q w r w',
    ascii_only q = true -> ring_size w < 2147483648 ->
    in_step w -> reader w = [] ->
    Write cfg fuel sync (Some q) w = (r, w') ->
    in_step w' /\ reader w' = [] /\ ring_size w' = ring_size w /\
    (forall e, r = Thrown e -> sync = true /\ e = TOO_LONG_READING).
Proof.
  intros Hpre Hpost.
  induction fuel as [|fuel IH]; intros sync q w r w' Hq Hsize Hin Hrest H.
  { cbn [Write] in H. unfold out_of_fuel in H. injection H as <- <-.
    unchanged Hin Hrest. discriminate. }
  pose proof Hin as (Hst & Hread & Hover & Hahead).
  pose proof Hst as (Hw & Hpos & Hrange & Hscript).
  cbn [Write] in H.
  rewrite bind_gets in H. cbv beta in H. rewrite Hw in H. cbn [negb] in H.
  unfold load in H.
  do 5 (rewrite bind_gets in H; cbv beta in H).
  fold (word READ_INDEX w) in H. fold (word READ_CYCLE w) in H.
  fold (ring_size w) in H.
  cbv zeta in H.
  unfold overwritten_fault, reader_ahead_fault, behind in Hover, Hahead.
  set (isBehind :=
         (word READ_INDEX w >? _write w) || (word READ_CYCLE w <? _cycle w))
    in *.
  assert (Hbehind : isBehind =
           (word READ_INDEX w >? _write w) || (word READ_CYCLE w <? _cycle w))
    by reflexivity.
  set (avail := if isBehind then word READ_INDEX w else ring_size w) in *.
  assert (Havail : avail = if isBehind then word READ_INDEX w else ring_size w)
    by reflexivity.
  assert (Hle : avail <= ring_size w)
    by (rewrite Havail; destruct isBehind; lia).
  clearbody avail.
  apply Z.ltb_ge in Hover.
  replace (avail - _write w <? 0) with false in H
    by (symmetry; apply Z.ltb_ge; lia).
  rewrite Hahead in H.
  assert (Hcycle : word READ_CYCLE w <= _cycle w)
    by (destruct (Z.gtb_spec (word READ_CYCLE w) (_cycle w));
        [discriminate | assumption]).
  set (leftover := avail - _write w - (EXTRA_SPACE cfg + 1)) in H.
  assert (Hleft : leftover = avail - _write w - (EXTRA_SPACE cfg + 1))
    by reflexivity.
  clearbody leftover. unfold EXTRA_SPACE in Hleft.
  destruct (Z.leb_spec leftover 0) as [Hfull|Hroom]; cbn [andb] in H.
  - destruct isBehind eqn:Eb; cbn [negb] in H.
    + destruct sync.
      * unfold bind at 1 in H.
        destruct (spin_read (Z.to_nat READ_SPINS) 0 (word READ_INDEX w) w)
          as [r1 w1] eqn:Es.
        pose proof (rests_spin_read _ _ _ _ _ _ Hrest Es) as ->.
        destruct r1 as [[]|e1|].
        -- destruct (IH false q w r w' Hq Hsize Hin Hrest H)
             as (H1 & H2 & H3 & H4).
           split; [exact H1|]. split; [exact H2|]. split; [exact H3|].
           intros e He. destruct (H4 e He) as [? _]. discriminate.
        -- injection H as <- <-. unchanged Hin Hrest.
           intros e He. injection He as <-.
           split; [reflexivity|]. eapply spin_read_throws; exact Es.
        -- injection H as <- <-. unchanged Hin Hrest. discriminate.
      * unfold bind at 1 in H. unfold word in H.
        rewrite (rests_waitAsync READ_INDEX w Hrest) in H.
        unfold then_, FakeWrite, bind, modify, ret in H.
        injection H as <- <-.
        split; [exact Hin|]. split; [exact Hrest|].
        split; [reflexivity | discriminate].
    + unfold bind at 1 in H.
      destruct (wrap w) as [r1 w1] eqn:Ew.
      unfold wrap in Ew.
      unfold bind at 1, modify at 1 in Ew. rewrite bind_gets in Ew.
      unfold bind at 1, store at 1, modify at 1 in Ew.
      rewrite bind_gets in Ew.
      unfold bind at 1, modify at 1 in Ew.
      unfold bind at 1, store at 1, modify at 1 in Ew.
      unfold notify, modify in Ew. fields.
      injection Ew as <- <-.
      symmetry in Hbehind. apply orb_false_iff in Hbehind as [Hb1 Hb2].
      apply Z.ltb_ge in Hb2.
      match type of H with
      | Write _ _ _ _ ?x = _ => set (w1 := x) in *
      end.
      assert (Hin1 : in_step w1).
      { unfold w1, in_step, steady, reader_in_range, overwritten_fault,
          reader_ahead_fault, behind, writable, word, ring_size in *.
        fields.
        replace (read_cycle (_sharedState w) <? _cycle w + 1) with true
          by (symmetry; apply Z.ltb_lt; lia).
        rewrite orb_true_r.
        repeat split; try assumption; try lia. }
      destruct (IH sync q w1 r w' Hq Hsize Hin1 Hrest H)
        as (H1 & H2 & H3 & H4).
      split; [exact H1|]. split; [exact H2|]. split; [exact H3 | exact H4].
  - cbn [Buffer_byteLength string_of] in H. rewrite bind_ret in H.
    pose proof (len_nonneg (utf8 q)) as Hlen.
    assert (Hkeep : forall data fin w1,
      0 <= fin <= 255 ->
      0 <= len (utf8 data) <= leftover ->
      _store cfg data fin w = (Returned tt, w1) ->
      _write w1 = _write w + len (utf8 data) + EXTRA_SPACE cfg + 1 ->
      word READ_INDEX w1 = word READ_INDEX w ->
      word READ_CYCLE w1 = word READ_CYCLE w ->
      _cycle w1 = _cycle w ->
      reader w1 = reader w ->
      in_step w1 /\ reader w1 = [] /\ ring_size w1 = ring_size w).
    { intros data fin w1 Hfin Hdata Est Hw1 Hri Hrc Hcy Hrd.
      destruct (steady_kept_store _ _ _ _ _ _ Est) as [Hsz Hk].
      split; [|split; [congruence | exact Hsz]].
      split; [exact (Hk Hst)|].
      unfold overwritten_fault, reader_ahead_fault, behind.
      rewrite Hri, Hrc, Hcy, Hsz, Hw1. unfold EXTRA_SPACE.
      split; [exact Hread|]. split; [|exact Hahead].
      apply Z.ltb_ge. clear Hbehind. subst isBehind. revert Havail.
      destruct (Z.gtb_spec (word READ_INDEX w) (_write w));
        destruct (Z.ltb_spec (word READ_CYCLE w) (_cycle w));
        cbn [orb]; intros ->;
        destruct (Z.gtb_spec (word READ_INDEX w)
                    (_write w + len (utf8 data)
                     + (PREFIX_SIZE cfg + POSTFIX_SIZE cfg) + 1));
        cbn [orb]; lia. }
    destruct (Z.ltb_spec leftover (len (utf8 q) + EXTRA_SPACE cfg))
      as [Hsplit|Hfits]; unfold EXTRA_SPACE in *.
    + rewrite slice_head, slice_tail in H by assumption.
      set (n := Z.to_nat (Z.min leftover (Z.of_nat (String.length q)))) in H.
      assert (Hchunk : 0 <= len (utf8 (take n q)) <= leftover).
      { rewrite ascii_only_len by (apply ascii_only_take; exact Hq).
        rewrite length_take. unfold n. lia. }
      destruct (store_in_range_effect cfg (take n q) 1 w)
        as (w1 & Est & Hw1 & Hri & Hrc & Hcy & Hrd);
        try assumption; unfold EXTRA_SPACE; try lia.
      unfold bind at 1 in H. rewrite Est in H.
      destruct (Hkeep (take n q) 1 w1) as (Hin1 & Hrest1 & Hsz1);
        try assumption; try lia.
      destruct (IH sync (drop n q) w1 r w') as (H1 & H2 & H3 & H4);
        [apply ascii_only_drop; exact Hq | rewrite Hsz1; exact Hsize
        | exact Hin1 | exact Hrest1 | exact H |].
      split; [exact H1|]. split; [exact H2|]. split; [congruence|].
      exact H4.
    + destruct (store_in_range_effect cfg q 0 w)
        as (w1 & Est & Hw1 & Hri & Hrc & Hcy & Hrd);
        try assumption; unfold EXTRA_SPACE; try lia.
      unfold bind in H. rewrite Est in H. unfold ret in H.
      injection H as <- <-.
      destruct (Hkeep q 0 w1) as (Hin1 & Hrest1 & Hsz1);
        try assumption; try lia.
      split; [exact Hin1|]. split; [exact Hrest1|].
      split; [exact Hsz1 | discriminate].
Qed.

(** X27.  The writer never overruns the reader.  Take a writer in
    working order whose cursor has not passed the room the reader has
    left and whose reader is not a lap ahead, and let the reader rest
    during the call.  Then a call of [Write] with an ASCII string, split
    or not, wrapped or not, leaves the writer in that same condition: the
    cursor never passes the reader's index.  The two faults that the
    source marks "should never happen" do not happen: the call never
    throws ['overwritten'] or ['Read further than expected'], and the only
    error it can throw is the timeout of a synchronous wait. *)
Theorem writer_never_overruns_a_resting_reader :
  forall (cfg : config) (fuel : nat) (sync : bool) (p : string)
         (w : writer) (r : result bool) (w' : writer),
    4 <= PREFIX_SIZE cfg -> 0 <= POSTFIX_SIZE cfg ->
    ascii_only p = true -> ring_size w < 2147483648 ->
    in_step w -> reader w = [] ->
    Write cfg fuel sync (Some p) w = (r, w') ->
    in_step w' /\
    (forall e, r = Thrown e -> sync = true /\ e = TOO_LONG_READING).
Proof.
  intros cfg fuel sync p w r w' Hpre Hpost Hp Hsize Hin Hrest H.
  destruct (Write_in_step cfg fuel Hpre Hpost sync p w r w' Hp Hsize Hin
              Hrest H) as (H1 & _ & _ & H4).
  split; assumption.
Qed.

Lemma writer_never_overruns_a_resting_reader_witness :
  in_step (snd (Write plain 4 false (Some "hello world 1234"%string)
                  (fresh 16 []))) /\
  (forall e,
     fst (Write plain 4 false (Some "hello world 1234"%string)
            (fresh 16 [])) = Thrown e ->
     false = true /\ e = TOO_LONG_READING).
Proof.
  apply (writer_never_overruns_a_resting_reader plain 4 false
           "hello world 1234"%string (fresh 16 [])).
  - vm_compute. discriminate.
  - vm_compute. discriminate.
  - reflexivity.
  - vm_compute. reflexivity.
  - unfold in_step, steady, reader_in_range.
    split; [split; [vm_compute; reflexivity|]|].
    + split; [vm_compute; discriminate|].
      split; [vm_compute; discriminate|].
      assert (E : reader (fresh 16 []) = []) by reflexivity.
      rewrite E. constructor.
    + split; [vm_compute; discriminate|].
      split; vm_compute; reflexivity.
  - reflexivity.
  - vm_compute. reflexivity.
Defined.

(** ** The writer keeps to its own words *)

Lemma reader_words_kept_refl w : reader_words_kept w w.
Proof. intros H. repeat split. exact H. Qed.

Lemma reader_words_kept_trans a b c :
  reader_words_kept a b -> reader_words_kept b c -> reader_words_kept a c.
Proof.
  unfold reader_words_kept. intros H K Ha.
  destruct (H Ha) as (H1 & H2 & H3 & H4).
  destruct (K H1) as (K1 & K2 & K3 & K4).
  repeat split; congruence.
Qed.

Create HintDb wordsframe.

Ltac by_words :=
  unfold reader_words_kept, word; fields;
  intros ?; repeat split; first [reflexivity | assumption].

Ltac words_frame :=
  frame reader_words_kept_refl reader_words_kept_trans
    ltac:(auto 2 with wordsframe nocore) by_words.

Lemma reader_words_kept_reader_acts : preserves reader_words_kept reader_acts.
Proof.
  intros w r w' H Hr. unfold reader_acts in H. rewrite Hr in H.
  injection H as _ <-. repeat split. exact Hr.
Qed.
#[local] Hint Resolve reader_words_kept_reader_acts : wordsframe.

Lemma reader_words_kept_Atomics_wait (s : slot) (expected timeout : Z) :
  preserves reader_words_kept (Atomics_wait s expected timeout).
Proof. unfold Atomics_wait, load. words_frame. Qed.
#[local] Hint Resolve reader_words_kept_Atomics_wait : wordsframe.

Lemma reader_words_kept_Atomics_waitAsync (s : slot) (expected : Z)
    (timeout : option Z) :
  preserves reader_words_kept (Atomics_waitAsync s expected timeout).
Proof. unfold Atomics_waitAsync, load. words_frame. Qed.
#[local] Hint Resolve reader_words_kept_Atomics_waitAsync : wordsframe.

Lemma reader_words_kept_spin_read (budget : nat) :
  forall spins read,
    preserves reader_words_kept (spin_read budget spins read).
Proof.
  induction budget as [|budget IH]; intros spins read; cbn [spin_read];
    words_frame.
Qed.
#[local] Hint Resolve reader_words_kept_spin_read : wordsframe.

Lemma reader_words_kept_wrap : preserves reader_words_kept wrap.
Proof. unfold wrap, store, notify. words_frame. Qed.
#[local] Hint Resolve reader_words_kept_wrap : wordsframe.

Lemma reader_words_kept_store (cfg : config) (data : string)
    (isNotFin : Z) :
  preserves reader_words_kept (_store cfg data isNotFin).
Proof. unfold _store, store, notify. words_frame. Qed.
#[local] Hint Resolve reader_words_kept_store : wordsframe.

Lemma reader_words_kept_Write (cfg : config) (fuel : nat) :
  forall sync toWrite,
    preserves reader_words_kept (Write cfg fuel sync toWrite).
Proof.
  induction fuel as [|fuel IH]; intros sync toWrite; cbn [Write].
  - words_frame.
  - unfold load, then_, FakeWrite, Buffer_byteLength. words_frame.
Qed.
#[local] Hint Resolve reader_words_kept_Write : wordsframe.

Lemma reader_words_kept_destroy (cfg : config) (err : option error) :
  preserves reader_words_kept (destroy cfg err).
Proof. unfold destroy, load, store, notify, emit. words_frame. Qed.
#[local] Hint Resolve reader_words_kept_destroy : wordsframe.

Lemma reader_words_kept_spin_finish (cfg : config) (budget : nat) :
  forall spins status,
    preserves reader_words_kept (spin_finish cfg budget spins status).
Proof.
  induction budget as [|budget IH]; intros spins status; cbn [spin_finish].
  - words_frame.
  - unfold load. words_frame.
Qed.
#[local] Hint Resolve reader_words_kept_spin_finish : wordsframe.

Lemma reader_words_kept_end (cfg : config) :
  preserves reader_words_kept (end_ cfg).
Proof. unfold end_, load, store, notify, emit. words_frame. Qed.
#[local] Hint Resolve reader_words_kept_end : wordsframe.

Lemma reader_words_kept_call_end (cfg : config) (n : nat) :
  preserves reader_words_kept (call_end cfg n).
Proof. induction n as [|n IH]; cbn [call_end]; words_frame. Qed.
#[local] Hint Resolve reader_words_kept_call_end : wordsframe.

Lemma reader_words_kept_drain_loop (cfg : config) (fuel : nat) :
  preserves reader_words_kept (drain_loop cfg fuel).
Proof. induction fuel as [|fuel IH]; cbn [drain_loop]; words_frame. Qed.
#[local] Hint Resolve reader_words_kept_drain_loop : wordsframe.

Lemma reader_words_kept_drain (cfg : config) (fuel : nat) :
  preserves reader_words_kept (_drain cfg fuel).
Proof. unfold _drain, emit_drain, emit. words_frame. Qed.
#[local] Hint Resolve reader_words_kept_drain : wordsframe.

Lemma reader_words_kept_watch (cfg : config) (fuel : nat) :
  preserves reader_words_kept (_watch cfg fuel).
Proof.
  induction fuel as [|fuel IH]; cbn [_watch]; [words_frame|].
  unfold load, then_. words_frame.
Qed.
#[local] Hint Resolve reader_words_kept_watch : wordsframe.

Lemma reader_words_kept_synchronize (cfg : config) :
  preserves reader_words_kept (synchronize cfg).
Proof. unfold synchronize, load, store, then_, emit. words_frame. Qed.
#[local] Hint Resolve reader_words_kept_synchronize : wordsframe.

Lemma reader_words_kept_synchronized (cfg : config) (fuel : nat)
    (v : wait_status) :
  preserves reader_words_kept (synchronized cfg fuel v).
Proof. unfold synchronized, load, emit. words_frame. Qed.
#[local] Hint Resolve reader_words_kept_synchronized : wordsframe.

Lemma reader_words_kept_step (cfg : config) (fuel : nat) (a : action) :
  writer_task a = true ->
  preserves reader_words_kept (step cfg fuel a).
Proof.
  destruct a; cbn [writer_task]; intros Ha; try discriminate; cbn [step];
    unfold invoke_write, writeSync, run_callback, FakeWrite; words_frame.
Qed.

(** X28.  The writer keeps to its own words.  Whatever the writer's own
    tasks are and however they finish, the writer stores into none of
    the reader's words: while the reader rests, [READ_INDEX],
    [READ_CYCLE] and [READ_PROCESS] are afterwards what they were. *)
Theorem writer_never_stores_into_the_readers_words :
  forall (cfg : config) (fuel : nat) (tasks : list action) (w : writer),
    forallb writer_task tasks = true ->
    reader w = [] ->
    word READ_INDEX (after cfg fuel tasks w) = word READ_INDEX w /\
    word READ_CYCLE (after cfg fuel tasks w) = word READ_CYCLE w /\
    word READ_PROCESS (after cfg fuel tasks w) = word READ_PROCESS w.
Proof.
  intros cfg fuel tasks. induction tasks as [|a tasks IH]; intros w Ht Hr;
    cbn [after]; [repeat split|].
  cbn [forallb] in Ht. apply andb_true_iff in Ht as [Ha Ht].
  destruct (step cfg fuel a w) as [r w1] eqn:E. cbn [snd].
  destruct (reader_words_kept_step cfg fuel a Ha w r w1 E Hr)
    as (Hr1 & H1 & H2 & H3).
  destruct (IH w1 Ht Hr1) as (K1 & K2 & K3).
  repeat split; congruence.
Qed.

Lemma writer_never_stores_into_the_readers_words_witness :
  word READ_INDEX
    (after plain 8 (two_buffered ++ [do_end; do_destroy None])
       (fresh 16 [])) = word READ_INDEX (fresh 16 []) /\
  word READ_CYCLE
    (after plain 8 (two_buffered ++ [do_end; do_destroy None])
       (fresh 16 [])) = word READ_CYCLE (fresh 16 []) /\
  word READ_PROCESS
    (after plain 8 (two_buffered ++ [do_end; do_destroy None])
       (fresh 16 [])) = word READ_PROCESS (fresh 16 []).
Proof.
  apply (writer_never_stores_into_the_readers_words plain 8
           (two_buffered ++ [do_end; do_destroy None]) (fresh 16 []));
    reflexivity.
Defined.
